(** * Maze game: the command interpreter and the grid search visualizer

    A shallow embedding of [components/game-interface.tsx] (class
    [CodeExecutor], [createLevelMaze]) and of the algorithm visualizer
    component ([getNeighbors], [calculateHeuristic], [runAlgorithm]),
    with the properties of the specification stated over it. *)

From Stdlib Require Import ZArith NArith String Ascii List Bool Lia Arith.
From Stdlib Require Import Permutation Sorted.
Import ListNotations.

Local Open Scope Z_scope.

(** ** JavaScript strings

    A JavaScript string is a sequence of UTF-16 code units; a code unit is
    modelled by its number.  Program literals are plain ASCII and written as
    Rocq strings, converted by [units]. *)

Module JsString.

Definition jsstring := list N.

Definition units (s : string) : jsstring :=
  map N_of_ascii (list_ascii_of_string s).

(** WhiteSpace and LineTerminator code units, the ones [String.prototype.trim]
    strips. *)
Definition isWhiteSpace (c : N) : bool :=
  (existsb (N.eqb c)
     [9; 10; 11; 12; 13; 32; 160; 5760; 8232; 8233; 8239; 8287; 12288; 65279]%N
   || ((8192 <=? c) && (c <=? 8202))%N)%bool.

Fixpoint trimStart (s : jsstring) : jsstring :=
  match s with
  | c :: s' => if isWhiteSpace c then trimStart s' else s
  | [] => []
  end.

Definition trimEnd (s : jsstring) : jsstring := rev (trimStart (rev s)).

Definition trim (s : jsstring) : jsstring := trimEnd (trimStart s).

(** [s.split(sep)] for a separator of one code unit: never the empty list. *)
Fixpoint split (sep : N) (s : jsstring) : list jsstring :=
  match s with
  | [] => [[]]
  | c :: s' =>
      if N.eqb c sep then [] :: split sep s'
      else match split sep s' with
           | l :: ls => (c :: l) :: ls
           | [] => [[c]]
           end
  end.

Fixpoint startsWith (s prefix : jsstring) : bool :=
  match prefix, s with
  | [], _ => true
  | p :: prefix', c :: s' => N.eqb c p && startsWith s' prefix'
  | _ :: _, [] => false
  end.

(** A non-empty string is truthy. *)
Definition truthy (s : jsstring) : bool :=
  match s with [] => false | _ :: _ => true end.

Definition isDigit (c : N) : bool := ((48 <=? c) && (c <=? 57))%N.

(** [Number.parseInt] on a string of decimal digits. *)
Definition parseInt (s : jsstring) : N :=
  fold_left (fun acc c => (10 * acc + (c - 48))%N) s 0%N.

End JsString.

(** ** The regular expressions of [parseCode]

    The three patterns use only literal characters, the end-of-input
    assertion [$] (no [m] flag) and one capturing group [(\d+)]. *)

Module Regex.
Import JsString.

Inductive atom : Type :=
| Chr (c : N)      (* a literal character *)
| EndOfInput       (* [$] *)
| DigitsGroup.     (* [(\d+)], greedy, capturing *)

Definition regex := list atom.

(** Matching the pattern at the start of [s], by backtracking; the result is
    the list of captured groups. *)
Fixpoint match_here (re : regex) (s : jsstring) : option (list jsstring) :=
  match re with
  | [] => Some []
  | Chr c :: re' =>
      match s with
      | x :: s' => if N.eqb x c then match_here re' s' else None
      | [] => None
      end
  | EndOfInput :: re' =>
      match s with
      | [] => match_here re' []
      | _ :: _ => None
      end
  | DigitsGroup :: re' =>
      (fix digits (s : jsstring) (acc : jsstring) {struct s}
         : option (list jsstring) :=
         match s with
         | x :: s' =>
             if isDigit x then
               match digits s' (acc ++ [x]) with
               | Some r => Some r
               | None => option_map (cons (acc ++ [x])) (match_here re' s')
               end
             else None
         | [] => None
         end) s []
  end.

(** [s.match(re)] for a pattern without the [g] flag: the first position, from
    the left, at which the pattern matches; [None] is JavaScript's [null]. *)
Fixpoint regex_match (re : regex) (s : jsstring) : option (list jsstring) :=
  match match_here re s with
  | Some r => Some r
  | None =>
      match s with
      | [] => None
      | _ :: s' => regex_match re s'
      end
  end.

Definition literal (s : string) : regex := map Chr (units s).

(** [/forward$$(\d+)$$/] *)
Definition forward_re : regex :=
  literal "forward" ++ [EndOfInput; EndOfInput; DigitsGroup; EndOfInput; EndOfInput].

(** [/left$$$$/] *)
Definition left_re : regex :=
  literal "left" ++ [EndOfInput; EndOfInput; EndOfInput; EndOfInput].

(** [/right$$$$/] *)
Definition right_re : regex :=
  literal "right" ++ [EndOfInput; EndOfInput; EndOfInput; EndOfInput].

End Regex.

(** ** The maze and the agent *)

Inductive TileType : Type := EMPTY | WALL | GOAL.

Inductive Direction : Type := NORTH | EAST | SOUTH | WEST.

(** The numeric values of the enum. *)
Definition Direction_to_Z (d : Direction) : Z :=
  match d with NORTH => 0 | EAST => 1 | SOUTH => 2 | WEST => 3 end.

Definition Direction_of_Z (z : Z) : Direction :=
  if z =? 0 then NORTH else if z =? 1 then EAST else if z =? 2 then SOUTH else WEST.

Record Agent : Type := mkAgent {
  row : Z;
  col : Z;
  direction : Direction;
  totalSteps : Z
}.

Record Position : Type := mkPosition { pos_row : Z; pos_col : Z }.

Record GameState : Type := mkGameState {
  maze : list (list TileType);
  agent : Agent;
  goalPos : Position;
  output : list string;
  isComplete : bool
}.


(** Reading and writing a cell of a grid stored as an array of rows.  A read
    outside the stored cells is JavaScript's [undefined], here [None]. *)
Definition tileAt (m : list (list TileType)) (r c : Z) : option TileType :=
  if (r <? 0) || (c <? 0) then None
  else match nth_error m (Z.to_nat r) with
       | Some cells => nth_error cells (Z.to_nat c)
       | None => None
       end.

Fixpoint updateNth {A : Type} (n : nat) (f : A -> A) (l : list A) : list A :=
  match l, n with
  | [], _ => []
  | x :: l', O => f x :: l'
  | x :: l', S n' => x :: updateNth n' f l'
  end.

Definition setTile (m : list (list TileType)) (r c : nat) (t : TileType)
  : list (list TileType) :=
  updateNth r (updateNth c (fun _ => t)) m.

(** ** [createLevelMaze] *)

Record LevelData : Type := mkLevelData {
  level_maze : list (list TileType);
  startPos : Position;
  level_goalPos : Position;
  optimal : Z
}.

Definition level_size : nat := 15.

Definition setWalls (cells : list (nat * nat)) (m : list (list TileType))
  : list (list TileType) :=
  fold_left (fun acc rc => setTile acc (fst rc) (snd rc) WALL) cells m.

Definition borderWalls (m : list (list TileType)) : list (list TileType) :=
  fold_left
    (fun acc i =>
       setTile (setTile (setTile (setTile acc 0 i WALL) (level_size - 1) i WALL)
                  i 0 WALL) i (level_size - 1) WALL)
    (seq 0 level_size) m.

Definition level3_walls : list (nat * nat) :=
  [(3, 3); (3, 4); (3, 5); (3, 9); (3, 10); (3, 11);
   (5, 7); (6, 7); (7, 7); (8, 7); (9, 7);
   (7, 3); (7, 4); (7, 5); (7, 9); (7, 10); (7, 11);
   (11, 5); (11, 6); (11, 7); (11, 8); (11, 9)]%nat.

Definition createLevelMaze (levelId : Z) : LevelData :=
  let m0 := borderWalls (repeat (repeat EMPTY level_size) level_size) in
  let start := mkPosition 1 1 in
  let goal := mkPosition 13 13 in
  let '(m1, opt) :=
    if levelId =? 1 then
      (setWalls (map (fun i => (i, 10%nat)) (seq 9 4))
         (setWalls (map (fun i => (8%nat, i)) (seq 6 7))
            (setWalls (map (fun i => (i, 5%nat)) (seq 2 6)) m0)), 28)
    else if levelId =? 2 then
      (setWalls (list_prod [2; 5; 8; 11]%nat [2; 5; 8; 11]%nat) m0, 26)
    else
      (setWalls
         (filter (fun rc => (fst rc <? level_size)%nat && (snd rc <? level_size)%nat)
            level3_walls) m0, 30) in
  mkLevelData
    (setTile m1 (Z.to_nat (pos_row goal)) (Z.to_nat (pos_col goal)) GOAL)
    start goal opt.

(** The game state a run starts from ([resetState] in [GameInterface]). *)
Definition resetState (levelData : LevelData) : GameState :=
  mkGameState (level_maze levelData)
    (mkAgent (pos_row (startPos levelData)) (pos_col (startPos levelData)) EAST 0)
    (level_goalPos levelData) [] false.

(** ** [CodeExecutor] *)

Module CodeExecutor.
Import JsString Regex.

Definition maxSteps : Z := 100.

(** One iteration of the loop over the lines of the script. *)
Definition parseLine (commands : list string) (line : jsstring) : list string :=
  let trimmed := trim line in
  if truthy trimmed && negb (startsWith trimmed (units "#")) then
    match regex_match forward_re trimmed with
    | Some groups =>
        let steps := parseInt (nth 0 groups []) in
        commands ++ repeat "forward"%string (N.to_nat steps)
    | None =>
        match regex_match left_re trimmed with
        | Some _ => commands ++ ["left"%string]
        | None =>
            match regex_match right_re trimmed with
            | Some _ => commands ++ ["right"%string]
            | None => commands
            end
        end
    end
  else commands.

Definition parseCode (code : jsstring) : list string :=
  fold_left parseLine (split 10%N code) [].

Record CommandResult : Type := mkCommandResult {
  cmd_success : bool;
  error : option string
}.

Definition deltas : list (Z * Z) := [(-1, 0); (0, 1); (1, 0); (0, -1)].

Definition getForwardPosition (gs : GameState) : Position :=
  let a := agent gs in
  let '(dr, dc) := nth (Z.to_nat (Direction_to_Z (direction a))) deltas (0, 0) in
  mkPosition (row a + dr) (col a + dc).

Definition isValidPosition (gs : GameState) (r c : Z) : bool :=
  (0 <=? r) && (r <? Z.of_nat (length (maze gs))) && (0 <=? c)
  && (c <? Z.of_nat (length (nth 0 (maze gs) []))).

Definition isAtGoal (gs : GameState) : bool :=
  (row (agent gs) =? pos_row (goalPos gs)) && (col (agent gs) =? pos_col (goalPos gs)).

Definition isWall (t : option TileType) : bool :=
  match t with Some WALL => true | _ => false end.

Definition setAgent (gs : GameState) (a : Agent) : GameState :=
  mkGameState (maze gs) a (goalPos gs) (output gs) (isComplete gs).

Definition pushOutput (gs : GameState) (line : string) : GameState :=
  mkGameState (maze gs) (agent gs) (goalPos gs) (output gs ++ [line]) (isComplete gs).

Definition setComplete (gs : GameState) (b : bool) : GameState :=
  mkGameState (maze gs) (agent gs) (goalPos gs) (output gs) b.

(** [executeCommand] mutates the agent of the game state; the new state is
    returned beside the result. *)
Definition executeCommand (command : string) (gs : GameState)
  : CommandResult * GameState :=
  let a := agent gs in
  if String.eqb command "forward" then
    let newPos := getForwardPosition gs in
    if negb (isValidPosition gs (pos_row newPos) (pos_col newPos)) then
      (mkCommandResult false (Some "Hit boundary!"%string), gs)
    else if isWall (tileAt (maze gs) (pos_row newPos) (pos_col newPos)) then
      (mkCommandResult false (Some "Hit wall!"%string), gs)
    else
      (mkCommandResult true None,
       setAgent gs (mkAgent (pos_row newPos) (pos_col newPos) (direction a)
                      (totalSteps a + 1)))
  else if String.eqb command "left" then
    (mkCommandResult true None,
     setAgent gs (mkAgent (row a) (col a)
                    (Direction_of_Z ((Direction_to_Z (direction a) + 3) mod 4))
                    (totalSteps a)))
  else if String.eqb command "right" then
    (mkCommandResult true None,
     setAgent gs (mkAgent (row a) (col a)
                    (Direction_of_Z ((Direction_to_Z (direction a) + 1) mod 4))
                    (totalSteps a)))
  else
    (mkCommandResult false (Some ("Unknown command: " ++ command)%string), gs).

Record ExecutionResult : Type := mkExecutionResult {
  success : bool;
  steps : Z;
  result_output : list string
}.

Definition finish (ok : bool) (gs : GameState) : ExecutionResult * GameState :=
  (mkExecutionResult ok (totalSteps (agent gs)) (output gs), gs).

(** What one iteration of the [for (const command of this.commands)] loop
    does: it returns from [executeCode], or goes on with the next command. *)
Inductive Iteration : Type :=
| Returns (r : ExecutionResult * GameState)
| Continues (gs : GameState).

Definition iteration (command : string) (gs : GameState) : Iteration :=
  if maxSteps <=? totalSteps (agent gs) then
    Returns (finish false (pushOutput gs "❌ Maximum steps exceeded!"))
  else
    let '(result, gs1) := executeCommand command gs in
    if negb (cmd_success result) then
      Returns (finish false
                 (pushOutput gs1 ("❌ " ++ match error result with
                                           | Some e => e
                                           | None => "undefined"
                                           end)))
    else if isAtGoal gs1 then
      Returns (finish true (pushOutput (setComplete gs1 true) "✅ Goal reached!"))
    else Continues gs1.

(** The loop, and what follows it when every command has been executed. *)
Fixpoint executeLoop (commands : list string) (gs : GameState)
  : ExecutionResult * GameState :=
  match commands with
  | command :: rest =>
      match iteration command gs with
      | Returns r => r
      | Continues gs1 => executeLoop rest gs1
      end
  | [] =>
      if negb (isAtGoal gs) then
        finish false (pushOutput gs "❌ Code completed but goal not reached")
      else finish true gs
  end.

Definition executeCode (code : jsstring) (gs : GameState)
  : ExecutionResult * GameState :=
  let commands := parseCode code in
  let gs0 := mkGameState (maze gs) (agent gs) (goalPos gs) [] false in
  executeLoop commands gs0.

(** The game states the loop passes through: the state after each command that
    [executeCommand] was called on. *)
Fixpoint visited (commands : list string) (gs : GameState) : list GameState :=
  match commands with
  | command :: rest =>
      if maxSteps <=? totalSteps (agent gs) then []
      else
        let gs1 := snd (executeCommand command gs) in
        gs1 :: match iteration command gs with
               | Returns _ => []
               | Continues gs2 => visited rest gs2
               end
  | [] => []
  end.

(** The loop runs through all of [commands] without returning, and leaves the
    game state [gs']. *)
Fixpoint runsThrough (commands : list string) (gs : GameState) : option GameState :=
  match commands with
  | command :: rest =>
      match iteration command gs with
      | Returns _ => None
      | Continues gs1 => runsThrough rest gs1
      end
  | [] => Some gs
  end.

End CodeExecutor.

Definition rectangular (m : list (list TileType)) : Prop :=
  forall cells, In cells m -> length cells = length (nth 0 m []).

(** ** The algorithm visualizer *)

Module Visualizer.

Inductive AlgorithmType : Type := dijkstra | astar | bfs | dfs.

Inductive NodeState : Type := wall | empty | start | goal | exploring | explored | path.

Definition NodeState_eqb (a b : NodeState) : bool :=
  match a, b with
  | wall, wall | empty, empty | start, start | goal, goal
  | exploring, exploring | explored, explored | path, path => true
  | _, _ => false
  end.

(** The numbers held by [distance] and [fScore]: an integer or
    [Number.POSITIVE_INFINITY]. *)
Inductive num : Type := Fin (z : Z) | PosInf.

Definition num_ltb (a b : num) : bool :=
  match a, b with
  | Fin a', Fin b' => a' <? b'
  | Fin _, PosInf => true
  | PosInf, _ => false
  end.

Definition num_add (a : num) (k : Z) : num :=
  match a with Fin a' => Fin (a' + k) | PosInf => PosInf end.

(** The sign of [a - b] as [Array.prototype.sort] reads it; the difference of
    two infinities is [NaN], which [sort] takes for 0. *)
Definition compareNum (a b : num) : comparison :=
  match a, b with
  | Fin a', Fin b' => a' ?= b'
  | Fin _, PosInf => Lt
  | PosInf, Fin _ => Gt
  | PosInf, PosInf => Eq
  end.

(** A node object is referred to by its place in the grid: [(x, y)] stands for
    the object [newGrid[y][x]]. *)
Definition ref : Type := (Z * Z)%type.

Definition ref_eqb (a b : ref) : bool := (fst a =? fst b) && (snd a =? snd b).

Module Node.
Record t : Type := mk {
  x : Z;
  y : Z;
  state : NodeState;
  distance : num;
  heuristic : Z;
  fScore : num;
  parent : option ref
}.
End Node.

Record AlgorithmStats : Type := mkStats {
  nodesExplored : Z;
  pathLength : Z;
  executionTime : Z;
  optimalPath : bool;
  efficiency : Z
}.

Definition GRID_SIZE : Z := 20.

Definition Grid : Type := list (list Node.t).

Definition blank : Node.t := Node.mk 0 0 empty PosInf 0 PosInf None.

(** [grid[y][x]]; every read of the code is inside the grid when the grid has
    [GRID_SIZE] rows of [GRID_SIZE] nodes. *)
Definition nodeAt (grid : Grid) (r : ref) : Node.t :=
  nth (Z.to_nat (fst r)) (nth (Z.to_nat (snd r)) grid []) blank.

(** A write to fields of the node object [r]. *)
Definition update (grid : Grid) (r : ref) (f : Node.t -> Node.t) : Grid :=
  updateNth (Z.to_nat (snd r)) (updateNth (Z.to_nat (fst r)) f) grid.

Definition setState (s : NodeState) (n : Node.t) : Node.t :=
  Node.mk (Node.x n) (Node.y n) s (Node.distance n) (Node.heuristic n)
    (Node.fScore n) (Node.parent n).

Definition setDistance (d : num) (n : Node.t) : Node.t :=
  Node.mk (Node.x n) (Node.y n) (Node.state n) d (Node.heuristic n)
    (Node.fScore n) (Node.parent n).

Definition setParent (p : option ref) (n : Node.t) : Node.t :=
  Node.mk (Node.x n) (Node.y n) (Node.state n) (Node.distance n) (Node.heuristic n)
    (Node.fScore n) p.

Definition setHeuristic (h : Z) (n : Node.t) : Node.t :=
  Node.mk (Node.x n) (Node.y n) (Node.state n) (Node.distance n) h
    (Node.fScore n) (Node.parent n).

Definition setFScore (f : num) (n : Node.t) : Node.t :=
  Node.mk (Node.x n) (Node.y n) (Node.state n) (Node.distance n) (Node.heuristic n)
    f (Node.parent n).

(** [initializeGrid]; [rnd x y] tells whether [Math.random() < 0.25] held when
    the cell [(x, y)] was made. *)
Definition initializeGrid (rnd : Z -> Z -> bool) : Grid :=
  map (fun y =>
         map (fun x =>
                let s0 :=
                  if rnd x y && negb ((x =? 1) && (y =? 1))
                     && negb ((x =? GRID_SIZE - 2) && (y =? GRID_SIZE - 2))
                  then wall else empty in
                let s1 := if (x =? 1) && (y =? 1) then start else s0 in
                let s2 :=
                  if (x =? GRID_SIZE - 2) && (y =? GRID_SIZE - 2) then goal else s1 in
                Node.mk x y s2 PosInf 0 PosInf None)
           (map Z.of_nat (seq 0 (Z.to_nat GRID_SIZE))))
    (map Z.of_nat (seq 0 (Z.to_nat GRID_SIZE))).

Definition calculateHeuristic (node goalNode : Node.t) : Z :=
  Z.abs (Node.x node - Node.x goalNode) + Z.abs (Node.y node - Node.y goalNode).

Definition directions : list (Z * Z) := [(-1, 0); (1, 0); (0, -1); (0, 1)].

Definition getNeighbors (node : Node.t) (grid : Grid) : list ref :=
  flat_map
    (fun d : Z * Z =>
       let newX := Node.x node + fst d in
       let newY := Node.y node + snd d in
       if (0 <=? newX) && (newX <? GRID_SIZE) && (0 <=? newY) && (newY <? GRID_SIZE)
       then
         if negb (NodeState_eqb (Node.state (nodeAt grid (newX, newY))) wall)
         then [(newX, newY)]
         else []
       else [])
    directions.

(** The reset at the start of [runAlgorithm]. *)
Definition resetNode (node : Node.t) : Node.t :=
  Node.mk (Node.x node) (Node.y node)
    (match Node.state node with
     | exploring | explored | path => empty
     | s => s
     end)
    (if NodeState_eqb (Node.state node) start then Fin 0 else PosInf)
    (Node.heuristic node) PosInf None.

Definition resetGridStates (grid : Grid) : Grid := map (map resetNode) grid.

Definition startRef : ref := (1, 1).

Definition goalRef : ref := (GRID_SIZE - 2, GRID_SIZE - 2).

(** The comparison function given to [openSet.sort]. *)
Definition comparator (algorithm : AlgorithmType) (grid : Grid) (a b : ref) : comparison :=
  match algorithm with
  | astar => compareNum (Node.fScore (nodeAt grid a)) (Node.fScore (nodeAt grid b))
  | _ => compareNum (Node.distance (nodeAt grid a)) (Node.distance (nodeAt grid b))
  end.

(** [Array.prototype.sort] is a stable sort. *)
Fixpoint insertSorted (cmp : ref -> ref -> comparison) (a : ref) (l : list ref)
  : list ref :=
  match l with
  | [] => [a]
  | b :: l' =>
      match cmp a b with
      | Gt => b :: insertSorted cmp a l'
      | _ => a :: b :: l'
      end
  end.

Definition sort (cmp : ref -> ref -> comparison) (l : list ref) : list ref :=
  fold_right (insertSorted cmp) [] l.

Definition includes (l : list ref) (r : ref) : bool := existsb (ref_eqb r) l.

(** [closedSet.add] *)
Definition add (r : ref) (s : list ref) : list ref :=
  if includes s r then s else r :: s.

Definition isEndpoint (n : Node.t) : bool :=
  NodeState_eqb (Node.state n) start || NodeState_eqb (Node.state n) goal.

Definition mark (s : NodeState) (grid : Grid) (r : ref) : Grid :=
  if negb (isEndpoint (nodeAt grid r)) then update grid r (setState s) else grid.

(** The body of [for (const neighbor of neighbors)]; it works on the grid and
    on the open set. *)
Definition relax (algorithm : AlgorithmType) (current : ref) (closedSet : list ref)
    (acc : Grid * list ref) (neighbor : ref) : Grid * list ref :=
  let '(grid, openSet) := acc in
  if includes closedSet neighbor then acc
  else
    let tentativeDistance := num_add (Node.distance (nodeAt grid current)) 1 in
    if num_ltb tentativeDistance (Node.distance (nodeAt grid neighbor)) then
      let g1 := update grid neighbor (setDistance tentativeDistance) in
      let g2 := update g1 neighbor (setParent (Some current)) in
      let g3 :=
        match algorithm with
        | astar =>
            let g' :=
              update g2 neighbor
                (setHeuristic
                   (calculateHeuristic (nodeAt g2 neighbor) (nodeAt g2 goalRef))) in
            update g' neighbor
              (fun n => setFScore (num_add (Node.distance n) (Node.heuristic n)) n)
        | _ => g2
        end in
      (g3, if negb (includes openSet neighbor) then openSet ++ [neighbor] else openSet)
    else acc.

Record SearchState : Type := mkSearch {
  newGrid : Grid;
  openSet : list ref;
  closedSet : list ref;
  explored_count : Z;   (* the local variable [nodesExplored] *)
  pathFound : bool
}.

(** The body of the [while] loop, entered with a non-empty open set. *)
Definition iteration (algorithm : AlgorithmType) (st : SearchState) : SearchState :=
  match sort (comparator algorithm (newGrid st)) (openSet st) with
  | [] => st
  | current :: rest =>
      let closed := add current (closedSet st) in
      if ref_eqb current goalRef then
        mkSearch (newGrid st) rest closed (explored_count st) true
      else
        let g1 := mark exploring (newGrid st) current in
        let neighbors := getNeighbors (nodeAt g1 current) g1 in
        let '(g2, open2) := fold_left (relax algorithm current closed) neighbors (g1, rest) in
        mkSearch (mark explored g2 current) open2 closed (explored_count st + 1) false
  end.

(** [while (openSet.length > 0 && !pathFound)], run for at most [fuel]
    iterations; [None] when they do not suffice. *)
Fixpoint searchLoop (fuel : nat) (algorithm : AlgorithmType) (st : SearchState)
  : option SearchState :=
  match openSet st, pathFound st with
  | _ :: _, false =>
      match fuel with
      | O => None
      | S fuel' => searchLoop fuel' algorithm (iteration algorithm st)
      end
  | _, _ => Some st
  end.

(** The state the loop is entered with. *)
Definition initialSearch (algorithm : AlgorithmType) (grid : Grid) : SearchState :=
  let g1 := update grid startRef (setDistance (Fin 0)) in
  let g2 :=
    match algorithm with
    | astar =>
        let g' :=
          update g1 startRef
            (setHeuristic (calculateHeuristic (nodeAt g1 startRef) (nodeAt g1 goalRef))) in
        update g' startRef (fun n => setFScore (Fin (Node.heuristic n)) n)
    | _ => g1
    end in
  mkSearch g2 [startRef] [] 0 false.

(** [while (current !== null)] of the path reconstruction, for at most [fuel]
    iterations. *)
Fixpoint reconstruct (fuel : nat) (grid : Grid) (current : option ref)
    (pathNodes : list ref) : option (Grid * list ref) :=
  match current with
  | None => Some (grid, pathNodes)
  | Some c =>
      match fuel with
      | O => None
      | S fuel' =>
          let g1 := mark path grid c in
          reconstruct fuel' g1 (Node.parent (nodeAt g1 c)) (c :: pathNodes)
      end
  end.

(** What [runAlgorithm] takes from its host: the milliseconds between the two
    readings of [Date.now()], and the floating-point value
    [Math.round(Math.max(0, 100 - (nodesExplored / (GRID_SIZE * GRID_SIZE)) * 100))]
    as a function of [nodesExplored]. *)
Record Host : Type := mkHost {
  elapsed : Z;
  roundedEfficiency : Z -> Z
}.

Definition searchFuel : nat := S (Z.to_nat (GRID_SIZE * GRID_SIZE)).

Definition pathFuel : nat := Z.to_nat (GRID_SIZE * GRID_SIZE).

(** The search of [runAlgorithm] for [dijkstra] and [astar]: reset, then the
    loop. *)
Definition search (algorithm : AlgorithmType) (grid : Grid) : option SearchState :=
  searchLoop searchFuel algorithm (initialSearch algorithm (resetGridStates grid)).

(** The path reconstruction that follows a successful search. *)
Definition reconstructPath (st : SearchState) : option (Grid * list ref) :=
  reconstruct pathFuel (newGrid st) (Some goalRef) [].

(** [runAlgorithm] on the component state [grid], [stats]: the grid and the
    statistics it leaves.  The timers and the intermediate renderings are left
    out; [None] stands for a loop that outruns its fuel. *)
Definition runAlgorithm (host : Host) (selectedAlgorithm : AlgorithmType)
    (grid : Grid) (stats : AlgorithmStats) : option (Grid * AlgorithmStats) :=
  match grid with
  | [] => Some (grid, stats)
  | _ :: _ =>
      match selectedAlgorithm with
      | dijkstra | astar =>
          match search selectedAlgorithm grid with
          | None => None
          | Some st =>
              let live :=
                if 0 <? explored_count st then
                  mkStats (explored_count st) (pathLength stats) (executionTime stats)
                    (optimalPath stats) (efficiency stats)
                else stats in
              if pathFound st then
                match reconstructPath st with
                | None => None
                | Some (finalGrid, pathNodes) =>
                    let len := Z.of_nat (List.length pathNodes) - 1 in
                    Some (finalGrid,
                          mkStats (explored_count st) len (elapsed host) (len <=? 35)
                            (roundedEfficiency host (explored_count st)))
                end
              else Some (newGrid st, live)
          end
      | _ => Some (grid, stats)
      end
  end.

(** [resetGrid]: fresh statistics and a fresh grid. *)
Definition zeroStats : AlgorithmStats := mkStats 0 0 0 false 0.

Definition resetGrid (rnd : Z -> Z -> bool) : Grid * AlgorithmStats :=
  (initializeGrid rnd, zeroStats).

(** *** What the properties of the search are stated with *)

Definition inGrid (r : ref) : Prop :=
  0 <= fst r < GRID_SIZE /\ 0 <= snd r < GRID_SIZE.

Definition inGridb (r : ref) : bool :=
  (0 <=? fst r) && (fst r <? GRID_SIZE) && (0 <=? snd r) && (snd r <? GRID_SIZE).

(** Two cells next to each other, in a row or in a column. *)
Definition adjacent (u v : ref) : Prop :=
  Z.abs (fst u - fst v) + Z.abs (snd u - snd v) = 1.

Definition adjacentb (u v : ref) : bool :=
  Z.abs (fst u - fst v) + Z.abs (snd u - snd v) =? 1.

(** A cell of the grid that the search may step on. *)
Definition passable (grid : Grid) (v : ref) : Prop :=
  inGrid v /\ Node.state (nodeAt grid v) <> wall.

Definition passableb (grid : Grid) (v : ref) : bool :=
  inGridb v && negb (NodeState_eqb (Node.state (nodeAt grid v)) wall).

(** [cells] continues a walk that stands on [u]: each cell is next to the one
    before it and passable. *)
Fixpoint walk (grid : Grid) (u : ref) (cells : list ref) : bool :=
  match cells with
  | [] => true
  | v :: cells' => adjacentb u v && passableb grid v && walk grid v cells'
  end.

(** [cells] is a path of the grid from the start cell to [target]. *)
Definition isPathTo (grid : Grid) (target : ref) (cells : list ref) : bool :=
  match cells with
  | [] => false
  | s :: cells' =>
      ref_eqb s startRef && walk grid s cells' && ref_eqb (last cells' s) target
  end.

(** The number of edges of a path. *)
Definition edges (cells : list ref) : Z := Z.of_nat (List.length cells) - 1.

(** The grids [runAlgorithm] is given: [GRID_SIZE] rows of [GRID_SIZE] nodes,
    each node with its own coordinates, the start label on [startRef] only and
    the goal label on [goalRef] only. *)
Record wellFormed (grid : Grid) : Prop := mkWellFormed {
  wf_rows : List.length grid = Z.to_nat GRID_SIZE;
  wf_cols : Forall (fun cells => List.length cells = Z.to_nat GRID_SIZE) grid;
  wf_x : forall r, inGrid r -> Node.x (nodeAt grid r) = fst r;
  wf_y : forall r, inGrid r -> Node.y (nodeAt grid r) = snd r;
  wf_start : forall r, inGrid r -> (Node.state (nodeAt grid r) = start <-> r = startRef);
  wf_goal : forall r, inGrid r -> (Node.state (nodeAt grid r) = goal <-> r = goalRef)
}.

(** The parent links of [grid] lead from [v] back to a node without parent,
    through the nodes [cells] (first the node without parent, last [v]). *)
Inductive parentChain (grid : Grid) : ref -> list ref -> Prop :=
| chain_root (v : ref) :
    Node.parent (nodeAt grid v) = None -> parentChain grid v [v]
| chain_link (v u : ref) (cells : list ref) :
    Node.parent (nodeAt grid v) = Some u ->
    parentChain grid u cells ->
    parentChain grid v (cells ++ [v]).

End Visualizer.

(** ** What the proofs about the search are stated with *)

Module SearchInvariant.
Import Visualizer.

(** The grid has [GRID_SIZE] rows of [GRID_SIZE] nodes. *)
Definition shaped (g : Grid) : Prop :=
  List.length g = Z.to_nat GRID_SIZE
  /\ Forall (fun cells => List.length cells = Z.to_nat GRID_SIZE) g.

(** A walk of [k] steps from the start cell to [v], over passable cells. *)
Inductive reach (g0 : Grid) : ref -> Z -> Prop :=
| reach_start : reach g0 startRef 0
| reach_step (u v : ref) (k : Z) :
    reach g0 u k -> adjacent u v -> passable g0 v -> reach g0 v (k + 1).

(** The Manhattan distance to the goal cell. *)
Definition hfun (v : ref) : Z :=
  Z.abs (fst v - fst goalRef) + Z.abs (snd v - snd goalRef).

(** The [distance] field of the node [v]. *)
Definition dist (g : Grid) (v : ref) : num := Node.distance (nodeAt g v).

(** What holds of the grid, the open set and the closed set all through the
    search of the grid [g0]. *)
Record Base (g0 : Grid) (algorithm : AlgorithmType) (g : Grid) (op cl : list ref)
  : Prop := mkBase {
  b_shaped : shaped g;
  b_x : forall r, inGrid r -> Node.x (nodeAt g r) = fst r;
  b_y : forall r, inGrid r -> Node.y (nodeAt g r) = snd r;
  b_wall : forall r, inGrid r ->
      (Node.state (nodeAt g r) = wall <-> Node.state (nodeAt g0 r) = wall);
  b_start : forall r, inGrid r -> (Node.state (nodeAt g r) = start <-> r = startRef);
  b_goal : forall r, inGrid r -> (Node.state (nodeAt g r) = goal <-> r = goalRef);
  b_open_nodup : NoDup op;
  b_open : forall v,
      In v op <-> inGrid v /\ (exists d, dist g v = Fin d) /\ ~ In v cl;
  b_closed_nodup : NoDup cl;
  b_closed : forall v, In v cl -> inGrid v /\ exists d, dist g v = Fin d;
  b_sound : forall v d, inGrid v -> dist g v = Fin d -> reach g0 v d;
  b_exact : forall v d k, In v cl -> dist g v = Fin d -> reach g0 v k -> d <= k;
  b_parent : forall v d, inGrid v -> dist g v = Fin d ->
      (v = startRef /\ d = 0 /\ Node.parent (nodeAt g v) = None)
      \/ (v <> startRef
          /\ exists u, Node.parent (nodeAt g v) = Some u /\ In u cl
                       /\ adjacent u v /\ dist g u = Fin (d - 1));
  b_fscore : algorithm = astar ->
      forall v d, In v op -> dist g v = Fin d ->
                  Node.fScore (nodeAt g v) = Fin (d + hfun v);
  b_bound : forall v d, inGrid v -> dist g v = Fin d -> d <= Z.of_nat (List.length cl);
  b_bound_closed : forall v d, In v cl -> dist g v = Fin d ->
                               d < Z.of_nat (List.length cl)
}.

(** Every closed node but the goal has been expanded: its passable neighbours
    are at most one step further. *)
Definition Relaxed (g0 g : Grid) (cl : list ref) : Prop :=
  forall u v, In u cl -> u <> goalRef -> adjacent u v -> passable g0 v ->
              exists du dv, dist g u = Fin du /\ dist g v = Fin dv /\ dv <= du + 1.

(** The invariant of the [while] loop. *)
Record Inv (g0 : Grid) (algorithm : AlgorithmType) (st : SearchState) : Prop := mkInv {
  inv_base : Base g0 algorithm (newGrid st) (openSet st) (closedSet st);
  inv_relaxed : Relaxed g0 (newGrid st) (closedSet st);
  inv_start : In startRef (closedSet st) \/ openSet st = [startRef];
  inv_goal : if pathFound st then In goalRef (closedSet st)
             else ~ In goalRef (closedSet st)
}.

(** Two grids that differ in the states of their nodes only, walls and the
    start and goal labels apart. *)
Definition sameButStates (g g' : Grid) : Prop :=
  shaped g'
  /\ forall v, inGrid v ->
       Node.x (nodeAt g' v) = Node.x (nodeAt g v)
       /\ Node.y (nodeAt g' v) = Node.y (nodeAt g v)
       /\ Node.distance (nodeAt g' v) = Node.distance (nodeAt g v)
       /\ Node.fScore (nodeAt g' v) = Node.fScore (nodeAt g v)
       /\ Node.parent (nodeAt g' v) = Node.parent (nodeAt g v)
       /\ (Node.state (nodeAt g' v) = wall <-> Node.state (nodeAt g v) = wall)
       /\ (Node.state (nodeAt g' v) = start <-> Node.state (nodeAt g v) = start)
       /\ (Node.state (nodeAt g' v) = goal <-> Node.state (nodeAt g v) = goal).

(** Distances only go down, and those of closed nodes stay. *)
Definition Mono (cl : list ref) (g g' : Grid) : Prop :=
  forall v, inGrid v ->
    (In v cl -> dist g' v = dist g v)
    /\ (forall d, dist g v = Fin d -> exists d', dist g' v = Fin d' /\ d' <= d).

(** The cells of the grid. *)
Definition allRefs : list ref :=
  list_prod (map Z.of_nat (seq 0 (Z.to_nat GRID_SIZE)))
            (map Z.of_nat (seq 0 (Z.to_nat GRID_SIZE))).

(** Two grids with the same walls. *)
Definition sameWalls (g g' : Grid) : Prop :=
  forall v, inGrid v ->
            (Node.state (nodeAt g' v) = wall <-> Node.state (nodeAt g v) = wall).

(** [a] may stand before [b] in an array sorted with [cmp]. *)
Definition notAfter (cmp : ref -> ref -> comparison) (a b : ref) : Prop :=
  cmp a b <> Gt.

(** What holds between two neighbours of [current] while it is expanded. *)
Definition Mid (g0 : Grid) (algorithm : AlgorithmType) (current : ref)
    (cl : list ref) (dc : Z) (g : Grid) (op : list ref) : Prop :=
  Base g0 algorithm g op cl /\ dist g current = Fin dc.

(** *** Sample grids *)

(** A grid with a wall at every fourth cell of every fourth row. *)
Definition sampleGrid : Grid :=
  initializeGrid (fun x y => (x mod 4 =? 3) && (y mod 4 =? 3)).

(** Along the row of the start cell, then down the column of the goal cell. *)
Definition cornerPath : list ref :=
  map (fun i => (Z.of_nat i, 1)) (seq 1 18) ++ map (fun j => (18, Z.of_nat j)) (seq 2 17).

(** The draws that wall the goal cell in. *)
Definition enclosedGrid : Z -> Z -> bool :=
  fun x y => ((x =? 17) && (17 <=? y)) || ((y =? 17) && (17 <=? x)).

Definition sampleHost : Host := mkHost 12 (fun n => Z.max 0 (100 - n / 4)).

End SearchInvariant.

(** The forward target of the specification's delta table:
    North (-1,0), East (0,+1), South (+1,0), West (0,-1). *)
Definition forwardTarget (a : Agent) : Z * Z :=
  match direction a with
  | NORTH => (row a - 1, col a)
  | EAST => (row a, col a + 1)
  | SOUTH => (row a + 1, col a)
  | WEST => (row a, col a - 1)
  end.

(** The agent stands on a cell of the grid that is not a wall. *)
Definition agentOk (gs : GameState) : Prop :=
  exists t, tileAt (maze gs) (row (agent gs)) (col (agent gs)) = Some t /\ t <> WALL.

(** The game state after [n] executions of the same command. *)
Fixpoint repeatCommand (n : nat) (command : string) (gs : GameState) : GameState :=
  match n with
  | O => gs
  | S n' => repeatCommand n' command (snd (CodeExecutor.executeCommand command gs))
  end.

(** A maze of two rows and three columns. *)
Definition small_maze : list (list TileType) :=
  [[EMPTY; EMPTY; WALL]; [EMPTY; EMPTY; GOAL]].

Definition small_state : GameState :=
  mkGameState small_maze (mkAgent 0 0 EAST 0) (mkPosition 1 2) [] false.

(** A script that reaches the goal of [small_state] with its fifth command,
    and two commands queued behind it. *)
Definition to_goal_pre : list string := ["forward"; "right"; "forward"; "left"]%string.

Definition to_goal_rest : list string := ["left"; "forward"]%string.

(** Level 1 as a run starts on it. *)
Definition level1_state : GameState := resetState (createLevelMaze 1).

(** Three lines of a script in the syntax of the starter scripts:
    [forward(1)], [right()], [right()], each closed by a line break. *)
Definition pacingBlock : JsString.jsstring :=
  JsString.units "forward(1)" ++ 10%N :: JsString.units "right()"
    ++ 10%N :: JsString.units "right()" ++ [10%N].

(** The script of 101 such blocks: read as the help text of the game reads
    it, it walks the agent back and forth between two cells, one step per
    block. *)
Definition pacingScript : JsString.jsstring := concat (repeat pacingBlock 101).

(* ===================================================================== *)
(** * Further definitions: lines, levels, search states, the page *)
(* ===================================================================== *)

(** ** Lines of a script *)

(** [s] ends with [suffix]. *)
Definition endsWith (s suffix : JsString.jsstring) : bool :=
  JsString.startsWith (rev s) (rev suffix).

(** The command a line of the script stands for, read without the regular
    expressions: the trimmed line is not empty, is no comment, and ends with
    the word [left] or [right]. *)
Definition turnOfLine (line : JsString.jsstring) : option string :=
  let trimmed := JsString.trim line in
  if JsString.truthy trimmed && negb (JsString.startsWith trimmed (JsString.units "#"))
  then
    if endsWith trimmed (JsString.units "left") then Some "left"%string
    else if endsWith trimmed (JsString.units "right") then Some "right"%string
    else None
  else None.

(** The two commands that turn the agent. *)
Definition isTurn (command : string) : Prop :=
  command = "left"%string \/ command = "right"%string.

(** The four end-of-input assertions that close [left_re] and [right_re]. *)
Definition eoi4 : Regex.regex :=
  [Regex.EndOfInput; Regex.EndOfInput; Regex.EndOfInput; Regex.EndOfInput].

(** ** Results of scripts, level mazes *)

(** What [executeCode] returns for a script, by the number of steps and the
    place of the agent it starts with. *)
Definition scriptOutcome (commands : list string) (gs : GameState)
  : CodeExecutor.ExecutionResult :=
  let n := totalSteps (agent gs) in
  match commands with
  | [] =>
      if CodeExecutor.isAtGoal gs then CodeExecutor.mkExecutionResult true n []
      else CodeExecutor.mkExecutionResult false n
             ["❌ Code completed but goal not reached"%string]
  | _ :: _ =>
      if CodeExecutor.maxSteps <=? n then
        CodeExecutor.mkExecutionResult false n ["❌ Maximum steps exceeded!"%string]
      else if CodeExecutor.isAtGoal gs then
        CodeExecutor.mkExecutionResult true n ["✅ Goal reached!"%string]
      else CodeExecutor.mkExecutionResult false n
             ["❌ Code completed but goal not reached"%string]
  end.

(** The agent is inside the border of a level maze. *)
Definition insideBorder (gs : GameState) : Prop :=
  1 <= row (agent gs) <= 13 /\ 1 <= col (agent gs) <= 13.

(** A maze of [level_size] rows and columns whose border cells are walls, with
    an empty cell at [(1, 1)] and the goal at [(13, 13)]. *)
Definition levelShaped (m : list (list TileType)) : bool :=
  (List.length m =? level_size)%nat
  && forallb (fun cells => (List.length cells =? level_size)%nat) m
  && forallb
       (fun i =>
          match tileAt m 0 i, tileAt m 14 i, tileAt m i 0, tileAt m i 14 with
          | Some WALL, Some WALL, Some WALL, Some WALL => true
          | _, _, _, _ => false
          end)
       (map Z.of_nat (seq 0 level_size))
  && match tileAt m 1 1, tileAt m 13 13 with
     | Some EMPTY, Some GOAL => true
     | _, _ => false
     end.

(** ** The handlers of the game screen *)

Module GameInterface.

(** The [stats] state variable of the game screen. *)
Record Stats : Type := mkStats {
  stats_steps : Z;
  stats_optimal : Z;
  stats_efficiency : string
}.

Definition initialStats (levelData : LevelData) : Stats :=
  mkStats 0 (optimal levelData) "Ready".

(** The [executeCode] handler: the game state and the statistics it sets once
    the executor has returned.  [withinFifth steps optimal] stands for the
    floating-point comparison [steps <= optimal * 1.2]. *)
Definition executeCode (withinFifth : Z -> Z -> bool) (levelData : LevelData)
    (code : JsString.jsstring) (prev : Stats) : GameState * Stats :=
  let '(result, gs) := CodeExecutor.executeCode code (resetState levelData) in
  (gs,
   mkStats (CodeExecutor.steps result) (stats_optimal prev)
     (if CodeExecutor.success result then
        if CodeExecutor.steps result <=? optimal levelData then "Optimal"
        else if withinFifth (CodeExecutor.steps result) (optimal levelData) then "Good"
        else "Poor"
      else "Failed")).

(** The [resetLevel] handler. *)
Definition resetLevel (levelData : LevelData) (prev : Stats) : GameState * Stats :=
  (resetState levelData, mkStats 0 (stats_optimal prev) "Ready").

End GameInterface.

(** ** States of the search *)

Module SearchMore.
Import Visualizer SearchInvariant.

(** The state a node is in between two iterations of the search of [grid]:
    [explored] once it is closed, unless it carries the start or the goal
    label, and the state the reset gave it before. *)
Definition expectedState (grid : Grid) (cl : list ref) (v : ref) : NodeState :=
  if includes cl v && negb (isEndpoint (nodeAt grid v)) then explored
  else Node.state (resetNode (nodeAt grid v)).

(** The local [nodesExplored] counts the closed nodes, the goal apart. *)
Definition CountOk (st : SearchState) : Prop :=
  explored_count st
  = Z.of_nat (List.length (closedSet st)) - (if pathFound st then 1 else 0).

Definition StatesOk (grid : Grid) (st : SearchState) : Prop :=
  forall v, inGrid v ->
            Node.state (nodeAt (newGrid st) v) = expectedState grid (closedSet st) v.

(** In distance order, the goal is closed after every cell nearer to the
    start. *)
Definition NearerClosed (g0 : Grid) (st : SearchState) : Prop :=
  pathFound st = true ->
  forall v k d, reach g0 v k -> dist (newGrid st) goalRef = Fin d -> k < d ->
                In v (closedSet st).

(** In A* order, no closed node has a score above the length [c] of a walk to
    the goal. *)
Definition ScoreBounded (c : Z) (st : SearchState) : Prop :=
  forall v d, In v (closedSet st) -> dist (newGrid st) v = Fin d -> d + hfun v <= c.

(** A cell the run leaves drawn as visited: explored, or on the path. *)
Definition colouredb (g : Grid) (v : ref) : bool :=
  match Node.state (nodeAt g v) with
  | explored | path => true
  | _ => false
  end.

Definition colouredCells (g : Grid) : list ref := filter (colouredb g) allRefs.

Definition pathCells (g : Grid) : list ref :=
  filter (fun v => NodeState_eqb (Node.state (nodeAt g v)) path) allRefs.

(** The draws that wall the goal cell in, as a grid. *)
Definition enclosedSample : Grid := initializeGrid enclosedGrid.

End SearchMore.

(** ** The page: menu, level selection, game *)

Module MazeGame.

(** [type GameState = "menu" | "levelSelect" | "playing"] *)
Inductive Screen : Type := menu | levelSelect | playing.

(** The two state variables of the component; [None] is [null]. *)
Record State : Type := mkState {
  gameState : Screen;
  selectedLevel : option Z
}.

Definition initial : State := mkState menu None.

Definition handlePlay (s : State) : State := mkState levelSelect (selectedLevel s).

Definition handleLevelSelect (levelId : Z) (s : State) : State :=
  mkState playing (Some levelId).

Definition handleBackToMenu (s : State) : State := mkState menu None.

Definition handleBackToLevels (s : State) : State :=
  mkState levelSelect (selectedLevel s).

(** The component the page shows; [None] when no one of the three conditions
    of the JSX holds. *)
Inductive View : Type :=
| MainMenu
| LevelSelect
| GameInterface (levelId : Z).

Definition render (s : State) : option View :=
  match gameState s with
  | menu => Some MainMenu
  | levelSelect => Some LevelSelect
  | playing =>
      match selectedLevel s with
      | Some levelId => Some (GameInterface levelId)
      | None => None
      end
  end.

(** A call of one of the four handlers. *)
Inductive Call : Type :=
| Play
| SelectLevel (levelId : Z)
| BackToMenu
| BackToLevels.

Definition handle (s : State) (c : Call) : State :=
  match c with
  | Play => handlePlay s
  | SelectLevel levelId => handleLevelSelect levelId s
  | BackToMenu => handleBackToMenu s
  | BackToLevels => handleBackToLevels s
  end.

(** The level of the last [SelectLevel] that no [BackToMenu] follows. *)
Fixpoint lastSelected (calls : list Call) (level : option Z) : option Z :=
  match calls with
  | [] => level
  | SelectLevel levelId :: calls' => lastSelected calls' (Some levelId)
  | BackToMenu :: calls' => lastSelected calls' None
  | _ :: calls' => lastSelected calls' level
  end.

End MazeGame.

(** ** The code review *)

Module AICodeReview.
Import JsString.

(** [lineCount] of [analyzeCode]: the lines that are not blank and no
    comment. *)
Definition lineCount (code : jsstring) : nat :=
  List.length
    (filter (fun line => truthy (trim line) && negb (startsWith (trim line) (units "#")))
       (split 10%N code)).

End AICodeReview.

(* ===================================================================== *)
(** * Properties of the command interpreter *)
(* ===================================================================== *)

Section Parsing.
Import JsString Regex CodeExecutor.

Lemma match_here_literal_none (re : regex) :
  (forall s, match_here re s = None) ->
  forall cs s, match_here (map Chr cs ++ re) s = None.
Proof.
  intros Hre cs; induction cs as [|c cs IH]; intros s; simpl.
  - apply Hre.
  - destruct s as [|x s]; [reflexivity|].
    destruct (N.eqb x c); [apply IH | reflexivity].
Qed.

Lemma match_here_end_then_digits (re : regex) (s : jsstring) :
  match_here (EndOfInput :: EndOfInput :: DigitsGroup :: re) s = None.
Proof. destruct s; reflexivity. Qed.

Lemma forward_re_no_match_here (s : jsstring) : match_here forward_re s = None.
Proof.
  unfold forward_re, literal.
  apply match_here_literal_none; intros s'; apply match_here_end_then_digits.
Qed.

Lemma forward_re_never_matches (s : jsstring) : regex_match forward_re s = None.
Proof.
  induction s as [|c s IH]; cbn [regex_match];
    rewrite forward_re_no_match_here; [reflexivity | exact IH].
Qed.

Lemma parseLine_no_forward (commands : list string) (line : jsstring) :
  ~ In "forward"%string commands ->
  ~ In "forward"%string (parseLine commands line).
Proof.
  intros Hc; unfold parseLine.
  destruct (truthy (trim line) && negb (startsWith (trim line) (units "#"))); [|exact Hc].
  rewrite forward_re_never_matches.
  destruct (regex_match left_re (trim line)).
  - intros Hin; apply in_app_or in Hin; destruct Hin as [Hin|[Hin|[]]];
      [exact (Hc Hin) | discriminate Hin].
  - destruct (regex_match right_re (trim line)); [|exact Hc].
    intros Hin; apply in_app_or in Hin; destruct Hin as [Hin|[Hin|[]]];
      [exact (Hc Hin) | discriminate Hin].
Qed.

Lemma fold_parseLine_no_forward (lines : list jsstring) :
  forall commands,
    ~ In "forward"%string commands ->
    ~ In "forward"%string (fold_left parseLine lines commands).
Proof.
  induction lines as [|l lines IH]; intros commands Hc; simpl.
  - exact Hc.
  - apply IH, parseLine_no_forward, Hc.
Qed.

(** C10: whatever the script, [parseCode] emits no "forward" command: the
    pattern [/forward$$(\d+)$$/] asks for digits after the end of the input
    and so matches no line. *)
Theorem parseCode_never_emits_forward (code : jsstring) :
  ~ In "forward"%string (parseCode code).
Proof.
  unfold parseCode; apply fold_parseLine_no_forward; intros [].
Qed.

(** C1 (the code departs from the claim): the script [forward(5)] parses to
    the empty command list, not to five "forward" commands. *)
Theorem parseCode_forward_5 :
  parseCode (units "forward(5)") = [] /\
  parseCode (units "forward(5)") <> repeat "forward"%string 5.
Proof. split; [reflexivity | discriminate]. Qed.

End Parsing.

Section Execution.
Import CodeExecutor.

Lemma rectangular_tileAt (gs : GameState) (r c : Z) :
  rectangular (maze gs) ->
  isValidPosition gs r c = true <-> tileAt (maze gs) r c <> None.
Proof.
  intros Hrect; unfold isValidPosition, tileAt.
  destruct (Z.ltb_spec r 0) as [Hr|Hr]; simpl.
  { replace (0 <=? r) with false by (symmetry; apply Z.leb_gt; lia).
    simpl; split; [discriminate | intros H; exfalso; apply H; reflexivity]. }
  replace (0 <=? r) with true by (symmetry; apply Z.leb_le; lia); simpl.
  destruct (Z.ltb_spec c 0) as [Hc|Hc]; simpl.
  { replace (0 <=? c) with false by (symmetry; apply Z.leb_gt; lia).
    rewrite andb_false_r; simpl.
    split; [discriminate | intros H; exfalso; apply H; reflexivity]. }
  replace (0 <=? c) with true by (symmetry; apply Z.leb_le; lia).
  rewrite andb_true_r.
  destruct (nth_error (maze gs) (Z.to_nat r)) as [cells|] eqn:Hrow.
  - assert (Hlen : (Z.to_nat r < List.length (maze gs))%nat)
      by (apply nth_error_Some; rewrite Hrow; discriminate).
    replace (r <? Z.of_nat (List.length (maze gs))) with true
      by (symmetry; apply Z.ltb_lt; lia).
    simpl. rewrite <- (Hrect cells (nth_error_In _ _ Hrow)).
    rewrite nth_error_Some. rewrite Z.ltb_lt. lia.
  - apply nth_error_None in Hrow.
    replace (r <? Z.of_nat (List.length (maze gs))) with false
      by (symmetry; apply Z.ltb_ge; lia).
    simpl; split; [discriminate | intros H; exfalso; apply H; reflexivity].
Qed.

Lemma getForwardPosition_table (gs : GameState) :
  getForwardPosition gs =
  mkPosition (fst (forwardTarget (agent gs))) (snd (forwardTarget (agent gs))).
Proof.
  unfold getForwardPosition, forwardTarget.
  destruct (direction (agent gs)); simpl; f_equal; lia.
Qed.

Lemma executeCommand_forward (gs : GameState) :
  rectangular (maze gs) ->
  executeCommand "forward" gs =
  let '(r, c) := forwardTarget (agent gs) in
  match tileAt (maze gs) r c with
  | None => (mkCommandResult false (Some "Hit boundary!"%string), gs)
  | Some WALL => (mkCommandResult false (Some "Hit wall!"%string), gs)
  | Some _ =>
      (mkCommandResult true None,
       setAgent gs (mkAgent r c (direction (agent gs)) (totalSteps (agent gs) + 1)))
  end.
Proof.
  intros Hrect. unfold executeCommand. simpl String.eqb. cbv iota.
  rewrite getForwardPosition_table.
  destruct (forwardTarget (agent gs)) as [r c]; simpl fst; simpl snd.
  cbn [pos_row pos_col].
  pose proof (rectangular_tileAt gs r c Hrect) as Hv.
  destruct (tileAt (maze gs) r c) as [t|].
  - assert (Hvalid : isValidPosition gs r c = true) by (apply Hv; discriminate).
    rewrite Hvalid; simpl. destruct t; reflexivity.
  - destruct (isValidPosition gs r c); [|reflexivity].
    exfalso; apply (proj1 Hv); reflexivity.
Qed.

(** C5: on a rectangular maze a "forward" command looks at the cell given by
    the delta table; it fails with "Hit boundary!" exactly when that cell is
    outside the grid, with "Hit wall!" exactly when it is a wall, and otherwise
    moves the agent there and adds one to the step counter; a failure leaves
    the game state as it was. *)
Theorem forward_command_cases (gs : GameState) :
  rectangular (maze gs) ->
  executeCommand "forward" gs =
  let '(r, c) := forwardTarget (agent gs) in
  match tileAt (maze gs) r c with
  | None => (mkCommandResult false (Some "Hit boundary!"%string), gs)
  | Some WALL => (mkCommandResult false (Some "Hit wall!"%string), gs)
  | Some _ =>
      (mkCommandResult true None,
       setAgent gs (mkAgent r c (direction (agent gs)) (totalSteps (agent gs) + 1)))
  end.
Proof. exact (executeCommand_forward gs). Qed.

Lemma small_maze_rectangular : rectangular small_maze.
Proof. intros cells [H|[H|[]]]; subst cells; reflexivity. Qed.

Lemma forward_command_cases_witness :
  rectangular (maze small_state) /\
  executeCommand "forward" small_state
  = (mkCommandResult true None,
     mkGameState small_maze (mkAgent 0 1 EAST 1) (mkPosition 1 2) [] false).
Proof.
  split; [exact small_maze_rectangular|].
  exact (forward_command_cases small_state small_maze_rectangular).
Defined.

(** *** Turning *)




(** *** The loop of [executeCode] *)

Lemma executeCommand_maze (command : string) (gs : GameState) :
  maze (snd (executeCommand command gs)) = maze gs.
Proof.
  unfold executeCommand.
  repeat match goal with |- context [if ?b then _ else _] => destruct b end;
    reflexivity.
Qed.

Lemma executeCommand_steps (command : string) (gs : GameState) :
  totalSteps (agent (snd (executeCommand command gs))) <= totalSteps (agent gs) + 1.
Proof.
  unfold executeCommand.
  repeat match goal with |- context [if ?b then _ else _] => destruct b end;
    simpl; lia.
Qed.

Lemma executeCommand_agentOk (command : string) (gs : GameState) :
  rectangular (maze gs) -> agentOk gs -> agentOk (snd (executeCommand command gs)).
Proof.
  intros Hrect Hok.
  destruct (String.eqb command "forward") eqn:Hfwd.
  - apply String.eqb_eq in Hfwd; subst command.
    rewrite (executeCommand_forward gs Hrect).
    destruct (forwardTarget (agent gs)) as [r c].
    destruct (tileAt (maze gs) r c) as [t|] eqn:Ht; [|exact Hok].
    destruct t; simpl; try exact Hok.
    + exists EMPTY; split; [exact Ht | discriminate].
    + exists GOAL; split; [exact Ht | discriminate].
  - unfold executeCommand; rewrite Hfwd.
    destruct (String.eqb command "left"); [exact Hok|].
    destruct (String.eqb command "right"); exact Hok.
Qed.

Lemma iteration_Continues (command : string) (gs gs1 : GameState) :
  iteration command gs = Continues gs1 ->
  totalSteps (agent gs) < maxSteps
  /\ gs1 = snd (executeCommand command gs)
  /\ cmd_success (fst (executeCommand command gs)) = true
  /\ isAtGoal gs1 = false.
Proof.
  unfold iteration.
  destruct (Z.leb_spec maxSteps (totalSteps (agent gs))) as [Hmax|Hmax];
    [discriminate|].
  destruct (executeCommand command gs) as [result gs']; simpl.
  destruct (cmd_success result); simpl; [|discriminate].
  destruct (isAtGoal gs') eqn:Hgoal; [discriminate|].
  intros H; injection H as <-. auto.
Qed.

Lemma iteration_goal (command : string) (gs gs1 : GameState) :
  totalSteps (agent gs) < maxSteps ->
  executeCommand command gs = (mkCommandResult true None, gs1) ->
  isAtGoal gs1 = true ->
  iteration command gs
  = Returns (finish true (pushOutput (setComplete gs1 true) "✅ Goal reached!")).
Proof.
  intros Hmax Hcmd Hgoal. unfold iteration.
  destruct (Z.leb_spec maxSteps (totalSteps (agent gs))) as [H|H]; [lia|].
  rewrite Hcmd; simpl. rewrite Hgoal. reflexivity.
Qed.

Lemma iteration_limit (command : string) (gs : GameState) :
  maxSteps <= totalSteps (agent gs) ->
  iteration command gs
  = Returns (finish false (pushOutput gs "❌ Maximum steps exceeded!")).
Proof.
  intros Hmax. unfold iteration.
  destruct (Z.leb_spec maxSteps (totalSteps (agent gs))) as [H|H]; [reflexivity|lia].
Qed.

Lemma iteration_agentOk (command : string) (gs : GameState) :
  rectangular (maze gs) -> agentOk gs ->
  match iteration command gs with
  | Returns r => agentOk (snd r) /\ maze (snd r) = maze gs
  | Continues gs1 => agentOk gs1 /\ maze gs1 = maze gs
  end.
Proof.
  intros Hrect Hok. unfold iteration.
  destruct (maxSteps <=? totalSteps (agent gs)); [split; [exact Hok | reflexivity]|].
  pose proof (executeCommand_agentOk command gs Hrect Hok) as Hok1.
  pose proof (executeCommand_maze command gs) as Hmaze.
  destruct (executeCommand command gs) as [result gs1]; simpl in *.
  destruct (cmd_success result); simpl; [|split; assumption].
  destruct (isAtGoal gs1); split; assumption.
Qed.

Lemma runsThrough_app (pre rest : list string) :
  forall gs gs1,
    runsThrough pre gs = Some gs1 ->
    executeLoop (pre ++ rest) gs = executeLoop rest gs1
    /\ visited (pre ++ rest) gs = (visited pre gs ++ visited rest gs1)%list.
Proof.
  induction pre as [|c pre IH]; intros gs gs1; simpl.
  - intros H; injection H as <-. split; reflexivity.
  - destruct (iteration c gs) as [r|gs2] eqn:Hit; [discriminate|].
    intros Hrun. destruct (IH gs2 gs1 Hrun) as [Hloop Hvis].
    split; [exact Hloop|].
    destruct (Z.leb_spec maxSteps (totalSteps (agent gs))) as [Hmax|Hmax].
    + apply iteration_Continues in Hit. lia.
    + rewrite Hvis; reflexivity.
Qed.

(** C7: on a rectangular maze, when a run starts with the agent on a cell of
    the grid that is not a wall, the agent is on such a cell after every
    command the loop executes, and in the game state the run ends with. *)
Theorem agent_stays_on_open_cells (commands : list string) :
  forall gs,
    rectangular (maze gs) -> agentOk gs ->
    Forall agentOk (visited commands gs)
    /\ agentOk (snd (executeLoop commands gs)).
Proof.
  induction commands as [|c commands IH]; intros gs Hrect Hok; simpl.
  - split; [constructor|].
    destruct (negb (isAtGoal gs)); exact Hok.
  - pose proof (iteration_agentOk c gs Hrect Hok) as Hit.
    pose proof (executeCommand_agentOk c gs Hrect Hok) as Hcmd.
    destruct (iteration c gs) as [r|gs1].
    + destruct Hit as [Hr _].
      split; [|exact Hr].
      destruct (maxSteps <=? totalSteps (agent gs)); repeat constructor; exact Hcmd.
    + destruct Hit as [Hok1 Hmaze].
      assert (Hrect1 : rectangular (maze gs1)) by (rewrite Hmaze; exact Hrect).
      destruct (IH gs1 Hrect1 Hok1) as [Hall Hend].
      split; [|exact Hend].
      destruct (maxSteps <=? totalSteps (agent gs)); constructor; assumption.
Qed.

Lemma small_state_agentOk : agentOk small_state.
Proof. exists EMPTY; split; [reflexivity | discriminate]. Qed.

Lemma agent_stays_on_open_cells_witness :
  rectangular (maze small_state) /\ agentOk small_state
  /\ Forall agentOk (visited ["forward"; "forward"; "left"]%string small_state)
  /\ agentOk (snd (executeLoop ["forward"; "forward"; "left"]%string small_state)).
Proof.
  split; [exact small_maze_rectangular|].
  split; [exact small_state_agentOk|].
  exact (agent_stays_on_open_cells ["forward"; "forward"; "left"]%string small_state
           small_maze_rectangular small_state_agentOk).
Defined.

(** C4: when the loop has run through the commands [pre], the step limit is
    not reached, and the next command succeeds and leaves the agent on the goal
    cell, [executeCode] returns at once with [success = true]: the final game
    state is the one after that command, marked complete, with the single log
    line "Goal reached!" added; whatever commands [rest] follow, none of them
    is executed. *)
Theorem goal_short_circuit (pre rest : list string) (command : string)
    (gs gs1 gs2 : GameState) :
  runsThrough pre gs = Some gs1 ->
  totalSteps (agent gs1) < maxSteps ->
  executeCommand command gs1 = (mkCommandResult true None, gs2) ->
  isAtGoal gs2 = true ->
  executeLoop (pre ++ command :: rest) gs
  = (mkExecutionResult true (totalSteps (agent gs2))
       (output gs2 ++ ["✅ Goal reached!"%string]),
     mkGameState (maze gs2) (agent gs2) (goalPos gs2)
       (output gs2 ++ ["✅ Goal reached!"%string]) true)
  /\ visited (pre ++ command :: rest) gs = (visited pre gs ++ [gs2])%list.
Proof.
  intros Hrun Hmax Hcmd Hgoal.
  destruct (runsThrough_app pre (command :: rest) gs gs1 Hrun) as [Hloop Hvis].
  rewrite Hloop, Hvis. simpl.
  rewrite (iteration_goal command gs1 gs2 Hmax Hcmd Hgoal).
  split; [reflexivity|].
  destruct (Z.leb_spec maxSteps (totalSteps (agent gs1))) as [H|H]; [lia|].
  rewrite Hcmd; reflexivity.
Qed.

Lemma goal_short_circuit_witness :
  executeLoop (to_goal_pre ++ "forward"%string :: to_goal_rest) small_state
  = (mkExecutionResult true 3 ["✅ Goal reached!"%string],
     mkGameState small_maze (mkAgent 1 2 EAST 3) (mkPosition 1 2)
       ["✅ Goal reached!"%string] true)
  /\ visited (to_goal_pre ++ "forward"%string :: to_goal_rest) small_state
     = visited to_goal_pre small_state
       ++ [mkGameState small_maze (mkAgent 1 2 EAST 3) (mkPosition 1 2) [] false].
Proof.
  apply (goal_short_circuit to_goal_pre to_goal_rest "forward" small_state
           (mkGameState small_maze (mkAgent 1 1 EAST 2) (mkPosition 1 2) [] false)
           (mkGameState small_maze (mkAgent 1 2 EAST 3) (mkPosition 1 2) [] false)).
  - reflexivity.
  - unfold maxSteps; simpl; lia.
  - reflexivity.
  - reflexivity.
Defined.

(** C3, at a script that asks for 101 forward steps: [parseCode] reads no
    command from [pacingScript], so on level 1 [executeCode] returns failure
    with 0 steps and the single line "Code completed but goal not reached",
    the agent has taken no step, and the line "Maximum steps exceeded!" is not
    in the output. *)
Theorem step_limit_pacing_script :
  parseCode pacingScript = []
  /\ fst (executeCode pacingScript level1_state)
     = mkExecutionResult false 0 ["❌ Code completed but goal not reached"%string]
  /\ agent (snd (executeCode pacingScript level1_state)) = mkAgent 1 1 EAST 0
  /\ ~ In "❌ Maximum steps exceeded!"%string
        (result_output (fst (executeCode pacingScript level1_state))).
Proof.
  assert (Hparse : parseCode pacingScript = []) by (vm_compute; reflexivity).
  split; [exact Hparse|].
  unfold executeCode. rewrite Hparse.
  split; [vm_compute; reflexivity|]. split; [vm_compute; reflexivity|].
  vm_compute. intros [H|[]]; discriminate H.
Qed.

End Execution.

(* ===================================================================== *)
(** * Properties of the grid search *)
(* ===================================================================== *)

Section Search.
Import Visualizer SearchInvariant.

Ltac grid_lia :=
  unfold inGrid, adjacent, GRID_SIZE, startRef, goalRef in *; simpl in *; lia.

(** *** Lists updated in place *)

Lemma updateNth_length {A : Type} (f : A -> A) (l : list A) :
  forall n, List.length (updateNth n f l) = List.length l.
Proof.
  induction l as [|a l IH]; intros [|n]; simpl; try reflexivity.
  now rewrite IH.
Qed.

Lemma nth_updateNth_same {A : Type} (f : A -> A) (d : A) (l : list A) :
  forall n, (n < List.length l)%nat -> nth n (updateNth n f l) d = f (nth n l d).
Proof.
  induction l as [|a l IH]; intros [|n] Hn; simpl in *; try lia; try reflexivity.
  apply IH; lia.
Qed.

Lemma nth_updateNth_other {A : Type} (f : A -> A) (d : A) (l : list A) :
  forall n m, n <> m -> nth m (updateNth n f l) d = nth m l d.
Proof.
  induction l as [|a l IH]; intros [|n] [|m] Hnm; simpl; try reflexivity;
    try congruence.
  apply IH; congruence.
Qed.

Lemma Forall_updateNth {A : Type} (P : A -> Prop) (f : A -> A) (l : list A) :
  (forall a, P a -> P (f a)) ->
  forall n, Forall P l -> Forall P (updateNth n f l).
Proof.
  intros Hf; induction l as [|a l IH]; intros [|n] Hl; simpl;
    inversion Hl; subst; constructor; auto.
Qed.

(** *** The grid as a store of node objects *)


Lemma update_shaped (g : Grid) (r : ref) (f : Node.t -> Node.t) :
  shaped g -> shaped (update g r f).
Proof.
  intros [Hrows Hcols]; split; unfold update.
  - now rewrite updateNth_length.
  - apply Forall_updateNth; [|exact Hcols].
    intros cells Hc; now rewrite updateNth_length.
Qed.

Lemma shaped_row (g : Grid) (n : nat) :
  shaped g -> (n < Z.to_nat GRID_SIZE)%nat ->
  List.length (nth n g []) = Z.to_nat GRID_SIZE.
Proof.
  intros [Hrows Hcols] Hn.
  rewrite Forall_forall in Hcols. apply Hcols, nth_In. lia.
Qed.

Lemma nodeAt_update_same (g : Grid) (r : ref) (f : Node.t -> Node.t) :
  shaped g -> inGrid r -> nodeAt (update g r f) r = f (nodeAt g r).
Proof.
  intros Hs Hr. unfold nodeAt, update.
  assert (Hy : (Z.to_nat (snd r) < Z.to_nat GRID_SIZE)%nat) by grid_lia.
  assert (Hx : (Z.to_nat (fst r) < Z.to_nat GRID_SIZE)%nat) by grid_lia.
  rewrite nth_updateNth_same by (destruct Hs as [-> _]; exact Hy).
  rewrite nth_updateNth_same by (rewrite (shaped_row g _ Hs Hy); exact Hx).
  reflexivity.
Qed.

Lemma nodeAt_update_other (g : Grid) (r v : ref) (f : Node.t -> Node.t) :
  inGrid r -> inGrid v -> v <> r -> nodeAt (update g r f) v = nodeAt g v.
Proof.
  intros Hr Hv Hne. unfold nodeAt, update.
  destruct (Z.eq_dec (snd r) (snd v)) as [Hy|Hy].
  - assert (Hx : fst r <> fst v).
    { intros Hx; apply Hne. destruct r, v; simpl in *; congruence. }
    rewrite Hy.
    destruct (Nat.lt_ge_cases (Z.to_nat (snd v)) (List.length g)) as [Hlt|Hge].
    + rewrite nth_updateNth_same by exact Hlt.
      apply nth_updateNth_other. grid_lia.
    + rewrite !(nth_overflow _ []); [reflexivity | exact Hge |].
      now rewrite updateNth_length.
  - rewrite nth_updateNth_other by grid_lia. reflexivity.
Qed.

Lemma ref_eqb_eq (a b : ref) : ref_eqb a b = true <-> a = b.
Proof.
  unfold ref_eqb; destruct a as [ax ay], b as [bx b_y]; simpl.
  rewrite andb_true_iff, !Z.eqb_eq. split; [intros [-> ->]; reflexivity|].
  intros H; injection H; auto.
Qed.

Lemma ref_eqb_refl (a : ref) : ref_eqb a a = true.
Proof. now apply ref_eqb_eq. Qed.

Lemma ref_eqb_neq (a b : ref) : ref_eqb a b = false <-> a <> b.
Proof.
  split.
  - intros H Heq; apply ref_eqb_eq in Heq; congruence.
  - intros H; destruct (ref_eqb a b) eqn:E; [|reflexivity].
    apply ref_eqb_eq in E; contradiction.
Qed.

Lemma ref_eq_dec (a b : ref) : {a = b} + {a <> b}.
Proof.
  destruct (ref_eqb a b) eqn:E; [left; now apply ref_eqb_eq | right; now apply ref_eqb_neq].
Qed.

Lemma includes_In (l : list ref) (r : ref) : includes l r = true <-> In r l.
Proof.
  unfold includes. rewrite existsb_exists. split.
  - intros [x [Hin Heq]]. apply ref_eqb_eq in Heq. now subst.
  - intros Hin. exists r; split; [exact Hin | apply ref_eqb_refl].
Qed.

Lemma includes_not_In (l : list ref) (r : ref) : includes l r = false <-> ~ In r l.
Proof.
  rewrite <- includes_In. destruct (includes l r); split; congruence.
Qed.

Lemma NodeState_eqb_eq (a b : NodeState) : NodeState_eqb a b = true <-> a = b.
Proof. destruct a, b; simpl; split; congruence. Qed.

Lemma inGridb_spec (r : ref) : inGridb r = true <-> inGrid r.
Proof.
  unfold inGridb, inGrid. rewrite !andb_true_iff, !Z.leb_le, !Z.ltb_lt. tauto.
Qed.

Lemma adjacentb_spec (u v : ref) : adjacentb u v = true <-> adjacent u v.
Proof. unfold adjacentb, adjacent. apply Z.eqb_eq. Qed.

Lemma passableb_spec (g : Grid) (v : ref) : passableb g v = true <-> passable g v.
Proof.
  unfold passableb, passable. rewrite andb_true_iff, inGridb_spec, negb_true_iff.
  split; intros [Hin Hw]; split; try exact Hin.
  - intros Heq. apply NodeState_eqb_eq in Heq. congruence.
  - destruct (NodeState_eqb _ wall) eqn:E; [|reflexivity].
    apply NodeState_eqb_eq in E. contradiction.
Qed.

(** *** [getNeighbors] *)

Lemma getNeighbors_spec (g : Grid) (u v : ref) :
  Node.x (nodeAt g u) = fst u -> Node.y (nodeAt g u) = snd u ->
  In v (getNeighbors (nodeAt g u) g) <-> adjacent u v /\ passable g v.
Proof.
  intros Hx Hy. unfold getNeighbors. rewrite in_flat_map. rewrite Hx, Hy.
  split.
  - intros [d [Hd Hin]].
    destruct ((0 <=? fst u + fst d) && (fst u + fst d <? GRID_SIZE)
              && (0 <=? snd u + snd d) && (snd u + snd d <? GRID_SIZE)) eqn:Hb;
      [|destruct Hin].
    destruct (negb (NodeState_eqb (Node.state (nodeAt g (fst u + fst d, snd u + snd d))) wall))
      eqn:Hw; [|destruct Hin].
    destruct Hin as [<-|[]].
    split.
    + unfold directions in Hd. simpl in Hd. unfold adjacent; simpl.
      destruct Hd as [<-|[<-|[<-|[<-|[]]]]]; simpl; lia.
    + apply passableb_spec. unfold passableb, inGridb; simpl.
      rewrite Hb, Hw. reflexivity.
  - intros [Hadj Hp].
    exists (fst v - fst u, snd v - snd u). split.
    + unfold directions, adjacent in *. simpl.
      assert (Hc : (fst v - fst u = -1 /\ snd v - snd u = 0)
                   \/ (fst v - fst u = 1 /\ snd v - snd u = 0)
                   \/ (fst v - fst u = 0 /\ snd v - snd u = -1)
                   \/ (fst v - fst u = 0 /\ snd v - snd u = 1)) by lia.
      destruct Hc as [[-> ->]|[[-> ->]|[[-> ->]|[-> ->]]]]; auto.
    + simpl.
      replace (fst u + (fst v - fst u)) with (fst v) by lia.
      replace (snd u + (snd v - snd u)) with (snd v) by lia.
      apply passableb_spec in Hp. unfold passableb, inGridb in Hp.
      apply andb_true_iff in Hp. destruct Hp as [Hp1 Hp2].
      rewrite Hp1. rewrite <- surjective_pairing. rewrite Hp2.
      left. reflexivity.
Qed.


(** *** Sorting the open set *)

Section Sorting.
Variable cmp : ref -> ref -> comparison.
Hypothesis cmp_trans :
  forall a b c, cmp a b <> Gt -> cmp b c <> Gt -> cmp a c <> Gt.
Hypothesis cmp_total : forall a b, cmp a b = Gt -> cmp b a <> Gt.


Lemma insertSorted_perm (a : ref) (l : list ref) :
  Permutation (insertSorted cmp a l) (a :: l).
Proof.
  induction l as [|b l IH]; simpl; [reflexivity|].
  destruct (cmp a b); try reflexivity.
  rewrite IH. apply perm_swap.
Qed.

Lemma sort_perm (l : list ref) : Permutation (sort cmp l) l.
Proof.
  induction l as [|a l IH]; simpl; [reflexivity|].
  rewrite insertSorted_perm. now constructor.
Qed.

Lemma insertSorted_sorted (a : ref) (l : list ref) :
  StronglySorted (notAfter cmp) l -> StronglySorted (notAfter cmp) (insertSorted cmp a l).
Proof.
  induction l as [|b l IH]; intros Hs; simpl.
  - constructor; constructor.
  - inversion Hs as [|? ? Hs' Hall]; subst.
    assert (Hcons : forall (Hab : cmp a b <> Gt),
               StronglySorted (notAfter cmp) (a :: b :: l)).
    { intros Hab. constructor; [exact Hs|]. constructor; [exact Hab|].
      rewrite Forall_forall in *. intros w Hw.
      apply (cmp_trans a b w Hab). now apply Hall. }
    destruct (cmp a b) eqn:Hab; try (apply Hcons; congruence).
    constructor; [now apply IH|].
    rewrite Forall_forall in *. intros w Hw.
    apply (Permutation_in _ (insertSorted_perm a l)) in Hw.
    destruct Hw as [<-|Hw]; [now apply cmp_total | now apply Hall].
Qed.

Lemma sort_sorted (l : list ref) : StronglySorted (notAfter cmp) (sort cmp l).
Proof.
  induction l as [|a l IH]; simpl; [constructor | now apply insertSorted_sorted].
Qed.

Lemma sort_head (l : list ref) (c : ref) (rest : list ref) :
  sort cmp l = c :: rest ->
  Permutation (c :: rest) l /\ forall w, In w rest -> cmp c w <> Gt.
Proof.
  intros Hsort. split.
  - rewrite <- Hsort. apply sort_perm.
  - pose proof (sort_sorted l) as Hs. rewrite Hsort in Hs.
    inversion Hs as [|? ? _ Hall]; subst.
    rewrite Forall_forall in Hall. exact Hall.
Qed.

End Sorting.

Lemma compareNum_trans (a b c : num) :
  compareNum a b <> Gt -> compareNum b c <> Gt -> compareNum a c <> Gt.
Proof.
  destruct a as [a|], b as [b|], c as [c|]; simpl; try congruence.
  rewrite !Z.compare_gt_iff. lia.
Qed.

Lemma compareNum_total (a b : num) : compareNum a b = Gt -> compareNum b a <> Gt.
Proof.
  destruct a as [a|], b as [b|]; simpl; try congruence.
  rewrite !Z.compare_gt_iff. lia.
Qed.

Lemma comparator_trans (algorithm : AlgorithmType) (g : Grid) (a b c : ref) :
  comparator algorithm g a b <> Gt -> comparator algorithm g b c <> Gt ->
  comparator algorithm g a c <> Gt.
Proof. destruct algorithm; apply compareNum_trans. Qed.

Lemma comparator_total (algorithm : AlgorithmType) (g : Grid) (a b : ref) :
  comparator algorithm g a b = Gt -> comparator algorithm g b a <> Gt.
Proof. destruct algorithm; apply compareNum_total. Qed.

(** *** Walks from the start cell *)







Lemma reach_nonneg (g0 : Grid) (v : ref) (k : Z) : reach g0 v k -> 0 <= k.
Proof. induction 1; lia. Qed.

Lemma hfun_adjacent (u v : ref) : adjacent u v -> hfun u <= hfun v + 1.
Proof. unfold hfun, adjacent. lia. Qed.

Section Frontier.
Variables (g0 : Grid) (algorithm : AlgorithmType) (st : SearchState).
Hypothesis HI : Inv g0 algorithm st.
Hypothesis Hsearching : pathFound st = false.

Local Abbreviation g := (newGrid st).
Local Abbreviation op := (openSet st).
Local Abbreviation cl := (closedSet st).

Lemma start_distance : dist g startRef = Fin 0.
Proof.
  destruct HI as [HB _ Hstart _].
  assert (Hin : inGrid startRef) by grid_lia.
  assert (Hfin : exists d, dist g startRef = Fin d).
  { destruct Hstart as [Hc|Ho].
    - now apply (b_closed _ _ _ _ _ HB).
    - apply (b_open _ _ _ _ _ HB startRef). rewrite Ho. now left. }
  destruct Hfin as [d Hd].
  destruct (b_parent _ _ _ _ _ HB startRef d Hin Hd) as [(_ & -> & _)|(Hne & _)];
    [exact Hd | congruence].
Qed.

(** A walk to [v] either ends in a closed node, or passes through an open node
    that is not further from the start, nor by the heuristic, than the walk
    is long. *)
Lemma frontier (v : ref) (k : Z) :
  reach g0 v k ->
  (In v cl /\ exists d, dist g v = Fin d /\ d <= k)
  \/ (exists w j, In w op /\ dist g w = Fin j /\ j <= k /\ j + hfun w <= k + hfun v).
Proof.
  destruct HI as [HB HR Hstart Hgoal]. rewrite Hsearching in Hgoal.
  induction 1 as [|u v k Hreach IH Hadj Hpass].
  - pose proof start_distance as Hd.
    destruct (in_dec ref_eq_dec startRef cl) as [Hc|Hc].
    + left. split; [exact Hc|]. exists 0. split; [exact Hd | lia].
    + right. exists startRef, 0. split; [|split; [exact Hd | lia]].
      apply (b_open _ _ _ _ _ HB). split; [grid_lia|]. split; [now exists 0 | exact Hc].
  - destruct IH as [[Hu [du [Hdu Hle]]]|[w [j (Hw & Hj & Hjk & Hh)]]].
    + assert (Hne : u <> goalRef) by (intros ->; contradiction).
      destruct (HR u v Hu Hne Hadj Hpass) as [du' [dv (Hdu' & Hdv & Hle')]].
      assert (du' = du) by congruence. subst du'.
      destruct (in_dec ref_eq_dec v cl) as [Hc|Hc].
      * left. split; [exact Hc|]. exists dv. split; [exact Hdv | lia].
      * right. exists v, dv. split; [|split; [exact Hdv | lia]].
        apply (b_open _ _ _ _ _ HB). split; [apply Hpass|].
        split; [now exists dv | exact Hc].
    + right. exists w, j. split; [exact Hw|]. split; [exact Hj|].
      pose proof (hfun_adjacent u v Hadj). lia.
Qed.

(** The node that the sort brings to the front is as near to the start as any
    walk to it. *)
Lemma front_exact (current : ref) (rest : list ref) (d k : Z) :
  sort (comparator algorithm g) op = current :: rest ->
  dist g current = Fin d ->
  reach g0 current k ->
  d <= k.
Proof.
  intros Hsort Hd Hreach.
  destruct (sort_head (comparator algorithm g) (comparator_trans algorithm g)
              (comparator_total algorithm g) op current rest Hsort) as [Hperm Hmin].
  pose proof HI as [HB _ _ _].
  assert (Hcur : In current op)
    by (apply (Permutation_in _ Hperm); now left).
  destruct (frontier current k Hreach) as [[Hc _]|[w [j (Hw & Hj & Hjk & Hh)]]].
  - apply (b_open _ _ _ _ _ HB) in Hcur. tauto.
  - assert (Hcmp : comparator algorithm g current w <> Gt).
    { apply (Permutation_in _ (Permutation_sym Hperm)) in Hw.
      destruct Hw as [<-|Hw]; [|now apply Hmin].
      intros Hgt. now apply (comparator_total algorithm g current current). }
    unfold comparator in Hcmp.
    assert (Hdij : compareNum (dist (newGrid st) current) (dist (newGrid st) w) <> Gt
                   -> d <= k).
    { rewrite Hd, Hj. simpl. rewrite Z.compare_gt_iff. lia. }
    destruct algorithm; try (apply Hdij; exact Hcmp).
    rewrite (b_fscore _ _ _ _ _ HB eq_refl current d Hcur Hd) in Hcmp.
    rewrite (b_fscore _ _ _ _ _ HB eq_refl w j Hw Hj) in Hcmp.
    simpl in Hcmp. rewrite Z.compare_gt_iff in Hcmp. lia.
Qed.

(** When the open set is empty, every cell that a walk reaches is closed. *)
Lemma exhausted (v : ref) (k : Z) : op = [] -> reach g0 v k -> In v cl.
Proof.
  intros Hempty Hreach.
  destruct (frontier v k Hreach) as [[Hc _]|[w [j (Hw & _)]]]; [exact Hc|].
  rewrite Hempty in Hw. destruct Hw.
Qed.

End Frontier.


(** *** One iteration of the loop *)


Lemma sameButStates_dist (g g' : Grid) (v : ref) :
  sameButStates g g' -> inGrid v -> dist g' v = dist g v.
Proof. intros [_ H] Hv. unfold dist. now destruct (H v Hv) as (_ & _ & -> & _). Qed.

Lemma Base_sameButStates (g0 : Grid) (algorithm : AlgorithmType) (g g' : Grid)
    (op cl : list ref) :
  Base g0 algorithm g op cl -> sameButStates g g' -> Base g0 algorithm g' op cl.
Proof.
  intros HB Hsame. pose proof Hsame as [Hshape Hf].
  assert (Hd : forall v, inGrid v -> dist g' v = dist g v)
    by (intros v Hv; now apply sameButStates_dist).
  assert (Hcl : forall v, In v cl -> dist g' v = dist g v)
    by (intros v Hv; apply Hd; now apply (b_closed _ _ _ _ _ HB)).
  constructor.
  - exact Hshape.
  - intros r Hr. destruct (Hf r Hr) as (-> & _). now apply (b_x _ _ _ _ _ HB).
  - intros r Hr. destruct (Hf r Hr) as (_ & -> & _). now apply (b_y _ _ _ _ _ HB).
  - intros r Hr. destruct (Hf r Hr) as (_ & _ & _ & _ & _ & -> & _).
    now apply (b_wall _ _ _ _ _ HB).
  - intros r Hr. destruct (Hf r Hr) as (_ & _ & _ & _ & _ & _ & -> & _).
    now apply (b_start _ _ _ _ _ HB).
  - intros r Hr. destruct (Hf r Hr) as (_ & _ & _ & _ & _ & _ & _ & ->).
    now apply (b_goal _ _ _ _ _ HB).
  - apply (b_open_nodup _ _ _ _ _ HB).
  - intros v. rewrite (b_open _ _ _ _ _ HB v).
    split; intros (Hv & Hfin & Hc); (split; [exact Hv|]; split; [|exact Hc]).
    + now rewrite Hd.
    + now rewrite <- Hd.
  - apply (b_closed_nodup _ _ _ _ _ HB).
  - intros v Hv. rewrite Hcl by exact Hv. now apply (b_closed _ _ _ _ _ HB).
  - intros v d Hv. rewrite Hd by exact Hv. now apply (b_sound _ _ _ _ _ HB).
  - intros v d k Hv. rewrite Hcl by exact Hv. now apply (b_exact _ _ _ _ _ HB).
  - intros v d Hv. rewrite Hd by exact Hv. intros Hdv.
    destruct (Hf v Hv) as (_ & _ & _ & _ & -> & _).
    destruct (b_parent _ _ _ _ _ HB v d Hv Hdv) as [H|(Hne & u & Hp & Hu & Hadj & Hdu)];
      [left; exact H|].
    right. split; [exact Hne|]. exists u. rewrite Hcl by exact Hu. auto.
  - intros Ha v d Hv. rewrite Hd by (now apply (b_open _ _ _ _ _ HB)).
    destruct (Hf v (proj1 (proj1 (b_open _ _ _ _ _ HB v) Hv))) as (_ & _ & _ & -> & _).
    now apply (b_fscore _ _ _ _ _ HB).
  - intros v d Hv. rewrite Hd by exact Hv. now apply (b_bound _ _ _ _ _ HB).
  - intros v d Hv. rewrite Hcl by exact Hv. now apply (b_bound_closed _ _ _ _ _ HB).
Qed.

Lemma sameButStates_refl (g : Grid) : shaped g -> sameButStates g g.
Proof. intros Hs; split; [exact Hs|]. intros v _. repeat split; auto. Qed.

Lemma sameButStates_trans (g1 g2 g3 : Grid) :
  sameButStates g1 g2 -> sameButStates g2 g3 -> sameButStates g1 g3.
Proof.
  intros [_ H12] [Hs H23]; split; [exact Hs|]. intros v Hv.
  destruct (H12 v Hv) as (A1 & A2 & A3 & A4 & A5 & A6 & A7 & A8).
  destruct (H23 v Hv) as (B1 & B2 & B3 & B4 & B5 & B6 & B7 & B8).
  repeat split; try congruence; tauto.
Qed.

(** What [mark] does to the node objects. *)
Lemma mark_nodeAt (s : NodeState) (g : Grid) (r v : ref) :
  shaped g -> inGrid r -> inGrid v ->
  nodeAt (mark s g r) v
  = if ref_eqb v r && negb (isEndpoint (nodeAt g r))
    then setState s (nodeAt g r) else nodeAt g v.
Proof.
  intros Hs Hr Hv. unfold mark.
  destruct (negb (isEndpoint (nodeAt g r))); [|now rewrite andb_false_r].
  rewrite andb_true_r.
  destruct (ref_eqb v r) eqn:E.
  - apply ref_eqb_eq in E; subst v. now apply nodeAt_update_same.
  - apply ref_eqb_neq in E. now apply nodeAt_update_other.
Qed.

Lemma mark_shaped (s : NodeState) (g : Grid) (r : ref) : shaped g -> shaped (mark s g r).
Proof.
  intros Hs. unfold mark. destruct (negb _); [now apply update_shaped | exact Hs].
Qed.

Lemma isEndpoint_false (n : Node.t) :
  isEndpoint n = false <-> Node.state n <> start /\ Node.state n <> goal.
Proof. unfold isEndpoint. destruct (Node.state n); simpl; split; intuition congruence. Qed.

Lemma mark_sameButStates (s : NodeState) (g : Grid) (r : ref) :
  shaped g -> inGrid r ->
  Node.state (nodeAt g r) <> wall -> s <> wall -> s <> start -> s <> goal ->
  sameButStates g (mark s g r).
Proof.
  intros Hs Hr Hnw Hs1 Hs2 Hs3. split; [now apply mark_shaped|].
  intros v Hv. rewrite (mark_nodeAt s g r v Hs Hr Hv).
  destruct (ref_eqb v r) eqn:E; simpl; [|repeat split; auto].
  apply ref_eqb_eq in E; subst v.
  destruct (isEndpoint (nodeAt g r)) eqn:Hend; simpl; [repeat split; auto|].
  apply isEndpoint_false in Hend. destruct Hend as [He1 He2].
  repeat split; auto; simpl; intros; congruence.
Qed.

Lemma Base_pop (g0 : Grid) (algorithm : AlgorithmType) (g : Grid)
    (op cl rest : list ref) (current : ref) :
  Base g0 algorithm g op cl ->
  Permutation (current :: rest) op ->
  (forall d k, dist g current = Fin d -> reach g0 current k -> d <= k) ->
  Base g0 algorithm g rest (current :: cl).
Proof.
  intros HB Hperm Hexact.
  assert (Hnd : NoDup (current :: rest))
    by (apply (Permutation_NoDup (Permutation_sym Hperm)), (b_open_nodup _ _ _ _ _ HB)).
  inversion Hnd as [|? ? Hnotin Hnd']; subst.
  assert (Hcur : In current op) by (apply (Permutation_in _ Hperm); now left).
  pose proof (proj1 (b_open _ _ _ _ _ HB current) Hcur) as (Hin & Hfin & Hncl).
  constructor; try (now destruct HB).
  - intros v. split.
    + intros Hv.
      assert (Hvo : In v op) by (apply (Permutation_in _ Hperm); now right).
      apply (b_open _ _ _ _ _ HB) in Hvo. destruct Hvo as (Hv1 & Hv2 & Hv3).
      split; [exact Hv1|]. split; [exact Hv2|].
      intros [<-|Hc]; contradiction.
    + intros (Hv1 & Hv2 & Hv3).
      assert (Hvo : In v op).
      { apply (b_open _ _ _ _ _ HB). split; [exact Hv1|]. split; [exact Hv2|].
        intros Hc; apply Hv3; now right. }
      apply (Permutation_in _ (Permutation_sym Hperm)) in Hvo.
      destruct Hvo as [<-|Hvo]; [|exact Hvo].
      exfalso; apply Hv3; now left.
  - constructor; [exact Hncl | apply (b_closed_nodup _ _ _ _ _ HB)].
  - intros v [<-|Hv]; [now split | now apply (b_closed _ _ _ _ _ HB)].
  - intros v d k [<-|Hv]; [apply Hexact | now apply (b_exact _ _ _ _ _ HB)].
  - intros v d Hv Hd.
    destruct (b_parent _ _ _ _ _ HB v d Hv Hd) as [H|(Hne & u & Hp & Hu & Hadj & Hdu)];
      [left; exact H|].
    right. split; [exact Hne|]. exists u. repeat split; auto. now right.
  - intros Ha v d Hv. apply (b_fscore _ _ _ _ _ HB Ha).
    apply (Permutation_in _ Hperm); now right.
  - intros v d Hv Hd. pose proof (b_bound _ _ _ _ _ HB v d Hv Hd). simpl List.length. lia.
  - intros v d [<-|Hv] Hd; simpl List.length.
    + pose proof (b_bound _ _ _ _ _ HB current d Hin Hd). lia.
    + pose proof (b_bound_closed _ _ _ _ _ HB v d Hv Hd). lia.
Qed.


Ltac store_simpl :=
  repeat first
    [ rewrite nodeAt_update_same
        by first [assumption | repeat apply update_shaped; assumption]
    | rewrite nodeAt_update_other by assumption ].

Lemma relax_skip (algorithm : AlgorithmType) (current : ref) (cl : list ref)
    (g : Grid) (op : list ref) (n : ref) :
  In n cl \/ num_ltb (num_add (dist g current) 1) (dist g n) = false ->
  relax algorithm current cl (g, op) n = (g, op).
Proof.
  intros H. unfold relax.
  destruct (includes cl n) eqn:Hinc; [reflexivity|].
  destruct H as [H|H]; [apply includes_In in H; congruence|].
  unfold dist in H. now rewrite H.
Qed.

Lemma relax_update (algorithm : AlgorithmType) (current : ref) (cl : list ref)
    (g : Grid) (op : list ref) (n : ref) (dc : Z) :
  shaped g -> inGrid n ->
  (forall r, inGrid r -> Node.x (nodeAt g r) = fst r) ->
  (forall r, inGrid r -> Node.y (nodeAt g r) = snd r) ->
  ~ In n cl ->
  dist g current = Fin dc ->
  num_ltb (Fin (dc + 1)) (dist g n) = true ->
  exists g',
    relax algorithm current cl (g, op) n
    = (g', if includes op n then op else op ++ [n])
    /\ shaped g'
    /\ (forall v, inGrid v -> v <> n -> nodeAt g' v = nodeAt g v)
    /\ Node.x (nodeAt g' n) = Node.x (nodeAt g n)
    /\ Node.y (nodeAt g' n) = Node.y (nodeAt g n)
    /\ Node.state (nodeAt g' n) = Node.state (nodeAt g n)
    /\ Node.distance (nodeAt g' n) = Fin (dc + 1)
    /\ Node.parent (nodeAt g' n) = Some current
    /\ (algorithm = astar -> Node.fScore (nodeAt g' n) = Fin (dc + 1 + hfun n)).
Proof.
  intros Hs Hn Hx Hy Hncl Hdc Hlt.
  apply includes_not_In in Hncl.
  assert (Hgoal : inGrid goalRef) by grid_lia.
  unfold relax. rewrite Hncl. unfold dist in Hdc, Hlt. rewrite Hdc. simpl num_add.
  rewrite Hlt.
  assert (Hopen : (if negb (includes op n) then op ++ [n] else op)
                  = (if includes op n then op else op ++ [n]))
    by (destruct (includes op n); reflexivity).
  rewrite Hopen.
  assert (Hh : forall a b : Node.t,
             Node.x a = fst n -> Node.y a = snd n ->
             Node.x b = fst goalRef -> Node.y b = snd goalRef ->
             calculateHeuristic a b = hfun n).
  { intros a b H1 H2 H3 H4. unfold calculateHeuristic, hfun. now rewrite H1, H2, H3, H4. }
  destruct algorithm; eexists; (split; [reflexivity|]);
    (split; [repeat apply update_shaped; exact Hs|]);
    (split; [intros v Hv Hne; store_simpl; reflexivity|]);
    store_simpl; simpl; repeat split; try congruence; try reflexivity.
  intros _. rewrite Hh; [reflexivity| | | |].
  - simpl. now apply Hx.
  - simpl. now apply Hy.
  - destruct (ref_eq_dec goalRef n) as [<-|Hne]; store_simpl; simpl; now apply Hx.
  - destruct (ref_eq_dec goalRef n) as [<-|Hne]; store_simpl; simpl; now apply Hy.
Qed.



Lemma Mono_refl (cl : list ref) (g : Grid) : Mono cl g g.
Proof. intros v _; split; [reflexivity|]. intros d Hd; exists d; split; [exact Hd | lia]. Qed.

Lemma Mono_trans (cl : list ref) (g1 g2 g3 : Grid) :
  Mono cl g1 g2 -> Mono cl g2 g3 -> Mono cl g1 g3.
Proof.
  intros H12 H23 v Hv. destruct (H12 v Hv) as [A1 A2], (H23 v Hv) as [B1 B2].
  split.
  - intros Hc. now rewrite B1, A1.
  - intros d Hd. destruct (A2 d Hd) as [d' [Hd' Hle]].
    destruct (B2 d' Hd') as [d'' [Hd'' Hle']]. exists d''. split; [exact Hd'' | lia].
Qed.

Lemma Mono_sameButStates (cl : list ref) (g g' : Grid) :
  sameButStates g g' -> Mono cl g g'.
Proof.
  intros Hsame v Hv. rewrite (sameButStates_dist g g' v Hsame Hv).
  split; [reflexivity|]. intros d Hd; exists d; split; [exact Hd | lia].
Qed.

Section Expansion.
Variables (g0 : Grid) (algorithm : AlgorithmType) (current : ref) (cl : list ref) (dc : Z).
Hypothesis Hcur_cl : In current cl.
Hypothesis Hstart_cl : In startRef cl.

Local Abbreviation Mid := (Mid g0 algorithm current cl dc).


Lemma relax_step (g : Grid) (op : list ref) (n : ref) :
  Mid g op -> adjacent current n -> passable g0 n ->
  Mid (fst (relax algorithm current cl (g, op) n))
      (snd (relax algorithm current cl (g, op) n))
  /\ Mono cl g (fst (relax algorithm current cl (g, op) n))
  /\ (~ In n cl ->
      exists dn, dist (fst (relax algorithm current cl (g, op) n)) n = Fin dn
                 /\ dn <= dc + 1).
Proof.
  intros [HB Hdc] Hadj Hpass.
  assert (Hkeep : In n cl \/ num_ltb (num_add (dist g current) 1) (dist g n) = false ->
                  (~ In n cl -> exists dn, dist g n = Fin dn /\ dn <= dc + 1) ->
                  Mid (fst (relax algorithm current cl (g, op) n))
                    (snd (relax algorithm current cl (g, op) n))
                  /\ Mono cl g (fst (relax algorithm current cl (g, op) n))
                  /\ (~ In n cl ->
                      exists dn,
                        dist (fst (relax algorithm current cl (g, op) n)) n = Fin dn
                        /\ dn <= dc + 1)).
  { intros Hskip Hpost. rewrite (relax_skip _ _ _ _ _ _ Hskip). simpl.
    split; [now split|]. split; [apply Mono_refl | exact Hpost]. }
  destruct (in_dec ref_eq_dec n cl) as [Hc|Hc].
  { apply Hkeep; [now left | contradiction]. }
  destruct (num_ltb (num_add (dist g current) 1) (dist g n)) eqn:Hlt.
  2:{ apply Hkeep; [now right|]. intros _.
      rewrite Hdc in Hlt. simpl in Hlt.
      destruct (dist g n) as [dn|]; simpl in Hlt; [|discriminate].
      exists dn. split; [reflexivity|]. apply Z.ltb_ge in Hlt. lia. }
  rewrite Hdc in Hlt. simpl num_add in Hlt.
  pose proof Hpass as [Hn Hnw].
  destruct (relax_update algorithm current cl g op n dc (b_shaped _ _ _ _ _ HB) Hn
              (b_x _ _ _ _ _ HB) (b_y _ _ _ _ _ HB) Hc Hdc Hlt)
    as [g' (Hrel & Hs' & Hother & Hnx & Hny & Hnst & Hnd & Hnp & Hnf)].
  rewrite Hrel. simpl fst. simpl snd.
  set (op' := if includes op n then op else op ++ [n]).
  assert (Hdo : forall v, inGrid v -> v <> n -> dist g' v = dist g v)
    by (intros v Hv Hne; unfold dist; now rewrite Hother).
  assert (Hdcl : forall v, In v cl -> dist g' v = dist g v).
  { intros v Hv. apply Hdo; [now apply (b_closed _ _ _ _ _ HB)|]. intros ->; contradiction. }
  assert (Hop' : forall v, In v op' <-> v = n \/ In v op).
  { intros v. unfold op'. destruct (includes op n) eqn:Hinc.
    - apply includes_In in Hinc. split; [now right|]. intros [->|H]; assumption.
    - rewrite in_app_iff. simpl. intuition congruence. }
  assert (Hcur : inGrid current) by (now apply (b_closed _ _ _ _ _ HB)).
  assert (Hcn : current <> n) by (intros ->; contradiction).
  assert (Hsn : startRef <> n) by (intros <-; contradiction).
  assert (Hdn : dist g' n = Fin (dc + 1)) by exact Hnd.
  split; [split|split].
  - constructor.
    + exact Hs'.
    + intros r Hr. destruct (ref_eq_dec r n) as [->|Hne];
        [rewrite Hnx | rewrite Hother by assumption]; now apply (b_x _ _ _ _ _ HB).
    + intros r Hr. destruct (ref_eq_dec r n) as [->|Hne];
        [rewrite Hny | rewrite Hother by assumption]; now apply (b_y _ _ _ _ _ HB).
    + intros r Hr. destruct (ref_eq_dec r n) as [->|Hne];
        [rewrite Hnst | rewrite Hother by assumption]; now apply (b_wall _ _ _ _ _ HB).
    + intros r Hr. destruct (ref_eq_dec r n) as [->|Hne];
        [rewrite Hnst | rewrite Hother by assumption]; now apply (b_start _ _ _ _ _ HB).
    + intros r Hr. destruct (ref_eq_dec r n) as [->|Hne];
        [rewrite Hnst | rewrite Hother by assumption]; now apply (b_goal _ _ _ _ _ HB).
    + unfold op'. destruct (includes op n) eqn:Hinc; [apply (b_open_nodup _ _ _ _ _ HB)|].
      apply includes_not_In in Hinc.
      apply (Permutation_NoDup (l := n :: op)).
      * apply Permutation_cons_append.
      * constructor; [exact Hinc | apply (b_open_nodup _ _ _ _ _ HB)].
    + intros v. rewrite Hop'. destruct (ref_eq_dec v n) as [->|Hne].
      * split; [|now left]. intros _. split; [exact Hn|]. split; [now exists (dc + 1) | exact Hc].
      * rewrite (b_open _ _ _ _ _ HB v).
        split.
        -- intros [->|(Hv & Hfin & Hncl)]; [congruence|].
           split; [exact Hv|]. split; [now rewrite Hdo | exact Hncl].
        -- intros (Hv & Hfin & Hncl). right.
           split; [exact Hv|]. split; [now rewrite <- Hdo | exact Hncl].
    + apply (b_closed_nodup _ _ _ _ _ HB).
    + intros v Hv. rewrite Hdcl by exact Hv. now apply (b_closed _ _ _ _ _ HB).
    + intros v d Hv Hd. destruct (ref_eq_dec v n) as [->|Hne].
      * rewrite Hdn in Hd. injection Hd as <-.
        apply (reach_step g0 current n dc); [|exact Hadj | exact Hpass].
        now apply (b_sound _ _ _ _ _ HB).
      * rewrite Hdo in Hd by assumption. now apply (b_sound _ _ _ _ _ HB).
    + intros v d k Hv. rewrite Hdcl by exact Hv. now apply (b_exact _ _ _ _ _ HB).
    + intros v d Hv Hd. destruct (ref_eq_dec v n) as [->|Hne].
      * right. split; [congruence|]. exists current.
        rewrite Hdn in Hd. injection Hd as <-.
        split; [exact Hnp|]. split; [exact Hcur_cl|]. split; [exact Hadj|].
        rewrite Hdcl by exact Hcur_cl. rewrite Hdc. f_equal. lia.
      * rewrite Hdo in Hd by assumption. rewrite Hother by assumption.
        destruct (b_parent _ _ _ _ _ HB v d Hv Hd)
          as [H|(Hne' & u & Hp & Hu & Hadj' & Hdu)]; [left; exact H|].
        right. split; [exact Hne'|]. exists u. rewrite Hdcl by exact Hu. auto.
    + intros Ha v d Hv Hd. destruct (ref_eq_dec v n) as [->|Hne].
      * rewrite Hdn in Hd. injection Hd as <-. now apply Hnf.
      * apply Hop' in Hv. destruct Hv as [->|Hv]; [congruence|].
        assert (Hvin : inGrid v) by (now apply (b_open _ _ _ _ _ HB)).
        rewrite Hdo in Hd by assumption. rewrite Hother by assumption.
        now apply (b_fscore _ _ _ _ _ HB Ha).
    + intros v d Hv Hd. destruct (ref_eq_dec v n) as [->|Hne].
      * rewrite Hdn in Hd. injection Hd as <-.
        pose proof (b_bound_closed _ _ _ _ _ HB current dc Hcur_cl Hdc). lia.
      * rewrite Hdo in Hd by assumption. exact (b_bound _ _ _ _ _ HB v d Hv Hd).
    + intros v d Hv. rewrite Hdcl by exact Hv. now apply (b_bound_closed _ _ _ _ _ HB).
  - rewrite Hdcl by exact Hcur_cl. exact Hdc.
  - intros v Hv. split; [apply Hdcl|].
    intros d Hd. destruct (ref_eq_dec v n) as [->|Hne].
    + exists (dc + 1). split; [exact Hdn|].
      rewrite Hd in Hlt. simpl in Hlt. apply Z.ltb_lt in Hlt. lia.
    + exists d. split; [now rewrite Hdo | lia].
  - intros _. exists (dc + 1). split; [exact Hdn | lia].
Qed.

Lemma relax_fold (ns : list ref) :
  forall g op,
    Mid g op ->
    (forall n, In n ns -> adjacent current n /\ passable g0 n) ->
    Mid (fst (fold_left (relax algorithm current cl) ns (g, op)))
        (snd (fold_left (relax algorithm current cl) ns (g, op)))
    /\ Mono cl g (fst (fold_left (relax algorithm current cl) ns (g, op)))
    /\ (forall n, In n ns -> ~ In n cl ->
          exists dn,
            dist (fst (fold_left (relax algorithm current cl) ns (g, op))) n = Fin dn
            /\ dn <= dc + 1).
Proof.
  induction ns as [|n ns IH]; intros g op HM Hns; cbn [fold_left].
  - split; [exact HM|]. split; [apply Mono_refl|]. intros n [].
  - destruct (Hns n (or_introl eq_refl)) as [Hadj Hpass].
    destruct (relax_step g op n HM Hadj Hpass) as (HM1 & Hmono1 & Hpost1).
    destruct (relax algorithm current cl (g, op) n) as [g1 op1] eqn:Hrel.
    simpl fst in *; simpl snd in *.
    destruct (IH g1 op1 HM1) as (HM2 & Hmono2 & Hpost2);
      [intros m Hm; apply Hns; now right|].
    split; [exact HM2|]. split; [exact (Mono_trans cl g g1 _ Hmono1 Hmono2)|].
    intros m [<-|Hm] Hmc; [|now apply Hpost2].
    destruct (Hpost1 Hmc) as [dn [Hdn Hle]].
    destruct (proj2 (Hmono2 n (proj1 Hpass)) dn Hdn) as [d' [Hd' Hle']].
    exists d'. split; [exact Hd' | lia].
Qed.

End Expansion.


Lemma reach_passable (g0 : Grid) (v : ref) (k : Z) :
  reach g0 v k -> v = startRef \/ passable g0 v.
Proof. destruct 1; [now left | now right]. Qed.

Lemma add_fresh (r : ref) (s : list ref) : ~ In r s -> add r s = r :: s.
Proof. intros H. unfold add. apply includes_not_In in H. now rewrite H. Qed.

Lemma Base_not_wall (g0 : Grid) (algorithm : AlgorithmType) (g : Grid)
    (op cl : list ref) (v : ref) (d : Z) :
  Base g0 algorithm g op cl -> inGrid v -> dist g v = Fin d ->
  Node.state (nodeAt g v) <> wall.
Proof.
  intros HB Hv Hd Hw.
  destruct (reach_passable g0 v d (b_sound _ _ _ _ _ HB v d Hv Hd)) as [->|[_ Hp]].
  - assert (Hst : Node.state (nodeAt g startRef) = start)
      by (now apply (b_start _ _ _ _ _ HB)).
    congruence.
  - apply Hp. now apply (b_wall _ _ _ _ _ HB).
Qed.

Lemma iteration_Inv (g0 : Grid) (algorithm : AlgorithmType) (st : SearchState) :
  Inv g0 algorithm st -> pathFound st = false -> openSet st <> [] ->
  Inv g0 algorithm (iteration algorithm st)
  /\ List.length (closedSet (iteration algorithm st)) = S (List.length (closedSet st)).
Proof.
  intros HI Hsearching Hopen.
  pose proof HI as [HB HR Hstart Hgoal]. rewrite Hsearching in Hgoal.
  unfold iteration.
  destruct (sort (comparator algorithm (newGrid st)) (openSet st))
    as [|current rest] eqn:Hsort.
  { exfalso. apply Hopen.
    apply Permutation_nil. rewrite <- Hsort. apply sort_perm. }
  destruct (sort_head _ (comparator_trans algorithm (newGrid st))
              (comparator_total algorithm (newGrid st)) _ _ _ Hsort) as [Hperm _].
  assert (Hcur : In current (openSet st))
    by (apply (Permutation_in _ Hperm); now left).
  pose proof (proj1 (b_open _ _ _ _ _ HB current) Hcur) as (Hin & [dc Hdc] & Hncl).
  rewrite (add_fresh current (closedSet st) Hncl).
  assert (HB' : Base g0 algorithm (newGrid st) rest (current :: closedSet st)).
  { apply (Base_pop g0 algorithm (newGrid st) (openSet st)); [exact HB | exact Hperm|].
    intros d k Hd Hreach.
    exact (front_exact g0 algorithm st HI Hsearching current rest d k Hsort Hd Hreach). }
  assert (Hstart' : In startRef (current :: closedSet st)).
  { destruct Hstart as [H|H]; [now right|]. left.
    rewrite H in Hcur. destruct Hcur as [<-|[]]. reflexivity. }
  destruct (ref_eqb current goalRef) eqn:Hisgoal.
  - apply ref_eqb_eq in Hisgoal. subst current.
    split; [|reflexivity]. constructor; simpl.
    + exact HB'.
    + intros u v [<-|Hu] Hne; [congruence | now apply HR].
    + now left.
    + now left.
  - apply ref_eqb_neq in Hisgoal.
    set (cl' := current :: closedSet st) in *.
    set (g1 := mark exploring (newGrid st) current).
    assert (Hsame1 : sameButStates (newGrid st) g1).
    { apply mark_sameButStates; try discriminate;
        [apply (b_shaped _ _ _ _ _ HB) | exact Hin|].
      exact (Base_not_wall _ _ _ _ _ current dc HB Hin Hdc). }
    pose proof (Base_sameButStates _ _ _ _ _ _ HB' Hsame1) as HB1.
    assert (Hdc1 : dist g1 current = Fin dc)
      by (rewrite (sameButStates_dist _ _ _ Hsame1 Hin); exact Hdc).
    assert (Hns : forall n, In n (getNeighbors (nodeAt g1 current) g1) ->
                            adjacent current n /\ passable g0 n).
    { intros n Hn.
      apply getNeighbors_spec in Hn;
        [|now apply (b_x _ _ _ _ _ HB1) | now apply (b_y _ _ _ _ _ HB1)].
      destruct Hn as [Hadj [Hnin Hnw]]. split; [exact Hadj|]. split; [exact Hnin|].
      intros Hw. apply Hnw. now apply (b_wall _ _ _ _ _ HB1). }
    assert (Hcur_cl : In current cl') by now left.
    destruct (relax_fold g0 algorithm current cl' dc Hcur_cl Hstart'
                (getNeighbors (nodeAt g1 current) g1) g1 rest (conj HB1 Hdc1) Hns)
      as ([HB2 Hdc2] & Hmono & Hpost).
    destruct (fold_left (relax algorithm current cl')
                (getNeighbors (nodeAt g1 current) g1) (g1, rest)) as [g2 open2] eqn:Hfold.
    simpl fst in *; simpl snd in *.
    set (g3 := mark explored g2 current).
    assert (Hsame3 : sameButStates g2 g3).
    { apply mark_sameButStates; try discriminate;
        [apply (b_shaped _ _ _ _ _ HB2) | exact Hin|].
      exact (Base_not_wall _ _ _ _ _ current dc HB2 Hin Hdc2). }
    pose proof (Base_sameButStates _ _ _ _ _ _ HB2 Hsame3) as HB3.
    assert (Hmono3 : Mono cl' (newGrid st) g3).
    { apply (Mono_trans cl' _ g1); [now apply Mono_sameButStates|].
      apply (Mono_trans cl' _ g2); [exact Hmono | now apply Mono_sameButStates]. }
    split; [|reflexivity]. constructor; simpl.
    + exact HB3.
    + intros u v Hu Hne Hadj Hpass.
      assert (Huin : inGrid u) by (now apply (b_closed _ _ _ _ _ HB3)).
      destruct Hu as [<-|Hu].
      * exists dc.
        assert (Hd3 : dist g3 current = Fin dc).
        { rewrite (proj1 (Hmono3 current Hin) Hcur_cl). exact Hdc. }
        destruct (in_dec ref_eq_dec v cl') as [Hv|Hv].
        -- destruct (b_closed _ _ _ _ _ HB3 v Hv) as [_ [dv Hdv]].
           exists dv. split; [exact Hd3|]. split; [exact Hdv|].
           apply (b_exact _ _ _ _ _ HB3 v dv (dc + 1) Hv Hdv).
           apply (reach_step g0 current v dc); [|exact Hadj | exact Hpass].
           exact (b_sound _ _ _ _ _ HB3 current dc Hin Hd3).
        -- assert (Hvn : In v (getNeighbors (nodeAt g1 current) g1)).
           { apply getNeighbors_spec;
               [now apply (b_x _ _ _ _ _ HB1) | now apply (b_y _ _ _ _ _ HB1)|].
             split; [exact Hadj|]. destruct Hpass as [Hvin Hvw]. split; [exact Hvin|].
             intros Hw. apply Hvw. now apply (b_wall _ _ _ _ _ HB1). }
           destruct (Hpost v Hvn Hv) as [dn [Hdn Hle]].
           exists dn. split; [exact Hd3|]. split; [|exact Hle].
           rewrite (sameButStates_dist _ _ _ Hsame3 (proj1 Hpass)). exact Hdn.
      * destruct (HR u v Hu Hne Hadj Hpass) as [du [dv (Hdu & Hdv & Hle)]].
        destruct (proj2 (Hmono3 v (proj1 Hpass)) dv Hdv) as [dv' [Hdv' Hle']].
        exists du, dv'. split; [|split; [exact Hdv' | lia]].
        rewrite (proj1 (Hmono3 u Huin)); [exact Hdu | now right].
    + now left.
    + intros [Hg|Hg]; [congruence | contradiction].
Qed.


(** *** The state the loop starts in *)

Lemma resetNode_blank : resetNode blank = blank.
Proof. reflexivity. Qed.

Lemma nodeAt_reset (grid : Grid) (v : ref) :
  nodeAt (resetGridStates grid) v = resetNode (nodeAt grid v).
Proof.
  unfold nodeAt, resetGridStates.
  change (@nil Node.t) with (map resetNode []) at 1.
  rewrite map_nth. rewrite <- resetNode_blank at 1. apply map_nth.
Qed.

Lemma reset_shaped (grid : Grid) : wellFormed grid -> shaped (resetGridStates grid).
Proof.
  intros [Hrows Hcols _ _ _ _]. unfold resetGridStates. split.
  - now rewrite length_map.
  - rewrite Forall_map. rewrite Forall_forall in *. intros cells Hc.
    rewrite length_map. now apply Hcols.
Qed.

Lemma initial_Inv (algorithm : AlgorithmType) (grid : Grid) :
  wellFormed grid ->
  Inv grid algorithm (initialSearch algorithm (resetGridStates grid)).
Proof.
  intros Hwf. pose proof (reset_shaped grid Hwf) as Hs.
  pose proof Hwf as [_ _ Hx Hy Hst Hgl].
  assert (Hstart : inGrid startRef) by grid_lia.
  assert (Hgoal : inGrid goalRef) by grid_lia.
  set (g1 := update (resetGridStates grid) startRef (setDistance (Fin 0))).
  assert (Hs1 : shaped g1) by (now apply update_shaped).
  set (g2 := match algorithm with
             | astar =>
                 update
                   (update g1 startRef
                      (setHeuristic
                         (calculateHeuristic (nodeAt g1 startRef) (nodeAt g1 goalRef))))
                   startRef (fun n => setFScore (Fin (Node.heuristic n)) n)
             | _ => g1
             end).
  assert (Hother : forall v, inGrid v -> v <> startRef ->
                             nodeAt g2 v = resetNode (nodeAt grid v)).
  { intros v Hv Hne. rewrite <- nodeAt_reset. unfold g2, g1.
    destruct algorithm; store_simpl; reflexivity. }
  assert (Hfields : forall v, inGrid v ->
             Node.x (nodeAt g2 v) = fst v /\ Node.y (nodeAt g2 v) = snd v
             /\ Node.state (nodeAt g2 v) = Node.state (resetNode (nodeAt grid v))
             /\ Node.parent (nodeAt g2 v) = None).
  { intros v Hv. rewrite <- (Hx v Hv), <- (Hy v Hv).
    destruct (ref_eq_dec v startRef) as [->|Hne].
    - unfold g2, g1. destruct algorithm; store_simpl; rewrite nodeAt_reset;
        repeat split; reflexivity.
    - rewrite Hother by assumption. repeat split; reflexivity. }
  assert (Hd0 : dist g2 startRef = Fin 0).
  { unfold dist, g2, g1. destruct algorithm; store_simpl; reflexivity. }
  assert (Hdinf : forall v, inGrid v -> v <> startRef -> dist g2 v = PosInf).
  { intros v Hv Hne. unfold dist. rewrite Hother by assumption. simpl.
    destruct (NodeState_eqb (Node.state (nodeAt grid v)) start) eqn:E; [|reflexivity].
    apply NodeState_eqb_eq in E. apply (Hst v Hv) in E. contradiction. }
  assert (Hshape2 : shaped g2).
  { unfold g2, g1. destruct algorithm; repeat apply update_shaped; exact Hs. }
  assert (Hfin : forall v d, inGrid v -> dist g2 v = Fin d -> v = startRef /\ d = 0).
  { intros v d Hv Hd. destruct (ref_eq_dec v startRef) as [->|Hne].
    - rewrite Hd0 in Hd. injection Hd as <-. auto.
    - rewrite Hdinf in Hd by assumption. discriminate. }
  assert (Hstate : forall v s, inGrid v -> s = wall \/ s = start \/ s = goal ->
             (Node.state (nodeAt g2 v) = s <-> Node.state (nodeAt grid v) = s)).
  { intros v s Hv Hs'. destruct (Hfields v Hv) as (_ & _ & -> & _). simpl.
    destruct (Node.state (nodeAt grid v)); destruct Hs' as [-> | [-> | ->]];
      split; congruence. }
  unfold initialSearch. fold g1. fold g2.
  constructor; simpl.
  - constructor.
    + exact Hshape2.
    + intros r Hr. now apply Hfields.
    + intros r Hr. now apply Hfields.
    + intros r Hr. apply Hstate; auto.
    + intros r Hr. rewrite Hstate by auto. now apply Hst.
    + intros r Hr. rewrite Hstate by auto. now apply Hgl.
    + repeat constructor. intros [].
    + intros v. split.
      * intros [<-|[]]. split; [exact Hstart|]. split; [now exists 0 | intros []].
      * intros (Hv & [d Hd] & _). left. symmetry. now apply (Hfin v d).
    + constructor.
    + intros v [].
    + intros v d Hv Hd. destruct (Hfin v d Hv Hd) as [-> ->]. constructor.
    + intros v d k [].
    + intros v d Hv Hd. destruct (Hfin v d Hv Hd) as [-> ->]. left.
      repeat split; auto. now apply Hfields.
    + intros Ha v d [<-|[]] Hd. rewrite Hd0 in Hd. injection Hd as <-.
      subst algorithm. unfold g2. store_simpl. simpl.
      unfold calculateHeuristic, hfun, g1.
      rewrite nodeAt_update_same by assumption.
      rewrite nodeAt_update_other by (try assumption; discriminate).
      rewrite !nodeAt_reset. simpl.
      now rewrite (Hx _ Hstart), (Hy _ Hstart), (Hx _ Hgoal), (Hy _ Hgoal).
    + intros v d Hv Hd. destruct (Hfin v d Hv Hd) as [-> ->]. simpl. lia.
    + intros v d [].
  - intros u v [].
  - now right.
  - intros [].
Qed.

(** *** The loop ends *)


Lemma inGrid_allRefs (v : ref) : inGrid v -> In v allRefs.
Proof.
  intros [Hx Hy]. destruct v as [vx vy]; cbn [fst snd] in *. unfold allRefs.
  apply in_prod; apply in_map_iff.
  - exists (Z.to_nat vx). split; [lia|]. apply in_seq. unfold GRID_SIZE in *. lia.
  - exists (Z.to_nat vy). split; [lia|]. apply in_seq. unfold GRID_SIZE in *. lia.
Qed.

Lemma closed_bounded (g0 : Grid) (algorithm : AlgorithmType) (st : SearchState) :
  Inv g0 algorithm st ->
  (List.length (closedSet st) <= Z.to_nat (GRID_SIZE * GRID_SIZE))%nat.
Proof.
  intros [HB _ _ _].
  change (Z.to_nat (GRID_SIZE * GRID_SIZE)) with (List.length allRefs).
  apply NoDup_incl_length; [apply (b_closed_nodup _ _ _ _ _ HB)|].
  intros v Hv. apply inGrid_allRefs. now apply (b_closed _ _ _ _ _ HB).
Qed.

Lemma searchLoop_ends (g0 : Grid) (algorithm : AlgorithmType) (fuel : nat) :
  forall st,
    Inv g0 algorithm st ->
    (Z.to_nat (GRID_SIZE * GRID_SIZE) < fuel + List.length (closedSet st))%nat ->
    exists st',
      searchLoop fuel algorithm st = Some st'
      /\ Inv g0 algorithm st'
      /\ (pathFound st' = true \/ openSet st' = []).
Proof.
  induction fuel as [|fuel IH]; intros st HI Hfuel.
  - pose proof (closed_bounded g0 algorithm st HI). lia.
  - cbn [searchLoop].
    destruct (openSet st) as [|o op] eqn:Hop.
    { exists st. rewrite Hop. auto. }
    destruct (pathFound st) eqn:Hfound.
    { exists st. rewrite Hfound. auto. }
    assert (Hne : openSet st <> []) by (rewrite Hop; discriminate).
    destruct (iteration_Inv g0 algorithm st HI Hfound Hne) as [HI' Hlen].
    apply IH; [exact HI' | lia].
Qed.

Lemma search_ends (algorithm : AlgorithmType) (grid : Grid) :
  wellFormed grid ->
  exists st,
    search algorithm grid = Some st
    /\ Inv grid algorithm st
    /\ (pathFound st = true \/ openSet st = []).
Proof.
  intros Hwf. unfold search.
  apply (searchLoop_ends grid); [now apply initial_Inv|].
  unfold searchFuel. cbn [closedSet initialSearch]. lia.
Qed.


(** *** Paths as lists of cells *)

Lemma last_cons (a d : ref) (l : list ref) : last (a :: l) d = last l a.
Proof.
  revert a d. induction l as [|b l IH]; intros a d; [reflexivity|].
  change (last (a :: b :: l) d) with (last (b :: l) d).
  now rewrite !IH.
Qed.

Lemma walk_app (g : Grid) (p : list ref) (v : ref) :
  forall u,
    walk g u (p ++ [v])
    = walk g u p && (adjacentb (last p u) v && passableb g v).
Proof.
  induction p as [|a p IH]; intros u.
  - simpl. now rewrite andb_true_r.
  - cbn [app walk]. rewrite IH, last_cons. now rewrite <- !andb_assoc.
Qed.

Lemma walk_reach (g : Grid) (p : list ref) :
  forall u k,
    reach g u k -> walk g u p = true ->
    reach g (last p u) (k + Z.of_nat (List.length p)).
Proof.
  induction p as [|a p IH]; intros u k Hreach Hwalk.
  - simpl. now rewrite Z.add_0_r.
  - cbn [walk] in Hwalk. apply andb_true_iff in Hwalk. destruct Hwalk as [Hstep Hwalk].
    apply andb_true_iff in Hstep. destruct Hstep as [Hadj Hpass].
    apply adjacentb_spec in Hadj. apply passableb_spec in Hpass.
    rewrite last_cons.
    replace (k + Z.of_nat (List.length (a :: p)))
      with ((k + 1) + Z.of_nat (List.length p)) by (simpl List.length; lia).
    apply IH; [|exact Hwalk]. now apply (reach_step g u a k).
Qed.

Lemma isPathTo_reach (g : Grid) (target : ref) (p : list ref) :
  isPathTo g target p = true -> reach g target (edges p).
Proof.
  destruct p as [|s p]; [discriminate|]. unfold isPathTo, edges.
  rewrite !andb_true_iff. intros [[Hs Hwalk] Hlast].
  apply ref_eqb_eq in Hs. apply ref_eqb_eq in Hlast. subst s target.
  replace (Z.of_nat (List.length (startRef :: p)) - 1)
    with (0 + Z.of_nat (List.length p)) by (simpl List.length; lia).
  apply walk_reach; [constructor | exact Hwalk].
Qed.

Lemma isPathTo_snoc (g : Grid) (u v : ref) (p : list ref) :
  isPathTo g u p = true -> adjacent u v -> passable g v ->
  isPathTo g v (p ++ [v]) = true.
Proof.
  destruct p as [|s p]; [discriminate|]. unfold isPathTo.
  rewrite !andb_true_iff. intros [[Hs Hwalk] Hlast] Hadj Hpass.
  apply ref_eqb_eq in Hlast.
  cbn [app]. rewrite walk_app, Hs, Hwalk, Hlast, last_last.
  apply adjacentb_spec in Hadj. apply passableb_spec in Hpass.
  now rewrite Hadj, Hpass, ref_eqb_refl.
Qed.

Lemma reach_isPathTo (g : Grid) (v : ref) (k : Z) :
  reach g v k -> exists p, isPathTo g v p = true /\ edges p = k.
Proof.
  induction 1 as [|u v k Hreach [p [Hp Hk]] Hadj Hpass].
  - exists [startRef]. split; reflexivity.
  - exists (p ++ [v]). split; [now apply (isPathTo_snoc g u)|].
    unfold edges in *. rewrite length_app. simpl List.length. lia.
Qed.

(** *** What the search ends with *)

Lemma found_distance (g0 : Grid) (algorithm : AlgorithmType) (st : SearchState) :
  Inv g0 algorithm st -> pathFound st = true ->
  exists d,
    dist (newGrid st) goalRef = Fin d
    /\ reach g0 goalRef d
    /\ (forall k, reach g0 goalRef k -> d <= k)
    /\ d < GRID_SIZE * GRID_SIZE.
Proof.
  intros HI Hfound. pose proof HI as [HB _ _ Hgoal]. rewrite Hfound in Hgoal.
  destruct (b_closed _ _ _ _ _ HB goalRef Hgoal) as [Hin [d Hd]].
  exists d. split; [exact Hd|]. split; [now apply (b_sound _ _ _ _ _ HB)|].
  split; [intros k; now apply (b_exact _ _ _ _ _ HB)|].
  pose proof (b_bound_closed _ _ _ _ _ HB goalRef d Hgoal Hd).
  pose proof (closed_bounded g0 algorithm st HI). unfold GRID_SIZE in *. lia.
Qed.

Lemma not_found_no_walk (g0 : Grid) (algorithm : AlgorithmType) (st : SearchState) :
  Inv g0 algorithm st -> pathFound st = false -> openSet st = [] ->
  forall k, ~ reach g0 goalRef k.
Proof.
  intros HI Hfound Hopen k Hreach.
  pose proof (exhausted g0 algorithm st HI Hfound goalRef k Hopen Hreach) as Hc.
  destruct HI as [_ _ _ Hgoal]. rewrite Hfound in Hgoal. contradiction.
Qed.

(** *** The parent chain and its reconstruction *)

Lemma chain_exists (g0 : Grid) (algorithm : AlgorithmType) (g : Grid)
    (op cl : list ref) :
  Base g0 algorithm g op cl ->
  forall n v,
    inGrid v -> dist g v = Fin (Z.of_nat n) ->
    exists cells,
      parentChain g v cells
      /\ List.length cells = S n
      /\ isPathTo g0 v cells = true
      /\ (forall w, In w cells -> inGrid w /\ Node.state (nodeAt g w) <> wall).
Proof.
  intros HB. induction n as [|n IH]; intros v Hv Hd;
    destruct (b_parent _ _ _ _ _ HB v _ Hv Hd)
      as [(-> & H0 & Hp)|(Hne & u & Hp & Hu & Hadj & Hdu)].
  - exists [startRef]. split; [now constructor|]. split; [reflexivity|].
    split; [reflexivity|]. intros w [<-|[]]. split; [exact Hv|].
    exact (Base_not_wall _ _ _ _ _ _ _ HB Hv Hd).
  - exfalso. destruct (b_closed _ _ _ _ _ HB u Hu) as [Huin _].
    pose proof (reach_nonneg _ _ _ (b_sound _ _ _ _ _ HB u _ Huin Hdu)). lia.
  - lia.
  - destruct (b_closed _ _ _ _ _ HB u Hu) as [Huin _].
    replace (Z.of_nat (S n) - 1) with (Z.of_nat n) in Hdu by lia.
    destruct (IH u Huin Hdu) as [cells (Hchain & Hlen & Hpath & Hcells)].
    exists (cells ++ [v]). split; [now apply (chain_link g v u)|].
    split; [rewrite length_app, Hlen; simpl; lia|].
    split.
    + apply (isPathTo_snoc g0 u); [exact Hpath | exact Hadj|].
      destruct (reach_passable g0 v _ (b_sound _ _ _ _ _ HB v _ Hv Hd)); [contradiction|].
      assumption.
    + intros w Hw. apply in_app_iff in Hw. destruct Hw as [Hw|[<-|[]]]; [now apply Hcells|].
      split; [exact Hv|]. exact (Base_not_wall _ _ _ _ _ _ _ HB Hv Hd).
Qed.

Lemma mark_path_keeps (g : Grid) (r w : ref) :
  shaped g -> inGrid r -> inGrid w ->
  Node.state (nodeAt g w) = path -> Node.state (nodeAt (mark path g r) w) = path.
Proof.
  intros Hs Hr Hw Hp. rewrite (mark_nodeAt path g r w Hs Hr Hw).
  destruct (ref_eqb w r && negb (isEndpoint (nodeAt g r))); [reflexivity | exact Hp].
Qed.

Lemma sameButStates_isEndpoint (g g' : Grid) (v : ref) :
  sameButStates g g' -> inGrid v -> isEndpoint (nodeAt g' v) = isEndpoint (nodeAt g v).
Proof.
  intros [_ H] Hv. destruct (H v Hv) as (_ & _ & _ & _ & _ & _ & Hst & Hgl).
  unfold isEndpoint.
  destruct (Node.state (nodeAt g v)) eqn:E; destruct (Node.state (nodeAt g' v)) eqn:E';
    simpl; try reflexivity;
    try (assert (X : start = start) by reflexivity; apply Hst in X; discriminate X);
    try (assert (X : goal = goal) by reflexivity; apply Hgl in X; discriminate X);
    try (assert (X : start = start) by reflexivity; apply (proj1 Hst) in X; discriminate X);
    try (assert (X : goal = goal) by reflexivity; apply (proj1 Hgl) in X; discriminate X).
Qed.

Lemma reconstruct_done (fuel : nat) (g : Grid) (acc : list ref) :
  reconstruct fuel g None acc = Some (g, acc).
Proof. destruct fuel; reflexivity. Qed.

Lemma reconstruct_chain (g : Grid) (v : ref) (cells : list ref) :
  parentChain g v cells ->
  (forall w, In w cells -> inGrid w /\ Node.state (nodeAt g w) <> wall) ->
  forall fuel g1 acc,
    sameButStates g g1 ->
    (List.length cells <= fuel)%nat ->
    exists g2,
      reconstruct fuel g1 (Some v) acc = Some (g2, cells ++ acc)
      /\ sameButStates g g2
      /\ (forall w, inGrid w -> Node.state (nodeAt g1 w) = path ->
                    Node.state (nodeAt g2 w) = path)
      /\ (forall w, In w cells -> isEndpoint (nodeAt g w) = false ->
                    Node.state (nodeAt g2 w) = path).
Proof.
  induction 1 as [v Hroot|v u cells Hparent Hchain IH]; intros Hcells fuel g1 acc Hsame Hfuel.
  - destruct fuel as [|fuel]; [simpl in Hfuel; lia|].
    destruct (Hcells v (or_introl eq_refl)) as [Hv Hnw].
    pose proof Hsame as [Hs1 Hf1].
    assert (Hnw1 : Node.state (nodeAt g1 v) <> wall).
    { destruct (Hf1 v Hv) as (_ & _ & _ & _ & _ & Hw & _). tauto. }
    assert (Hsame' : sameButStates g1 (mark path g1 v))
      by (apply mark_sameButStates; try discriminate; assumption).
    pose proof (sameButStates_trans _ _ _ Hsame Hsame') as Hsame2.
    exists (mark path g1 v). cbn [reconstruct].
    destruct Hsame2 as [Hs2 Hf2].
    destruct (Hf2 v Hv) as (_ & _ & _ & _ & Hp2 & _).
    rewrite Hp2, Hroot, reconstruct_done.
    split; [reflexivity|]. split; [now split|]. split.
    + intros w Hw. now apply mark_path_keeps.
    + intros w [<-|[]] Hend.
      rewrite (mark_nodeAt path g1 v v Hs1 Hv Hv), ref_eqb_refl.
      rewrite (sameButStates_isEndpoint g g1 v Hsame Hv), Hend. reflexivity.
  - rewrite length_app in Hfuel. simpl in Hfuel.
    destruct fuel as [|fuel]; [lia|].
    destruct (Hcells v) as [Hv Hnw]; [apply in_app_iff; right; now left|].
    pose proof Hsame as [Hs1 Hf1].
    assert (Hnw1 : Node.state (nodeAt g1 v) <> wall).
    { destruct (Hf1 v Hv) as (_ & _ & _ & _ & _ & Hw & _). tauto. }
    assert (Hsame' : sameButStates g1 (mark path g1 v))
      by (apply mark_sameButStates; try discriminate; assumption).
    pose proof (sameButStates_trans _ _ _ Hsame Hsame') as Hsame2.
    cbn [reconstruct].
    pose proof Hsame2 as [Hs2 Hf2].
    destruct (Hf2 v Hv) as (_ & _ & _ & _ & Hp2 & _).
    rewrite Hp2, Hparent.
    destruct (IH (fun w Hw => Hcells w (proj2 (in_app_iff _ _ _) (or_introl Hw)))
                fuel (mark path g1 v) (v :: acc) Hsame2 ltac:(lia))
      as [g2 (Hrec & Hsame3 & Hkeep & Hmarked)].
    exists g2. rewrite Hrec, <- app_assoc. split; [reflexivity|].
    split; [exact Hsame3|]. split.
    + intros w Hw Hp. apply Hkeep; [exact Hw|]. now apply mark_path_keeps.
    + intros w Hw Hend. apply in_app_iff in Hw. destruct Hw as [Hw|[<-|[]]];
        [now apply Hmarked|].
      apply Hkeep; [exact Hv|].
      rewrite (mark_nodeAt path g1 v v Hs1 Hv Hv), ref_eqb_refl.
      rewrite (sameButStates_isEndpoint g g1 v Hsame Hv), Hend. reflexivity.
Qed.


(** *** Grids that stay well formed *)

Lemma Base_wellFormed (g0 : Grid) (algorithm : AlgorithmType) (g : Grid)
    (op cl : list ref) :
  Base g0 algorithm g op cl -> wellFormed g.
Proof.
  intros HB. destruct (b_shaped _ _ _ _ _ HB) as [Hrows Hcols].
  constructor; try assumption; now destruct HB.
Qed.

Lemma wellFormed_sameButStates (g g' : Grid) :
  wellFormed g -> sameButStates g g' -> wellFormed g'.
Proof.
  intros [_ _ Hx Hy Hst Hgl] [[Hrows Hcols] Hf].
  constructor; try assumption; intros r Hr;
    destruct (Hf r Hr) as (Ex & Ey & _ & _ & _ & _ & Es & Eg).
  - rewrite Ex. now apply Hx.
  - rewrite Ey. now apply Hy.
  - rewrite Es. now apply Hst.
  - rewrite Eg. now apply Hgl.
Qed.


Lemma sameWalls_passableb (g g' : Grid) (v : ref) :
  sameWalls g g' -> passableb g' v = passableb g v.
Proof.
  intros Hw. unfold passableb. destruct (inGridb v) eqn:Hin; [|reflexivity].
  apply inGridb_spec in Hin. simpl. f_equal.
  destruct (NodeState_eqb (Node.state (nodeAt g v)) wall) eqn:E.
  - apply NodeState_eqb_eq. apply (Hw v Hin). now apply NodeState_eqb_eq.
  - destruct (NodeState_eqb (Node.state (nodeAt g' v)) wall) eqn:E'; [|reflexivity].
    apply NodeState_eqb_eq in E'. apply (Hw v Hin) in E'.
    apply NodeState_eqb_eq in E'. congruence.
Qed.

Lemma sameWalls_isPathTo (g g' : Grid) (target : ref) (p : list ref) :
  sameWalls g g' -> isPathTo g' target p = isPathTo g target p.
Proof.
  intros Hw. destruct p as [|s p]; [reflexivity|]. unfold isPathTo.
  f_equal. f_equal. revert s. induction p as [|a p IH]; intros s; [reflexivity|].
  cbn [walk]. now rewrite IH, (sameWalls_passableb g g' a Hw).
Qed.

Lemma sameWalls_trans (g1 g2 g3 : Grid) :
  sameWalls g1 g2 -> sameWalls g2 g3 -> sameWalls g1 g3.
Proof. intros H12 H23 v Hv. rewrite (H23 v Hv). now apply H12. Qed.

Lemma sameButStates_sameWalls (g g' : Grid) : sameButStates g g' -> sameWalls g g'.
Proof. intros [_ Hf] v Hv. now destruct (Hf v Hv) as (_ & _ & _ & _ & _ & Hw & _). Qed.

Lemma Base_sameWalls (g0 : Grid) (algorithm : AlgorithmType) (g : Grid)
    (op cl : list ref) :
  Base g0 algorithm g op cl -> sameWalls g0 g.
Proof. intros HB v Hv. now apply (b_wall _ _ _ _ _ HB). Qed.

Lemma nth_coords {A : Type} (f : Z -> A) (d : A) (i : Z) :
  0 <= i < GRID_SIZE ->
  nth (Z.to_nat i) (map f (map Z.of_nat (seq 0 (Z.to_nat GRID_SIZE)))) d = f i.
Proof.
  intros Hi. rewrite map_map.
  rewrite (nth_indep _ d (f (Z.of_nat 0)))
    by (rewrite length_map, length_seq; unfold GRID_SIZE in *; lia).
  rewrite (map_nth (fun n => f (Z.of_nat n))).
  rewrite seq_nth by (unfold GRID_SIZE in *; lia).
  f_equal. lia.
Qed.

Lemma initializeGrid_nodeAt (rnd : Z -> Z -> bool) (v : ref) :
  inGrid v ->
  Node.x (nodeAt (initializeGrid rnd) v) = fst v
  /\ Node.y (nodeAt (initializeGrid rnd) v) = snd v
  /\ (Node.state (nodeAt (initializeGrid rnd) v) = start <-> v = startRef)
  /\ (Node.state (nodeAt (initializeGrid rnd) v) = goal <-> v = goalRef).
Proof.
  intros [Hx Hy]. unfold nodeAt, initializeGrid.
  rewrite (nth_coords _ [] (snd v) Hy). rewrite (nth_coords _ blank (fst v) Hx).
  destruct v as [vx vy]. cbn [fst snd Node.x Node.y Node.state] in *.
  split; [reflexivity|]. split; [reflexivity|].
  unfold startRef, goalRef, GRID_SIZE in *.
  assert (Hs : (vx =? 1) && (vy =? 1) = true <-> (vx, vy) = (1, 1)).
  { rewrite andb_true_iff, !Z.eqb_eq. split; [intros [-> ->]; reflexivity|].
    intros H; injection H; auto. }
  assert (Hg : (vx =? 20 - 2) && (vy =? 20 - 2) = true <-> (vx, vy) = (20 - 2, 20 - 2)).
  { rewrite andb_true_iff, !Z.eqb_eq. split; [intros [-> ->]; reflexivity|].
    intros H; injection H; auto. }
  destruct ((vx =? 20 - 2) && (vy =? 20 - 2)) eqn:Eg.
  - assert (Hv : (vx, vy) = (20 - 2, 20 - 2)) by (now apply Hg).
    split; split; intros H; try discriminate H; try reflexivity; try exact Hv.
    rewrite Hv in H. discriminate H.
  - assert (Hng : (vx, vy) <> (20 - 2, 20 - 2)) by (intros H; apply Hg in H; discriminate H).
    destruct ((vx =? 1) && (vy =? 1)) eqn:Es.
    + assert (Hv : (vx, vy) = (1, 1)) by (now apply Hs).
      split; split; intros H; try discriminate H; try reflexivity; try exact Hv.
      contradiction.
    + assert (Hns : (vx, vy) <> (1, 1)) by (intros H; apply Hs in H; discriminate H).
      rewrite andb_true_r.
      destruct (rnd vx vy); simpl; split; split; intros H;
        try discriminate H; contradiction.
Qed.

Lemma initializeGrid_wellFormed (rnd : Z -> Z -> bool) : wellFormed (initializeGrid rnd).
Proof.
  constructor; try (intros r Hr; now apply initializeGrid_nodeAt).
  - unfold initializeGrid. now rewrite !length_map, length_seq.
  - unfold initializeGrid. rewrite Forall_map. apply Forall_forall. intros y _.
    now rewrite !length_map, length_seq.
Qed.

(** *** The run as a whole *)

Lemma found_reconstruction (algorithm : AlgorithmType) (grid : Grid) (st : SearchState) :
  Inv grid algorithm st -> pathFound st = true ->
  exists finalGrid cells,
    reconstructPath st = Some (finalGrid, cells)
    /\ parentChain (newGrid st) goalRef cells
    /\ isPathTo grid goalRef cells = true
    /\ (forall p, isPathTo grid goalRef p = true -> edges cells <= edges p)
    /\ sameButStates (newGrid st) finalGrid
    /\ (forall w, In w cells -> w <> startRef -> w <> goalRef ->
                  Node.state (nodeAt finalGrid w) = path).
Proof.
  intros HI Hfound.
  destruct (found_distance grid algorithm st HI Hfound) as [d (Hd & Hreach & Hmin & Hlt)].
  pose proof HI as [HB _ _ _].
  assert (Hgoal : inGrid goalRef) by grid_lia.
  pose proof (reach_nonneg _ _ _ Hreach) as Hd0.
  rewrite <- (Z2Nat.id d Hd0) in Hd.
  destruct (chain_exists grid algorithm _ _ _ HB (Z.to_nat d) goalRef Hgoal Hd)
    as [cells (Hchain & Hlen & Hpath & Hcells)].
  destruct (reconstruct_chain (newGrid st) goalRef cells Hchain Hcells pathFuel
              (newGrid st) [] (sameButStates_refl _ (b_shaped _ _ _ _ _ HB)))
    as [g2 (Hrec & Hsame & _ & Hmarked)].
  { rewrite Hlen. unfold pathFuel. unfold GRID_SIZE in *. lia. }
  rewrite app_nil_r in Hrec.
  exists g2, cells. split; [exact Hrec|]. split; [exact Hchain|].
  split; [exact Hpath|]. split.
  - intros p Hp. unfold edges at 1. rewrite Hlen.
    pose proof (Hmin _ (isPathTo_reach grid goalRef p Hp)). lia.
  - split; [exact Hsame|]. intros w Hw Hns Hng. apply Hmarked; [exact Hw|].
    apply isEndpoint_false. destruct (Hcells w Hw) as [Hwin _].
    split; intros Hst.
    + now apply (b_start _ _ _ _ _ HB w Hwin) in Hst.
    + now apply (b_goal _ _ _ _ _ HB w Hwin) in Hst.
Qed.

Lemma wellFormed_nonempty (grid : Grid) : wellFormed grid -> grid <> [].
Proof. intros [Hrows _ _ _ _ _] ->. discriminate Hrows. Qed.

(** [runAlgorithm] in terms of [search] and [reconstructPath]. *)
Lemma runAlgorithm_unfold (host : Host) (algorithm : AlgorithmType) (grid : Grid)
    (stats : AlgorithmStats) (st : SearchState) :
  grid <> [] -> algorithm = dijkstra \/ algorithm = astar ->
  search algorithm grid = Some st ->
  runAlgorithm host algorithm grid stats
  = if pathFound st then
      match reconstructPath st with
      | None => None
      | Some (finalGrid, pathNodes) =>
          Some (finalGrid,
                mkStats (explored_count st) (edges pathNodes) (elapsed host)
                  (edges pathNodes <=? 35)
                  (roundedEfficiency host (explored_count st)))
      end
    else
      Some (newGrid st,
            if 0 <? explored_count st then
              mkStats (explored_count st) (pathLength stats) (executionTime stats)
                (optimalPath stats) (efficiency stats)
            else stats).
Proof.
  intros Hne Halg Hsearch. unfold runAlgorithm.
  destruct grid as [|cells grid]; [congruence|].
  destruct Halg as [-> | ->]; rewrite Hsearch;
    destruct (pathFound st); try reflexivity;
    destruct (reconstructPath st) as [[finalGrid pathNodes]|]; reflexivity.
Qed.

Lemma search_finds (algorithm : AlgorithmType) (grid : Grid) :
  wellFormed grid ->
  (exists p, isPathTo grid goalRef p = true) ->
  exists st, search algorithm grid = Some st /\ Inv grid algorithm st
             /\ pathFound st = true.
Proof.
  intros Hwf [p Hp].
  destruct (search_ends algorithm grid Hwf) as [st (Hs & HI & Hend)].
  exists st. split; [exact Hs|]. split; [exact HI|].
  destruct (pathFound st) eqn:Hfound; [reflexivity|].
  destruct Hend as [Hend|Hend]; [discriminate|].
  exfalso. exact (not_found_no_walk grid algorithm st HI Hfound Hend _
                    (isPathTo_reach grid goalRef p Hp)).
Qed.

Lemma run_finds (host : Host) (algorithm : AlgorithmType) (grid : Grid)
    (stats : AlgorithmStats) :
  wellFormed grid -> algorithm = dijkstra \/ algorithm = astar ->
  (exists p, isPathTo grid goalRef p = true) ->
  exists finalGrid stats' cells,
    runAlgorithm host algorithm grid stats = Some (finalGrid, stats')
    /\ pathLength stats' = edges cells
    /\ isPathTo grid goalRef cells = true
    /\ (forall p, isPathTo grid goalRef p = true -> edges cells <= edges p)
    /\ wellFormed finalGrid /\ sameWalls grid finalGrid.
Proof.
  intros Hwf Halg Hex.
  destruct (search_finds algorithm grid Hwf Hex) as [st (Hs & HI & Hfound)].
  destruct (found_reconstruction algorithm grid st HI Hfound)
    as [finalGrid [cells (Hrec & _ & Hpath & Hmin & Hsame & _)]].
  exists finalGrid. eexists. exists cells.
  rewrite (runAlgorithm_unfold host algorithm grid stats st
             (wellFormed_nonempty grid Hwf) Halg Hs), Hfound, Hrec.
  split; [reflexivity|]. split; [reflexivity|]. split; [exact Hpath|].
  split; [exact Hmin|].
  pose proof HI as [HB _ _ _]. split.
  - exact (wellFormed_sameButStates _ _ (Base_wellFormed _ _ _ _ _ HB) Hsame).
  - apply (sameWalls_trans _ (newGrid st));
      [exact (Base_sameWalls _ _ _ _ _ HB) | now apply sameButStates_sameWalls].
Qed.


(** *** What the runs report *)

(** C2: on every well-formed grid that has a path from the start cell to the
    goal cell, the run in Dijkstra mode and the run in A* mode both end with
    statistics, the two path lengths are equal, and that length is the number
    of edges of a shortest path of the grid. *)
Theorem dijkstra_astar_same_optimal_length (host1 host2 : Host) (grid : Grid)
    (stats1 stats2 : AlgorithmStats) :
  wellFormed grid ->
  (exists p, isPathTo grid goalRef p = true) ->
  exists g1 s1 g2 s2,
    runAlgorithm host1 dijkstra grid stats1 = Some (g1, s1)
    /\ runAlgorithm host2 astar grid stats2 = Some (g2, s2)
    /\ pathLength s1 = pathLength s2
    /\ (exists p, isPathTo grid goalRef p = true /\ edges p = pathLength s1)
    /\ (forall p, isPathTo grid goalRef p = true -> pathLength s1 <= edges p).
Proof.
  intros Hwf Hex.
  destruct (run_finds host1 dijkstra grid stats1 Hwf (or_introl eq_refl) Hex)
    as [g1 [s1 [cells1 (Hrun1 & Hlen1 & Hpath1 & Hmin1 & _)]]].
  destruct (run_finds host2 astar grid stats2 Hwf (or_intror eq_refl) Hex)
    as [g2 [s2 [cells2 (Hrun2 & Hlen2 & Hpath2 & Hmin2 & _)]]].
  exists g1, s1, g2, s2. split; [exact Hrun1|]. split; [exact Hrun2|].
  split; [|split].
  - pose proof (Hmin1 cells2 Hpath2). pose proof (Hmin2 cells1 Hpath1). lia.
  - exists cells1. split; [exact Hpath1 | now symmetry].
  - intros p Hp. rewrite Hlen1. now apply Hmin1.
Qed.

Lemma sampleGrid_wellFormed : wellFormed sampleGrid.
Proof. apply initializeGrid_wellFormed. Qed.

Lemma cornerPath_isPathTo : isPathTo sampleGrid goalRef cornerPath = true.
Proof. vm_compute. reflexivity. Qed.

Lemma dijkstra_astar_same_optimal_length_witness :
  wellFormed sampleGrid
  /\ (exists p, isPathTo sampleGrid goalRef p = true)
  /\ exists g1 s1 g2 s2,
      runAlgorithm sampleHost dijkstra sampleGrid zeroStats = Some (g1, s1)
      /\ runAlgorithm sampleHost astar sampleGrid zeroStats = Some (g2, s2)
      /\ pathLength s1 = pathLength s2
      /\ (exists p, isPathTo sampleGrid goalRef p = true /\ edges p = pathLength s1)
      /\ (forall p, isPathTo sampleGrid goalRef p = true -> pathLength s1 <= edges p).
Proof.
  split; [exact sampleGrid_wellFormed|].
  split; [exists cornerPath; exact cornerPath_isPathTo|].
  exact (dijkstra_astar_same_optimal_length sampleHost sampleHost sampleGrid
           zeroStats zeroStats sampleGrid_wellFormed
           (ex_intro _ cornerPath cornerPath_isPathTo)).
Defined.

(** C9: the search returns, and when it has found the goal the reconstruction
    returns the parent chain of the goal node: a path of the grid from the start
    cell to the goal cell; in the grid the run leaves, every node of the chain
    other than the start and the goal node has state [path], the two endpoints
    keep their labels, and the path length of the statistics is the number of
    nodes of the chain less one. *)
Theorem path_reconstruction (host : Host) (algorithm : AlgorithmType) (grid : Grid)
    (stats : AlgorithmStats) :
  wellFormed grid ->
  algorithm = dijkstra \/ algorithm = astar ->
  exists st,
    search algorithm grid = Some st
    /\ (pathFound st = true ->
        exists finalGrid cells stats',
          reconstructPath st = Some (finalGrid, cells)
          /\ runAlgorithm host algorithm grid stats = Some (finalGrid, stats')
          /\ parentChain (newGrid st) goalRef cells
          /\ isPathTo grid goalRef cells = true
          /\ (forall w, In w cells -> w <> startRef -> w <> goalRef ->
                        Node.state (nodeAt finalGrid w) = path)
          /\ Node.state (nodeAt finalGrid startRef) = start
          /\ Node.state (nodeAt finalGrid goalRef) = goal
          /\ pathLength stats' = Z.of_nat (List.length cells) - 1).
Proof.
  intros Hwf Halg.
  destruct (search_ends algorithm grid Hwf) as [st (Hs & HI & _)].
  exists st. split; [exact Hs|]. intros Hfound.
  destruct (found_reconstruction algorithm grid st HI Hfound)
    as [finalGrid [cells (Hrec & Hchain & Hpath & _ & Hsame & Hmarked)]].
  exists finalGrid, cells. eexists.
  rewrite (runAlgorithm_unfold host algorithm grid stats st
             (wellFormed_nonempty grid Hwf) Halg Hs), Hfound, Hrec.
  split; [reflexivity|]. split; [reflexivity|]. split; [exact Hchain|].
  split; [exact Hpath|]. split; [exact Hmarked|].
  pose proof HI as [HB _ _ _].
  pose proof (wellFormed_sameButStates _ _ (Base_wellFormed _ _ _ _ _ HB) Hsame) as Hwf'.
  split; [|split; [|reflexivity]].
  - apply (wf_start _ Hwf'); [grid_lia | reflexivity].
  - apply (wf_goal _ Hwf'); [grid_lia | reflexivity].
Qed.

Lemma path_reconstruction_witness :
  wellFormed sampleGrid
  /\ exists st finalGrid cells stats',
      search astar sampleGrid = Some st
      /\ pathFound st = true
      /\ reconstructPath st = Some (finalGrid, cells)
      /\ runAlgorithm sampleHost astar sampleGrid zeroStats = Some (finalGrid, stats')
      /\ parentChain (newGrid st) goalRef cells
      /\ isPathTo sampleGrid goalRef cells = true
      /\ (forall w, In w cells -> w <> startRef -> w <> goalRef ->
                    Node.state (nodeAt finalGrid w) = path)
      /\ Node.state (nodeAt finalGrid startRef) = start
      /\ Node.state (nodeAt finalGrid goalRef) = goal
      /\ pathLength stats' = Z.of_nat (List.length cells) - 1.
Proof.
  split; [exact sampleGrid_wellFormed|].
  destruct (path_reconstruction sampleHost astar sampleGrid zeroStats
              sampleGrid_wellFormed (or_intror eq_refl)) as [st [Hs Hfound]].
  assert (Hp : option_map pathFound (search astar sampleGrid) = Some true)
    by (vm_compute; reflexivity).
  rewrite Hs in Hp. injection Hp as Hp.
  destruct (Hfound Hp) as [finalGrid [cells [stats' H]]].
  exists st, finalGrid, cells, stats'. split; [exact Hs|]. split; [exact Hp | exact H].
Defined.

Lemma no_path_keeps (host : Host) (algorithm : AlgorithmType) (grid : Grid)
    (stats : AlgorithmStats) :
  wellFormed grid -> algorithm = dijkstra \/ algorithm = astar ->
  exists st,
    search algorithm grid = Some st
    /\ (pathFound st = true \/ openSet st = [])
    /\ (pathFound st = false ->
        (forall p, isPathTo grid goalRef p = false)
        /\ exists stats',
            runAlgorithm host algorithm grid stats = Some (newGrid st, stats')
            /\ pathLength stats' = pathLength stats
            /\ optimalPath stats' = optimalPath stats
            /\ executionTime stats' = executionTime stats
            /\ efficiency stats' = efficiency stats).
Proof.
  intros Hwf Halg.
  destruct (search_ends algorithm grid Hwf) as [st (Hs & HI & Hend)].
  exists st. split; [exact Hs|]. split; [exact Hend|]. intros Hfound.
  assert (Hopen : openSet st = [])
    by (destruct Hend as [H|H]; [congruence | exact H]).
  split.
  - intros p. destruct (isPathTo grid goalRef p) eqn:Hp; [|reflexivity].
    exfalso. exact (not_found_no_walk grid algorithm st HI Hfound Hopen _
                      (isPathTo_reach grid goalRef p Hp)).
  - rewrite (runAlgorithm_unfold host algorithm grid stats st
               (wellFormed_nonempty grid Hwf) Halg Hs), Hfound.
    eexists. split; [reflexivity|].
    destruct (0 <? explored_count st); repeat split; reflexivity.
Qed.

(** C6, as the code has it: on a well-formed grid a search in Dijkstra or A*
    mode returns with the goal found or the open set empty; when the goal is
    not found the grid has no path to the goal and the run ends with
    statistics all the same, in which the path length, the optimal flag, the
    execution time and the efficiency are the ones the component held before
    the run: the path length is 0 when it was 0 before the run. *)
Theorem no_path_outcome (host : Host) (algorithm : AlgorithmType) (grid : Grid)
    (stats : AlgorithmStats) :
  wellFormed grid -> algorithm = dijkstra \/ algorithm = astar ->
  exists st,
    search algorithm grid = Some st
    /\ (pathFound st = true \/ openSet st = [])
    /\ (pathFound st = false ->
        (forall p, isPathTo grid goalRef p = false)
        /\ exists stats',
            runAlgorithm host algorithm grid stats = Some (newGrid st, stats')
            /\ pathLength stats' = pathLength stats
            /\ optimalPath stats' = optimalPath stats
            /\ executionTime stats' = executionTime stats
            /\ efficiency stats' = efficiency stats).
Proof. exact (no_path_keeps host algorithm grid stats). Qed.

Lemma enclosed_search_fails (algorithm : AlgorithmType) (st : SearchState) :
  algorithm = dijkstra \/ algorithm = astar ->
  search algorithm (initializeGrid enclosedGrid) = Some st ->
  pathFound st = false.
Proof.
  intros Halg Hs.
  assert (Hp : option_map pathFound (search algorithm (initializeGrid enclosedGrid))
               = Some false)
    by (destruct Halg as [-> | ->]; vm_compute; reflexivity).
  rewrite Hs in Hp. now injection Hp.
Qed.

Lemma no_path_outcome_witness :
  wellFormed (initializeGrid enclosedGrid)
  /\ (astar = dijkstra \/ astar = astar)
  /\ exists st stats',
      search astar (initializeGrid enclosedGrid) = Some st
      /\ pathFound st = false
      /\ openSet st = []
      /\ (forall p, isPathTo (initializeGrid enclosedGrid) goalRef p = false)
      /\ runAlgorithm sampleHost astar (initializeGrid enclosedGrid) zeroStats
         = Some (newGrid st, stats')
      /\ pathLength stats' = 0.
Proof.
  split; [apply initializeGrid_wellFormed|]. split; [now right|].
  destruct (no_path_outcome sampleHost astar (initializeGrid enclosedGrid) zeroStats
              (initializeGrid_wellFormed enclosedGrid) (or_intror eq_refl))
    as [st (Hs & Hend & Hnone)].
  pose proof (enclosed_search_fails astar st (or_intror eq_refl) Hs) as Hp.
  destruct (Hnone Hp) as [Hno [stats' (Hrun & Hlen & _)]].
  exists st, stats'. split; [exact Hs|]. split; [exact Hp|].
  split; [destruct Hend as [H|H]; [congruence | exact H]|].
  split; [exact Hno|]. split; [exact Hrun | exact Hlen].
Defined.

(** C6 as the specification states it fails on the statistics that a run on
    [sampleGrid] has left, when the grid is the one that the draws
    [enclosedGrid] make (the state the component holds when Reset is clicked
    in the last pause of the path animation of that run: the reset writes the
    grid, then the run writes its statistics): the run finds no path, and the
    path length of the statistics it leaves is 34, not 0. *)
Lemma no_path_stale_length_counterexample :
  exists g1 s1 st s2,
    runAlgorithm sampleHost dijkstra sampleGrid zeroStats = Some (g1, s1)
    /\ search dijkstra (initializeGrid enclosedGrid) = Some st
    /\ pathFound st = false
    /\ openSet st = []
    /\ (forall p, isPathTo (initializeGrid enclosedGrid) goalRef p = false)
    /\ runAlgorithm sampleHost dijkstra (initializeGrid enclosedGrid) s1
       = Some (newGrid st, s2)
    /\ pathLength s2 = 34
    /\ pathLength s2 <> 0.
Proof.
  destruct (run_finds sampleHost dijkstra sampleGrid zeroStats sampleGrid_wellFormed
              (or_introl eq_refl) (ex_intro _ cornerPath cornerPath_isPathTo))
    as [g1 [s1 [cells (Hrun1 & _)]]].
  assert (Hlen1 : option_map (fun r => pathLength (snd r))
                    (runAlgorithm sampleHost dijkstra sampleGrid zeroStats) = Some 34)
    by (vm_compute; reflexivity).
  rewrite Hrun1 in Hlen1. cbn [option_map snd] in Hlen1. injection Hlen1 as Hlen1.
  destruct (no_path_keeps sampleHost dijkstra (initializeGrid enclosedGrid) s1
              (initializeGrid_wellFormed enclosedGrid) (or_introl eq_refl))
    as [st (Hs & Hend & Hnone)].
  pose proof (enclosed_search_fails dijkstra st (or_introl eq_refl) Hs) as Hp.
  destruct (Hnone Hp) as [Hno [s2 (Hrun2 & Hlen2 & _)]].
  exists g1, s1, st, s2. split; [exact Hrun1|]. split; [exact Hs|].
  split; [exact Hp|].
  split; [destruct Hend as [H|H]; [congruence | exact H]|].
  split; [exact Hno|]. split; [exact Hrun2|].
  rewrite Hlen2, Hlen1. split; [reflexivity | discriminate].
Qed.

(* ===================================================================== *)
(** * Further properties of the search *)
(* ===================================================================== *)

Import SearchMore.





Lemma getNeighbors_inGrid (node : Node.t) (g : Grid) (v : ref) :
  In v (getNeighbors node g) -> inGrid v.
Proof.
  unfold getNeighbors. rewrite in_flat_map. intros [d [_ Hin]].
  destruct ((0 <=? Node.x node + fst d) && (Node.x node + fst d <? GRID_SIZE)
            && (0 <=? Node.y node + snd d) && (Node.y node + snd d <? GRID_SIZE)) eqn:Hb;
    [|destruct Hin].
  destruct (negb _); [|destruct Hin]. destruct Hin as [<-|[]].
  apply inGridb_spec. exact Hb.
Qed.

(** What a relaxation leaves alone: the shape of the grid, the states of the
    nodes, the closed nodes, and every node but the neighbour. *)
Lemma relax_frame (algorithm : AlgorithmType) (current : ref) (cl : list ref)
    (g : Grid) (op : list ref) (n : ref) :
  shaped g -> inGrid n ->
  shaped (fst (relax algorithm current cl (g, op) n))
  /\ (forall v, inGrid v ->
        Node.state (nodeAt (fst (relax algorithm current cl (g, op) n)) v)
        = Node.state (nodeAt g v))
  /\ (forall v, inGrid v -> In v cl \/ v <> n ->
        nodeAt (fst (relax algorithm current cl (g, op) n)) v = nodeAt g v).
Proof.
  intros Hs Hn. unfold relax.
  destruct (includes cl n) eqn:Hinc; [simpl; auto|].
  apply includes_not_In in Hinc.
  destruct (num_ltb _ _); [|simpl; auto].
  cbn [fst].
  assert (Hne : forall v, In v cl \/ v <> n -> v <> n).
  { intros v [Hv|Hv]; [intros ->; contradiction | exact Hv]. }
  destruct algorithm; (split; [repeat apply update_shaped; exact Hs|]);
    (split; [intros v Hv; destruct (ref_eq_dec v n) as [->|Hvn];
               store_simpl; reflexivity
            |intros v Hv Hor; pose proof (Hne v Hor); store_simpl; reflexivity]).
Qed.

Lemma relax_fold_frame (algorithm : AlgorithmType) (current : ref) (cl : list ref)
    (ns : list ref) :
  forall g op,
    shaped g -> (forall n, In n ns -> inGrid n) ->
    shaped (fst (fold_left (relax algorithm current cl) ns (g, op)))
    /\ (forall v, inGrid v ->
          Node.state (nodeAt (fst (fold_left (relax algorithm current cl) ns (g, op))) v)
          = Node.state (nodeAt g v))
    /\ (forall v, inGrid v -> In v cl \/ ~ In v ns ->
          nodeAt (fst (fold_left (relax algorithm current cl) ns (g, op))) v
          = nodeAt g v).
Proof.
  induction ns as [|n ns IH]; intros g op Hs Hns; cbn [fold_left].
  - simpl; auto.
  - destruct (relax_frame algorithm current cl g op n Hs (Hns n (or_introl eq_refl)))
      as (Hs1 & Hst1 & Hfr1).
    destruct (relax algorithm current cl (g, op) n) as [g1 op1]. cbn [fst] in *.
    destruct (IH g1 op1 Hs1 (fun m Hm => Hns m (or_intror Hm))) as (Hs2 & Hst2 & Hfr2).
    split; [exact Hs2|]. split.
    + intros v Hv. rewrite Hst2, Hst1 by exact Hv. reflexivity.
    + intros v Hv Hor. rewrite Hfr2, Hfr1; try exact Hv; auto.
      * destruct Hor as [H|H]; [now left|]. right. intros ->. apply H. now left.
      * destruct Hor as [H|H]; [now left|]. right. intros Hin. apply H. now right.
Qed.

(** What one iteration does to the closed set, the counter, the distances of
    the closed nodes and the states. *)
Lemma iteration_effect (g0 : Grid) (algorithm : AlgorithmType) (st : SearchState) :
  Inv g0 algorithm st -> pathFound st = false -> openSet st <> [] ->
  exists current rest,
    sort (comparator algorithm (newGrid st)) (openSet st) = current :: rest
    /\ In current (openSet st)
    /\ closedSet (iteration algorithm st) = current :: closedSet st
    /\ pathFound (iteration algorithm st) = ref_eqb current goalRef
    /\ explored_count (iteration algorithm st)
       = explored_count st + (if ref_eqb current goalRef then 0 else 1)
    /\ (forall v, inGrid v -> In v (current :: closedSet st) ->
          dist (newGrid (iteration algorithm st)) v = dist (newGrid st) v)
    /\ (forall v, inGrid v ->
          Node.state (nodeAt (newGrid (iteration algorithm st)) v)
          = if ref_eqb v current && negb (ref_eqb current goalRef)
               && negb (isEndpoint (nodeAt (newGrid st) current))
            then explored else Node.state (nodeAt (newGrid st) v)).
Proof.
  intros HI Hsearching Hopen.
  pose proof HI as [HB _ _ _].
  pose proof (b_shaped _ _ _ _ _ HB) as Hs.
  unfold iteration.
  destruct (sort (comparator algorithm (newGrid st)) (openSet st))
    as [|current rest] eqn:Hsort.
  { exfalso. apply Hopen. apply Permutation_nil. rewrite <- Hsort. apply sort_perm. }
  exists current, rest. split; [reflexivity|].
  assert (Hcur : In current (openSet st)).
  { apply (Permutation_in (l := current :: rest)); [|now left].
    rewrite <- Hsort. apply sort_perm. }
  split; [exact Hcur|].
  pose proof (proj1 (b_open _ _ _ _ _ HB current) Hcur) as (Hin & _ & Hncl).
  rewrite (add_fresh current (closedSet st) Hncl).
  destruct (ref_eqb current goalRef) eqn:Hisgoal; cbn [closedSet pathFound explored_count newGrid].
  - repeat split; auto; [lia|]. intros v Hv. now rewrite andb_false_r.
  - set (cl' := current :: closedSet st).
    set (g1 := mark exploring (newGrid st) current).
    assert (Hs1 : shaped g1) by (now apply mark_shaped).
    pose proof (relax_fold_frame algorithm current cl'
                  (getNeighbors (nodeAt g1 current) g1) g1 rest Hs1
                  (fun n Hn => getNeighbors_inGrid _ _ n Hn)) as (Hs2 & Hst2 & Hfr2).
    destruct (fold_left (relax algorithm current cl')
                (getNeighbors (nodeAt g1 current) g1) (g1, rest)) as [g2 open2].
    cbn [fst closedSet pathFound explored_count newGrid] in *.
    split; [reflexivity|]. split; [reflexivity|]. split; [reflexivity|].
    assert (Hst1 : forall v, inGrid v ->
               nodeAt g1 v
               = if ref_eqb v current && negb (isEndpoint (nodeAt (newGrid st) current))
                 then setState exploring (nodeAt (newGrid st) current)
                 else nodeAt (newGrid st) v)
      by (intros v Hv; now apply mark_nodeAt).
    assert (Hst3 : forall v, inGrid v ->
               nodeAt (mark explored g2 current) v
               = if ref_eqb v current && negb (isEndpoint (nodeAt g2 current))
                 then setState explored (nodeAt g2 current)
                 else nodeAt g2 v)
      by (intros v Hv; now apply mark_nodeAt).
    assert (Hend2 : isEndpoint (nodeAt g2 current)
                    = isEndpoint (nodeAt (newGrid st) current)).
    { unfold isEndpoint at 1. rewrite (Hst2 current Hin), (Hst1 current Hin), ref_eqb_refl.
      destruct (isEndpoint (nodeAt (newGrid st) current)) eqn:E; [exact E|].
      reflexivity. }
    split.
    + intros v Hv Hcl. unfold dist. rewrite (Hst3 v Hv), Hend2.
      assert (Hd2 : Node.distance (nodeAt g2 v) = Node.distance (nodeAt (newGrid st) v)).
      { rewrite (Hfr2 v Hv (or_introl Hcl)), (Hst1 v Hv).
        destruct (ref_eqb v current && negb (isEndpoint (nodeAt (newGrid st) current)))
          eqn:E; [|reflexivity].
        apply andb_true_iff in E. destruct E as [E _].
        apply ref_eqb_eq in E. subst v. reflexivity. }
      destruct (ref_eqb v current && negb (isEndpoint (nodeAt (newGrid st) current)))
        eqn:E; [|exact Hd2].
      apply andb_true_iff in E. destruct E as [E _].
      apply ref_eqb_eq in E. subst v. exact Hd2.
    + intros v Hv. rewrite (Hst3 v Hv), Hend2, andb_true_r.
      destruct (ref_eqb v current && negb (isEndpoint (nodeAt (newGrid st) current)))
        eqn:E; [reflexivity|].
      rewrite (Hst2 v Hv), (Hst1 v Hv), E. reflexivity.
Qed.

(** An invariant that every iteration keeps holds when the loop ends. *)
Lemma searchLoop_keeps (g0 : Grid) (algorithm : AlgorithmType)
    (P : SearchState -> Prop) :
  (forall st, Inv g0 algorithm st -> pathFound st = false -> openSet st <> [] ->
              P st -> P (iteration algorithm st)) ->
  forall fuel st st',
    Inv g0 algorithm st -> P st ->
    searchLoop fuel algorithm st = Some st' ->
    P st'.
Proof.
  intros Hkeep. induction fuel as [|fuel IH]; intros st st' HI HP; cbn [searchLoop].
  - destruct (openSet st) eqn:Hop; [intros H; injection H as <-; exact HP|].
    destruct (pathFound st); [intros H; injection H as <-; exact HP | discriminate].
  - destruct (openSet st) as [|o op] eqn:Hop; [intros H; injection H as <-; exact HP|].
    destruct (pathFound st) eqn:Hfound; [intros H; injection H as <-; exact HP|].
    assert (Hne : openSet st <> []) by (rewrite Hop; discriminate).
    apply IH.
    + now apply iteration_Inv.
    + now apply Hkeep.
Qed.

Lemma search_keeps (algorithm : AlgorithmType) (grid : Grid)
    (P : SearchState -> Prop) :
  wellFormed grid ->
  P (initialSearch algorithm (resetGridStates grid)) ->
  (forall st, Inv grid algorithm st -> pathFound st = false -> openSet st <> [] ->
              P st -> P (iteration algorithm st)) ->
  exists st,
    search algorithm grid = Some st /\ Inv grid algorithm st
    /\ (pathFound st = true \/ openSet st = []) /\ P st.
Proof.
  intros Hwf Hinit Hkeep.
  destruct (search_ends algorithm grid Hwf) as [st (Hs & HI & Hend)].
  exists st. split; [exact Hs|]. split; [exact HI|]. split; [exact Hend|].
  apply (searchLoop_keeps grid algorithm P Hkeep searchFuel _ st
           (initial_Inv algorithm grid Hwf) Hinit Hs).
Qed.

Lemma CountOk_kept (g0 : Grid) (algorithm : AlgorithmType) (st : SearchState) :
  Inv g0 algorithm st -> pathFound st = false -> openSet st <> [] ->
  CountOk st -> CountOk (iteration algorithm st).
Proof.
  intros HI Hfound Hopen Hcount.
  destruct (iteration_effect g0 algorithm st HI Hfound Hopen)
    as [current [rest (_ & _ & Hcl & Hpf & Hcnt & _)]].
  unfold CountOk in *. rewrite Hcl, Hpf, Hcnt, Hcount, Hfound.
  simpl List.length. destruct (ref_eqb current goalRef); lia.
Qed.

Lemma initial_states (algorithm : AlgorithmType) (grid : Grid) (v : ref) :
  wellFormed grid -> inGrid v ->
  Node.state (nodeAt (newGrid (initialSearch algorithm (resetGridStates grid))) v)
  = Node.state (resetNode (nodeAt grid v)).
Proof.
  intros Hwf Hv. pose proof (reset_shaped grid Hwf) as Hs.
  assert (Hstart : inGrid startRef) by grid_lia.
  unfold initialSearch. cbn [newGrid]. rewrite <- nodeAt_reset.
  destruct (ref_eq_dec v startRef) as [->|Hne];
    destruct algorithm; store_simpl; reflexivity.
Qed.

Lemma StatesOk_kept (grid : Grid) (algorithm : AlgorithmType) (st : SearchState) :
  wellFormed grid ->
  Inv grid algorithm st -> pathFound st = false -> openSet st <> [] ->
  StatesOk grid st -> StatesOk grid (iteration algorithm st).
Proof.
  intros Hwf HI Hfound Hopen Hstates.
  destruct (iteration_effect grid algorithm st HI Hfound Hopen)
    as [current [rest (_ & Hcur & Hcl & _ & _ & _ & Hst)]].
  pose proof HI as [HB _ _ _].
  pose proof (proj1 (b_open _ _ _ _ _ HB current) Hcur) as (Hin & _ & Hncl).
  intros v Hv. rewrite (Hst v Hv), Hcl.
  unfold expectedState. cbn [includes existsb].
  fold (includes (closedSet st) v).
  assert (Hcurstate : Node.state (nodeAt (newGrid st) current)
                      = Node.state (resetNode (nodeAt grid current))).
  { rewrite (Hstates current Hin). unfold expectedState.
    apply includes_not_In in Hncl. now rewrite Hncl. }
  assert (Hend : isEndpoint (nodeAt (newGrid st) current)
                 = isEndpoint (nodeAt grid current)).
  { unfold isEndpoint. rewrite Hcurstate. simpl.
    destruct (Node.state (nodeAt grid current)); reflexivity. }
  assert (Hgoalend : ref_eqb current goalRef = true ->
                     isEndpoint (nodeAt grid current) = true).
  { intros E. apply ref_eqb_eq in E. subst current.
    unfold isEndpoint.
    rewrite (proj2 (wf_goal _ Hwf goalRef Hin) eq_refl). reflexivity. }
  destruct (ref_eqb v current) eqn:E.
  - apply ref_eqb_eq in E. subst v. rewrite Hend. cbn [orb andb].
    destruct (isEndpoint (nodeAt grid current)) eqn:Hep.
    + rewrite andb_false_r. cbn [negb andb]. exact Hcurstate.
    + destruct (ref_eqb current goalRef) eqn:Hg;
        [specialize (Hgoalend eq_refl); congruence|].
      reflexivity.
  - cbn [andb orb]. rewrite (Hstates v Hv). reflexivity.
Qed.

(** *** Dijkstra against A* *)

Lemma sorted_first (algorithm : AlgorithmType) (g : Grid) (op : list ref)
    (current : ref) (rest : list ref) (w : ref) :
  sort (comparator algorithm g) op = current :: rest ->
  In w op -> comparator algorithm g current w <> Gt.
Proof.
  intros Hsort Hw.
  destruct (sort_head (comparator algorithm g) (comparator_trans algorithm g)
              (comparator_total algorithm g) op current rest Hsort) as [Hperm Hhead].
  apply (Permutation_in _ (Permutation_sym Hperm)) in Hw.
  destruct Hw as [<-|Hw]; [|now apply Hhead].
  unfold comparator.
  destruct algorithm;
    match goal with |- compareNum ?a ?a <> Gt => destruct a; simpl; [rewrite Z.compare_refl|]; discriminate end.
Qed.

Lemma NearerClosed_kept (g0 : Grid) (st : SearchState) :
  Inv g0 dijkstra st -> pathFound st = false -> openSet st <> [] ->
  NearerClosed g0 (iteration dijkstra st).
Proof.
  intros HI Hfound Hopen.
  destruct (iteration_effect g0 dijkstra st HI Hfound Hopen)
    as [current [rest (Hsort & Hcur & Hcl & Hpf & _ & Hdist & _)]].
  intros Hfound' v k d Hreach Hd Hlt.
  rewrite Hpf in Hfound'. apply ref_eqb_eq in Hfound'. subst current.
  assert (Hgoal : inGrid goalRef) by grid_lia.
  rewrite (Hdist goalRef Hgoal (or_introl eq_refl)) in Hd.
  rewrite Hcl.
  destruct (frontier g0 dijkstra st HI Hfound v k Hreach)
    as [[Hv _]|[w [j (Hw & Hj & Hjk & _)]]]; [now right|].
  exfalso.
  pose proof (sorted_first dijkstra (newGrid st) (openSet st) goalRef rest w Hsort Hw)
    as Hcmp.
  unfold comparator, dist in *. rewrite Hd, Hj in Hcmp. simpl in Hcmp.
  apply Hcmp. apply Z.compare_gt_iff. lia.
Qed.

Lemma hfun_goal : hfun goalRef = 0.
Proof. reflexivity. Qed.

Lemma hfun_positive (v : ref) : v <> goalRef -> 0 < hfun v.
Proof.
  intros Hne. unfold hfun. destruct v as [x y]. unfold goalRef in *. cbn [fst snd] in *.
  destruct (Z.eq_dec x (GRID_SIZE - 2)) as [-> |Hx];
    [destruct (Z.eq_dec y (GRID_SIZE - 2)) as [-> |Hy]; [congruence|]|]; lia.
Qed.

Lemma ScoreBounded_kept (g0 : Grid) (c : Z) (st : SearchState) :
  reach g0 goalRef c ->
  Inv g0 astar st -> pathFound st = false -> openSet st <> [] ->
  ScoreBounded c st -> ScoreBounded c (iteration astar st).
Proof.
  intros Hgoal HI Hfound Hopen Hbound.
  destruct (iteration_effect g0 astar st HI Hfound Hopen)
    as [current [rest (Hsort & Hcur & Hcl & _ & _ & Hdist & _)]].
  pose proof HI as [HB _ _ Hgoalcl]. rewrite Hfound in Hgoalcl.
  pose proof (proj1 (b_open _ _ _ _ _ HB current) Hcur) as (Hin & _ & Hncl).
  intros v d Hv Hd. rewrite Hcl in Hv.
  assert (Hvin : inGrid v).
  { destruct Hv as [<-|Hv]; [exact Hin | now apply (b_closed _ _ _ _ _ HB)]. }
  rewrite (Hdist v Hvin Hv) in Hd.
  destruct Hv as [<-|Hv]; [|now apply Hbound].
  destruct (frontier g0 astar st HI Hfound goalRef c Hgoal)
    as [[Hg _]|[w [j (Hw & Hj & _ & Hjc)]]]; [contradiction|].
  rewrite hfun_goal in Hjc.
  pose proof (sorted_first astar (newGrid st) (openSet st) current rest w Hsort Hw)
    as Hcmp.
  unfold comparator in Hcmp.
  rewrite (b_fscore _ _ _ _ _ HB eq_refl current d Hcur Hd) in Hcmp.
  rewrite (b_fscore _ _ _ _ _ HB eq_refl w j Hw Hj) in Hcmp.
  simpl in Hcmp.
  assert (~ (d + hfun current > j + hfun w)) by (intros H; apply Hcmp; exact H).
  lia.
Qed.

Lemma CountOk_initial (algorithm : AlgorithmType) (grid : Grid) :
  CountOk (initialSearch algorithm grid).
Proof. reflexivity. Qed.

(** Both searches return, A* with a closed set no longer than Dijkstra's. *)
Lemma astar_closes_fewer (grid : Grid) :
  wellFormed grid ->
  exists stD stA,
    search dijkstra grid = Some stD /\ search astar grid = Some stA
    /\ Inv grid dijkstra stD /\ Inv grid astar stA
    /\ pathFound stA = pathFound stD
    /\ (pathFound stD = true \/ openSet stD = [])
    /\ (pathFound stA = true \/ openSet stA = [])
    /\ incl (closedSet stA) (closedSet stD)
    /\ explored_count stA <= explored_count stD
    /\ CountOk stD /\ CountOk stA.
Proof.
  intros Hwf.
  destruct (search_keeps dijkstra grid
              (fun st => CountOk st /\ NearerClosed grid st) Hwf)
    as [stD (HsD & HID & HendD & HcD & HnD)].
  { split; [apply CountOk_initial | intros H; discriminate H]. }
  { intros st HI Hf Ho [Hc _]. split;
      [now apply (CountOk_kept grid) | now apply NearerClosed_kept]. }
  pose proof HID as [HBD _ HstartD HgoalD].
  destruct (pathFound stD) eqn:HfD.
  - destruct (found_distance grid dijkstra stD HID HfD) as [d (Hd & Hreach & _ & _)].
    destruct (search_keeps astar grid
                (fun st => CountOk st /\ ScoreBounded d st) Hwf)
      as [stA (HsA & HIA & HendA & HcA & HbA)].
    { split; [apply CountOk_initial | intros v d' []]. }
    { intros st HI Hf Ho [Hc Hb]. split;
        [now apply (CountOk_kept grid) | now apply (ScoreBounded_kept grid)]. }
    assert (HfA : pathFound stA = true).
    { destruct (pathFound stA) eqn:HfA; [reflexivity|].
      destruct HendA as [H|H]; [discriminate|].
      exfalso. exact (not_found_no_walk grid astar stA HIA HfA H d Hreach). }
    pose proof HIA as [HBA _ _ _].
    assert (Hincl : incl (closedSet stA) (closedSet stD)).
    { intros v Hv.
      destruct (ref_eq_dec v goalRef) as [-> |Hne]; [exact HgoalD|].
      destruct (b_closed _ _ _ _ _ HBA v Hv) as [Hvin [dv Hdv]].
      pose proof (HbA v dv Hv Hdv) as Hle.
      pose proof (hfun_positive v Hne) as Hpos.
      apply (HnD HfD v dv d); [|exact Hd|lia].
      exact (b_sound _ _ _ _ _ HBA v dv Hvin Hdv). }
    exists stD, stA. rewrite HfA, HfD.
    split; [exact HsD|]. split; [exact HsA|]. split; [exact HID|].
    split; [exact HIA|]. split; [reflexivity|]. split; [now left|].
    split; [now left|]. split; [exact Hincl|].
    split; [|split; assumption].
    pose proof (NoDup_incl_length (b_closed_nodup _ _ _ _ _ HBA) Hincl) as Hlen.
    unfold CountOk in HcD, HcA. rewrite HcD, HcA, HfA, HfD. lia.
  - assert (HopD : openSet stD = []) by (destruct HendD as [H|H]; [discriminate | exact H]).
    destruct (search_keeps astar grid CountOk Hwf (CountOk_initial _ _)
                (CountOk_kept grid astar))
      as [stA (HsA & HIA & HendA & HcA)].
    assert (HfA : pathFound stA = false).
    { destruct (pathFound stA) eqn:HfA; [|reflexivity].
      destruct (found_distance grid astar stA HIA HfA) as [d (_ & Hreach & _ & _)].
      exfalso. exact (not_found_no_walk grid dijkstra stD HID HfD HopD d Hreach). }
    pose proof HIA as [HBA _ _ _].
    assert (Hincl : incl (closedSet stA) (closedSet stD)).
    { intros v Hv.
      destruct (b_closed _ _ _ _ _ HBA v Hv) as [Hvin [dv Hdv]].
      apply (exhausted grid dijkstra stD HID HfD v dv HopD).
      exact (b_sound _ _ _ _ _ HBA v dv Hvin Hdv). }
    assert (HopA : openSet stA = [])
      by (destruct HendA as [H|H]; [congruence | exact H]).
    exists stD, stA. rewrite HfA, HfD.
    split; [exact HsD|]. split; [exact HsA|]. split; [exact HID|].
    split; [exact HIA|]. split; [reflexivity|]. split; [now right|].
    split; [now right|]. split; [exact Hincl|].
    split; [|split; assumption].
    pose proof (NoDup_incl_length (b_closed_nodup _ _ _ _ _ HBA) Hincl) as Hlen.
    unfold CountOk in HcD, HcA. rewrite HcD, HcA, HfA, HfD. lia.
Qed.

(** With the goal out of reach the start node has been expanded. *)
Lemma exhausted_count (g0 : Grid) (algorithm : AlgorithmType) (st : SearchState) :
  Inv g0 algorithm st -> CountOk st -> pathFound st = false -> openSet st = [] ->
  0 < explored_count st.
Proof.
  intros [_ _ Hstart _] Hc Hf Ho. unfold CountOk in Hc. rewrite Hf in Hc.
  destruct Hstart as [Hstart|Hstart]; [|rewrite Ho in Hstart; discriminate].
  destruct (closedSet st); [destruct Hstart|]. simpl List.length in Hc. lia.
Qed.

(** X12: on every well-formed grid the runs in Dijkstra mode and in A* mode
    both end with statistics, and the number of nodes explored of the A* run
    is at most that of the Dijkstra run. *)
Theorem astar_explores_fewer (hostD hostA : Host) (grid : Grid)
    (statsD statsA : AlgorithmStats) :
  wellFormed grid ->
  exists gD sD gA sA,
    runAlgorithm hostD dijkstra grid statsD = Some (gD, sD)
    /\ runAlgorithm hostA astar grid statsA = Some (gA, sA)
    /\ nodesExplored sA <= nodesExplored sD.
Proof.
  intros Hwf.
  destruct (astar_closes_fewer grid Hwf)
    as [stD [stA (HsD & HsA & HID & HIA & Hsame & HendD & HendA & _ & Hle & HcD & HcA)]].
  rewrite (runAlgorithm_unfold hostD dijkstra grid statsD stD
             (wellFormed_nonempty grid Hwf) (or_introl eq_refl) HsD).
  rewrite (runAlgorithm_unfold hostA astar grid statsA stA
             (wellFormed_nonempty grid Hwf) (or_intror eq_refl) HsA).
  rewrite Hsame.
  destruct (pathFound stD) eqn:HfD.
  - destruct (found_reconstruction dijkstra grid stD HID HfD)
      as [gD [cellsD (HrecD & _)]].
    destruct (found_reconstruction astar grid stA HIA Hsame)
      as [gA [cellsA (HrecA & _)]].
    rewrite HrecD, HrecA. do 4 eexists.
    split; [reflexivity|]. split; [reflexivity|]. exact Hle.
  - assert (HopD : openSet stD = []) by (destruct HendD as [H|H]; [discriminate | exact H]).
    assert (HopA : openSet stA = [])
      by (destruct HendA as [H|H]; [congruence | exact H]).
    pose proof (exhausted_count grid dijkstra stD HID HcD HfD HopD) as HposD.
    pose proof (exhausted_count grid astar stA HIA HcA Hsame HopA) as HposA.
    apply Z.ltb_lt in HposD, HposA. rewrite HposD, HposA.
    do 4 eexists. split; [reflexivity|]. split; [reflexivity|]. exact Hle.
Qed.

(** *** The states a run leaves *)

Lemma endpoint_spec (grid : Grid) (w : ref) :
  wellFormed grid -> inGrid w ->
  (isEndpoint (nodeAt grid w) = true <-> w = startRef \/ w = goalRef).
Proof.
  intros Hwf Hw. unfold isEndpoint. rewrite orb_true_iff.
  rewrite <- (wf_start _ Hwf w Hw), <- (wf_goal _ Hwf w Hw).
  destruct (Node.state (nodeAt grid w)); simpl; split; intros [H|H];
    try discriminate; auto.
Qed.

Lemma reset_state_plain (n : Node.t) :
  Node.state (resetNode n) <> exploring
  /\ Node.state (resetNode n) <> explored
  /\ Node.state (resetNode n) <> path.
Proof.
  unfold resetNode; simpl; destruct (Node.state n); repeat split; discriminate.
Qed.

Lemma expectedState_explored (grid : Grid) (cl : list ref) (w : ref) :
  wellFormed grid -> inGrid w ->
  (expectedState grid cl w = explored
   <-> In w cl /\ w <> startRef /\ w <> goalRef).
Proof.
  intros Hwf Hw. unfold expectedState.
  pose proof (endpoint_spec grid w Hwf Hw) as Hend.
  pose proof (reset_state_plain (nodeAt grid w)) as (_ & Hne & _).
  destruct (includes cl w) eqn:Hi; cbn [andb].
  - apply includes_In in Hi.
    destruct (isEndpoint (nodeAt grid w)); cbn [negb].
    + split; [contradiction|]. intros (_ & H1 & H2).
      destruct (proj1 Hend eq_refl); contradiction.
    + split; [|reflexivity]. intros _. split; [exact Hi|].
      split; intros H; [assert (false = true) by (apply Hend; now left)
                       |assert (false = true) by (apply Hend; now right)];
        discriminate.
  - apply includes_not_In in Hi. split; [contradiction|]. intros [H _]. contradiction.
Qed.

Lemma expectedState_plain (grid : Grid) (cl : list ref) (w : ref) :
  expectedState grid cl w <> exploring /\ expectedState grid cl w <> path.
Proof.
  unfold expectedState.
  pose proof (reset_state_plain (nodeAt grid w)) as (H1 & _ & H2).
  destruct (includes cl w && negb (isEndpoint (nodeAt grid w)));
    [split; discriminate | now split].
Qed.

Lemma StatesOk_initial (algorithm : AlgorithmType) (grid : Grid) :
  wellFormed grid -> StatesOk grid (initialSearch algorithm (resetGridStates grid)).
Proof.
  intros Hwf v Hv. rewrite (initial_states algorithm grid v Hwf Hv). reflexivity.
Qed.

(** The search returns in a state that the counter and the node states
    describe. *)
Lemma search_described (algorithm : AlgorithmType) (grid : Grid) :
  wellFormed grid ->
  exists st,
    search algorithm grid = Some st /\ Inv grid algorithm st
    /\ (pathFound st = true \/ openSet st = [])
    /\ CountOk st /\ StatesOk grid st.
Proof.
  intros Hwf.
  destruct (search_keeps algorithm grid (fun st => CountOk st /\ StatesOk grid st) Hwf)
    as [st (Hs & HI & Hend & Hc & Hst)].
  - split; [apply CountOk_initial | now apply StatesOk_initial].
  - intros st HI Hf Ho [Hc Hst]. split;
      [now apply (CountOk_kept grid) | now apply StatesOk_kept].
  - exists st. auto.
Qed.

(** The cells closed when the open set runs empty are the cells a walk from
    the start reaches. *)
Lemma exhausted_closed (grid : Grid) (algorithm : AlgorithmType) (st : SearchState) :
  Inv grid algorithm st -> pathFound st = false -> openSet st = [] ->
  forall v, In v (closedSet st) <-> exists p, isPathTo grid v p = true.
Proof.
  intros HI Hf Ho v. pose proof HI as [HB _ _ _]. split.
  - intros Hv. destruct (b_closed _ _ _ _ _ HB v Hv) as [Hvin [d Hd]].
    destruct (reach_isPathTo grid v d (b_sound _ _ _ _ _ HB v d Hvin Hd)) as [p [Hp _]].
    now exists p.
  - intros [p Hp].
    exact (exhausted grid algorithm st HI Hf v _ Ho (isPathTo_reach grid v p Hp)).
Qed.

(** X13: when a well-formed grid has no path to the goal, the run ends and
    keeps the path length and the optimal flag shown before; in the grid it
    leaves, the cells in state [explored] are exactly the cells other than the
    start that a walk from the start reaches, no cell is left in state
    [exploring] or [path], and every cell out of reach has the state the reset
    gave it. *)
Theorem no_path_run (host : Host) (algorithm : AlgorithmType) (grid : Grid)
    (stats : AlgorithmStats) :
  wellFormed grid -> algorithm = dijkstra \/ algorithm = astar ->
  (forall p, isPathTo grid goalRef p = false) ->
  exists finalGrid stats',
    runAlgorithm host algorithm grid stats = Some (finalGrid, stats')
    /\ pathLength stats' = pathLength stats
    /\ optimalPath stats' = optimalPath stats
    /\ (forall v, inGrid v ->
          (Node.state (nodeAt finalGrid v) = explored
           <-> v <> startRef /\ exists p, isPathTo grid v p = true))
    /\ (forall v, inGrid v ->
          Node.state (nodeAt finalGrid v) <> exploring
          /\ Node.state (nodeAt finalGrid v) <> path)
    /\ (forall v, inGrid v -> (forall p, isPathTo grid v p = false) ->
          Node.state (nodeAt finalGrid v) = Node.state (resetNode (nodeAt grid v))).
Proof.
  intros Hwf Halg Hnone.
  destruct (search_described algorithm grid Hwf) as [st (Hs & HI & Hend & Hc & Hst)].
  assert (Hf : pathFound st = false).
  { destruct (pathFound st) eqn:Hf; [|reflexivity].
    destruct (found_distance grid algorithm st HI Hf) as [d (_ & Hreach & _ & _)].
    destruct (reach_isPathTo grid goalRef d Hreach) as [p [Hp _]].
    rewrite Hnone in Hp. discriminate. }
  assert (Ho : openSet st = []) by (destruct Hend as [H|H]; [congruence | exact H]).
  rewrite (runAlgorithm_unfold host algorithm grid stats st
             (wellFormed_nonempty grid Hwf) Halg Hs), Hf.
  do 2 eexists. split; [reflexivity|].
  split; [destruct (0 <? explored_count st); reflexivity|].
  split; [destruct (0 <? explored_count st); reflexivity|].
  pose proof (exhausted_closed grid algorithm st HI Hf Ho) as Hcl.
  split; [|split].
  - intros v Hv. rewrite (Hst v Hv), (expectedState_explored grid _ v Hwf Hv), Hcl.
    split.
    + intros (Hp & Hns & _). now split.
    + intros (Hns & [p Hp]). split; [now exists p|]. split; [exact Hns|].
      intros ->. rewrite Hnone in Hp. discriminate.
  - intros v Hv. rewrite (Hst v Hv). apply expectedState_plain.
  - intros v Hv Hnov. rewrite (Hst v Hv). unfold expectedState.
    destruct (includes (closedSet st) v) eqn:Hi; [|reflexivity].
    apply includes_In in Hi. apply Hcl in Hi. destruct Hi as [p Hp].
    rewrite Hnov in Hp. discriminate.
Qed.

(** *** The path a run draws *)

Lemma chain_closed (g0 : Grid) (algorithm : AlgorithmType) (g : Grid)
    (op cl : list ref) (v : ref) (cells : list ref) :
  Base g0 algorithm g op cl ->
  parentChain g v cells ->
  forall d, In v cl -> dist g v = Fin d ->
    NoDup cells
    /\ In v cells
    /\ forall w, In w cells -> In w cl /\ exists dw, dist g w = Fin dw /\ dw <= d.
Proof.
  intros HB. induction 1 as [v Hroot|v u cells Hparent Hchain IH]; intros d Hv Hd.
  - split; [repeat constructor; intros []|]. split; [now left|].
    intros w [<-|[]]. split; [exact Hv|]. exists d. split; [exact Hd | lia].
  - destruct (b_closed _ _ _ _ _ HB v Hv) as [Hvin _].
    destruct (b_parent _ _ _ _ _ HB v d Hvin Hd)
      as [(_ & _ & Hnone)|(_ & [u' (Hu' & Hucl & _ & Hud)])]; [congruence|].
    assert (u' = u) by congruence. subst u'.
    destruct (IH (d - 1) Hucl Hud) as (Hnd & _ & Hcells).
    split; [|split].
    + apply NoDup_app; [exact Hnd | repeat constructor; intros []|].
      intros w Hw [Heq|[]]. subst w. destruct (Hcells v Hw) as [_ [dw [Hdw Hle]]].
      rewrite Hd in Hdw. injection Hdw as <-. lia.
    + apply in_app_iff. right. now left.
    + intros w Hw. apply in_app_iff in Hw. destruct Hw as [Hw|[<-|[]]].
      * destruct (Hcells w Hw) as [Hwcl [dw [Hdw Hle]]].
        split; [exact Hwcl|]. exists dw. split; [exact Hdw | lia].
      * split; [exact Hv|]. exists d. split; [exact Hd | lia].
Qed.

Lemma includes_app (l1 l2 : list ref) (w : ref) :
  includes (l1 ++ l2) w = includes l1 w || includes l2 w.
Proof. unfold includes. apply existsb_app. Qed.

(** The reconstruction writes [path] on the nodes of the chain that are not
    endpoints, and on no other node. *)
Lemma reconstruct_states (g : Grid) (v : ref) (cells : list ref) :
  parentChain g v cells ->
  (forall w, In w cells -> inGrid w /\ Node.state (nodeAt g w) <> wall) ->
  forall fuel g1 acc g2 out,
    sameButStates g g1 ->
    reconstruct fuel g1 (Some v) acc = Some (g2, out) ->
    forall w, inGrid w ->
      Node.state (nodeAt g2 w)
      = if includes cells w && negb (isEndpoint (nodeAt g1 w)) then path
        else Node.state (nodeAt g1 w).
Proof.
  induction 1 as [v Hroot|v u cells Hparent Hchain IH];
    intros Hcells fuel g1 acc g2 out Hsame Hrec w Hw.
  - destruct fuel as [|fuel]; [discriminate Hrec|].
    destruct (Hcells v (or_introl eq_refl)) as [Hv Hnw].
    pose proof Hsame as [Hs1 Hf1].
    assert (Hnw1 : Node.state (nodeAt g1 v) <> wall).
    { destruct (Hf1 v Hv) as (_ & _ & _ & _ & _ & Hwl & _). tauto. }
    assert (Hsame' : sameButStates g1 (mark path g1 v))
      by (apply mark_sameButStates; try discriminate; assumption).
    pose proof (sameButStates_trans _ _ _ Hsame Hsame') as [Hs2 Hf2].
    destruct (Hf2 v Hv) as (_ & _ & _ & _ & Hp2 & _).
    cbn [reconstruct] in Hrec. rewrite Hp2, Hroot, reconstruct_done in Hrec.
    injection Hrec as <- _.
    rewrite (mark_nodeAt path g1 v w Hs1 Hv Hw).
    cbn [includes existsb]. rewrite orb_false_r.
    destruct (ref_eqb w v) eqn:E; [|reflexivity].
    apply ref_eqb_eq in E. subst w.
    destruct (isEndpoint (nodeAt g1 v)); reflexivity.
  - destruct fuel as [|fuel]; [discriminate Hrec|].
    destruct (Hcells v) as [Hv Hnw]; [apply in_app_iff; right; now left|].
    pose proof Hsame as [Hs1 Hf1].
    assert (Hnw1 : Node.state (nodeAt g1 v) <> wall).
    { destruct (Hf1 v Hv) as (_ & _ & _ & _ & _ & Hwl & _). tauto. }
    assert (Hsame' : sameButStates g1 (mark path g1 v))
      by (apply mark_sameButStates; try discriminate; assumption).
    pose proof (sameButStates_trans _ _ _ Hsame Hsame') as Hsame2.
    pose proof Hsame2 as [Hs2 Hf2].
    destruct (Hf2 v Hv) as (_ & _ & _ & _ & Hp2 & _).
    cbn [reconstruct] in Hrec. rewrite Hp2, Hparent in Hrec.
    rewrite (IH (fun x Hx => Hcells x (proj2 (in_app_iff _ _ _) (or_introl Hx)))
               fuel (mark path g1 v) (v :: acc) g2 out Hsame2 Hrec w Hw).
    rewrite (sameButStates_isEndpoint g1 (mark path g1 v) w Hsame' Hw).
    rewrite (mark_nodeAt path g1 v w Hs1 Hv Hw).
    rewrite includes_app. cbn [includes existsb]. rewrite orb_false_r.
    fold (includes cells w).
    destruct (ref_eqb w v) eqn:E.
    + apply ref_eqb_eq in E. subst w. rewrite orb_true_r. cbn [andb].
      destruct (isEndpoint (nodeAt g1 v)); cbn [negb andb];
        [rewrite andb_false_r; reflexivity|].
      destruct (includes cells v); reflexivity.
    + rewrite orb_false_r. reflexivity.
Qed.

Lemma found_states (algorithm : AlgorithmType) (grid : Grid) (st : SearchState) :
  wellFormed grid ->
  Inv grid algorithm st -> pathFound st = true -> StatesOk grid st ->
  exists finalGrid cells,
    reconstructPath st = Some (finalGrid, cells)
    /\ isPathTo grid goalRef cells = true
    /\ (forall p, isPathTo grid goalRef p = true -> edges cells <= edges p)
    /\ NoDup cells
    /\ In startRef cells /\ In goalRef cells
    /\ (forall w, In w cells -> In w (closedSet st))
    /\ forall w, inGrid w ->
         Node.state (nodeAt finalGrid w)
         = if includes cells w && negb (isEndpoint (nodeAt grid w)) then path
           else expectedState grid (closedSet st) w.
Proof.
  intros Hwf HI Hfound Hst.
  destruct (found_reconstruction algorithm grid st HI Hfound)
    as [finalGrid [cells (Hrec & Hchain & Hpath & Hmin & _ & _)]].
  destruct (found_distance grid algorithm st HI Hfound) as [d (Hd & _ & _ & _)].
  pose proof HI as [HB _ _ Hgoal]. rewrite Hfound in Hgoal.
  destruct (chain_closed grid algorithm _ _ _ goalRef cells HB Hchain d Hgoal Hd)
    as (Hnd & Hgin & Hcells).
  exists finalGrid, cells. split; [exact Hrec|]. split; [exact Hpath|].
  split; [exact Hmin|]. split; [exact Hnd|].
  split; [|split; [exact Hgin|]].
  { unfold isPathTo in Hpath. destruct cells as [|s cells']; [discriminate|].
    apply andb_true_iff in Hpath. destruct Hpath as [Hpath _].
    apply andb_true_iff in Hpath. destruct Hpath as [Hs _].
    apply ref_eqb_eq in Hs. subst s. now left. }
  split; [intros w Hw; now apply Hcells|].
  intros w Hw.
  assert (Hin : forall x, In x cells ->
                  inGrid x /\ Node.state (nodeAt (newGrid st) x) <> wall).
  { intros x Hx. destruct (Hcells x Hx) as [Hxcl [dx [Hdx _]]].
    destruct (b_closed _ _ _ _ _ HB x Hxcl) as [Hxin _]. split; [exact Hxin|].
    intros Hwall.
    destruct (reach_passable grid x dx (b_sound _ _ _ _ _ HB x dx Hxin Hdx))
      as [-> |[_ Hpass]].
    - rewrite (proj2 (b_start _ _ _ _ _ HB startRef Hxin) eq_refl) in Hwall.
      discriminate.
    - apply Hpass. now apply (b_wall _ _ _ _ _ HB x Hxin). }
  unfold reconstructPath in Hrec.
  rewrite (reconstruct_states (newGrid st) goalRef cells Hchain Hin pathFuel
             (newGrid st) [] finalGrid cells
             (sameButStates_refl _ (b_shaped _ _ _ _ _ HB)) Hrec w Hw).
  rewrite (Hst w Hw).
  assert (Hend : isEndpoint (nodeAt (newGrid st) w) = isEndpoint (nodeAt grid w)).
  { pose proof (endpoint_spec grid w Hwf Hw) as H1.
    pose proof (endpoint_spec (newGrid st) w (Base_wellFormed _ _ _ _ _ HB) Hw) as H2.
    destruct (isEndpoint (nodeAt (newGrid st) w)), (isEndpoint (nodeAt grid w));
      try reflexivity.
    - symmetry. apply H1, H2. reflexivity.
    - apply H2, H1. reflexivity. }
  rewrite Hend. reflexivity.
Qed.

(** *** Counting the cells of the grid *)

Lemma NoDup_list_prod {A B : Type} (l1 : list A) (l2 : list B) :
  NoDup l1 -> NoDup l2 -> NoDup (list_prod l1 l2).
Proof.
  intros H1 H2. induction H1 as [|a l1 Ha H1 IH]; cbn [list_prod]; [constructor|].
  apply NoDup_app.
  - clear -H2. induction H2 as [|b l2 Hb H2 IH2]; cbn [map]; constructor; [|exact IH2].
    rewrite in_map_iff. intros [y [Hy Hin]]. injection Hy as ->. contradiction.
  - exact IH.
  - intros [x y] Hin1 Hin2. apply in_map_iff in Hin1. destruct Hin1 as [y' [Heq _]].
    injection Heq as <- <-. apply in_prod_iff in Hin2. destruct Hin2 as [Hin2 _].
    contradiction.
Qed.

Lemma NoDup_map_of_nat (l : list nat) : NoDup l -> NoDup (map Z.of_nat l).
Proof.
  induction 1 as [|a l Ha H IH]; cbn [map]; constructor; [|exact IH].
  rewrite in_map_iff. intros [y [Hy Hin]]. apply Nat2Z.inj in Hy. subst y.
  contradiction.
Qed.

Lemma allRefs_NoDup : NoDup allRefs.
Proof.
  unfold allRefs. apply NoDup_list_prod; apply NoDup_map_of_nat; apply seq_NoDup.
Qed.

Lemma allRefs_inGrid (v : ref) : In v allRefs -> inGrid v.
Proof.
  destruct v as [x y]. unfold allRefs. intros H.
  apply (in_prod_iff (A := Z) (B := Z)) in H. rewrite !in_map_iff in H.
  destruct H as [[i [<- Hi]] [j [<- Hj]]]. apply in_seq in Hi, Hj.
  unfold inGrid, GRID_SIZE in *. cbn [fst snd]. lia.
Qed.

Lemma colouredb_spec (g : Grid) (v : ref) :
  colouredb g v = true
  <-> Node.state (nodeAt g v) = explored \/ Node.state (nodeAt g v) = path.
Proof.
  unfold colouredb. destruct (Node.state (nodeAt g v)); split;
    try discriminate; try (intros [H|H]; discriminate H); auto.
Qed.

(** A duplicate-free list of cells, split into the cells of [extra] and the
    cells that a predicate on the grid picks. *)
Lemma split_count (pick : ref -> bool) (cl extra : list ref) :
  NoDup cl -> NoDup extra -> incl extra cl ->
  (forall v, In v cl -> inGrid v) ->
  (forall v, inGrid v -> (pick v = true <-> In v cl /\ ~ In v extra)) ->
  List.length cl = (List.length extra + List.length (filter pick allRefs))%nat.
Proof.
  intros Hnd Hnde Hincl Hin Hpick.
  rewrite <- length_app. apply Permutation_length. apply NoDup_Permutation.
  - exact Hnd.
  - apply NoDup_app; [exact Hnde | apply NoDup_filter, allRefs_NoDup|].
    intros a Ha Hf. apply filter_In in Hf. destruct Hf as [Hall Hp].
    apply (Hpick a (allRefs_inGrid a Hall)) in Hp. now destruct Hp.
  - intros x. rewrite in_app_iff, filter_In. split.
    + intros Hx. destruct (in_dec ref_eq_dec x extra) as [He|He]; [now left|].
      right. split; [apply inGrid_allRefs; now apply Hin|].
      apply Hpick; [now apply Hin | now split].
    + intros [He|[Hall Hp]]; [now apply Hincl|].
      apply (Hpick x (allRefs_inGrid x Hall)) in Hp. now destruct Hp.
Qed.

Lemma closed_count (g : Grid) (cl : list ref) (found : bool) :
  NoDup cl -> (forall v, In v cl -> inGrid v) ->
  In startRef cl -> (if found then In goalRef cl else ~ In goalRef cl) ->
  (forall v, inGrid v ->
     (colouredb g v = true <-> In v cl /\ v <> startRef /\ v <> goalRef)) ->
  Z.of_nat (List.length cl)
  = Z.of_nat (List.length (colouredCells g)) + 1 + (if found then 1 else 0).
Proof.
  intros Hnd Hin Hstart Hgoal Hcol. unfold colouredCells.
  assert (Hne : startRef <> goalRef) by discriminate.
  destruct found.
  - rewrite (split_count (colouredb g) cl [startRef; goalRef] Hnd).
    + change (List.length [startRef; goalRef]) with 2%nat. lia.
    + repeat constructor; simpl; intuition congruence.
    + intros x [<-|[<-|[]]]; assumption.
    + exact Hin.
    + intros v Hv. rewrite (Hcol v Hv). simpl. intuition congruence.
  - rewrite (split_count (colouredb g) cl [startRef] Hnd).
    + change (List.length [startRef]) with 1%nat. lia.
    + repeat constructor; simpl; intuition.
    + intros x [<-|[]]; assumption.
    + exact Hin.
    + intros v Hv. rewrite (Hcol v Hv). simpl. split.
      * intros (H1 & H2 & H3). split; [exact H1|]. intros [H|[]]. congruence.
      * intros (H1 & H2). split; [exact H1|]. split; [intros ->; apply H2; now left|].
        intros ->. contradiction.
Qed.

Lemma run_described (host : Host) (algorithm : AlgorithmType) (grid : Grid)
    (stats : AlgorithmStats) :
  wellFormed grid -> algorithm = dijkstra \/ algorithm = astar ->
  exists st finalGrid stats',
    search algorithm grid = Some st
    /\ Inv grid algorithm st
    /\ runAlgorithm host algorithm grid stats = Some (finalGrid, stats')
    /\ nodesExplored stats' = explored_count st
    /\ CountOk st
    /\ In startRef (closedSet st)
    /\ forall v, inGrid v ->
         (colouredb finalGrid v = true
          <-> In v (closedSet st) /\ v <> startRef /\ v <> goalRef).
Proof.
  intros Hwf Halg.
  destruct (search_described algorithm grid Hwf) as [st (Hs & HI & Hend & Hc & Hst)].
  pose proof HI as [HB _ Hstart Hgoal].
  rewrite (runAlgorithm_unfold host algorithm grid stats st
             (wellFormed_nonempty grid Hwf) Halg Hs).
  destruct (pathFound st) eqn:Hf.
  - destruct (found_states algorithm grid st Hwf HI Hf Hst)
      as [finalGrid [cells (Hrec & _ & _ & _ & Hsin & _ & Hcells & Hfinal)]].
    rewrite Hrec. exists st. do 2 eexists.
    split; [exact Hs|]. split; [exact HI|]. split; [reflexivity|].
    split; [reflexivity|]. split; [exact Hc|]. split; [now apply Hcells|].
    intros v Hv. rewrite colouredb_spec, (Hfinal v Hv).
    pose proof (endpoint_spec grid v Hwf Hv) as Hep.
    pose proof (expectedState_explored grid (closedSet st) v Hwf Hv) as Hex.
    pose proof (expectedState_plain grid (closedSet st) v) as [_ Hnp].
    destruct (includes cells v) eqn:Hi; cbn [andb].
    + apply includes_In in Hi. apply Hcells in Hi.
      destruct (isEndpoint (nodeAt grid v)); cbn [negb].
      * split; [intros [H|H]; [now apply Hex | contradiction]|].
        intros H. left. now apply Hex.
      * split; [|intros _; now right]. intros _. split; [exact Hi|].
        split; intros H; [assert (false = true) by (apply Hep; now left)
                         |assert (false = true) by (apply Hep; now right)];
          discriminate.
    + split; [intros [H|H]; [now apply Hex | contradiction]|].
      intros H. left. now apply Hex.
  - assert (Ho : openSet st = []) by (destruct Hend as [H|H]; [discriminate | exact H]).
    pose proof (exhausted_count grid algorithm st HI Hc Hf Ho) as Hpos.
    apply Z.ltb_lt in Hpos. rewrite Hpos.
    exists st. do 2 eexists.
    split; [exact Hs|]. split; [exact HI|]. split; [reflexivity|].
    split; [reflexivity|]. split; [exact Hc|].
    split; [destruct Hstart as [H|H]; [exact H | rewrite Ho in H; discriminate]|].
    intros v Hv. rewrite colouredb_spec, (Hst v Hv).
    pose proof (expectedState_explored grid (closedSet st) v Hwf Hv) as Hex.
    pose proof (expectedState_plain grid (closedSet st) v) as [_ Hnp].
    split; [intros [H|H]; [now apply Hex | contradiction]|].
    intros H. left. now apply Hex.
Qed.

(** X14: after a run in Dijkstra or A* mode on a well-formed grid, the number
    of nodes explored of the statistics is one more than the number of cells
    left in state [explored] or [path] (the start cell is counted, the goal
    cell is not), and it is at most the number of cells of the grid. *)
Theorem explored_drawn (host : Host) (algorithm : AlgorithmType) (grid : Grid)
    (stats : AlgorithmStats) :
  wellFormed grid -> algorithm = dijkstra \/ algorithm = astar ->
  exists finalGrid stats',
    runAlgorithm host algorithm grid stats = Some (finalGrid, stats')
    /\ nodesExplored stats' = Z.of_nat (List.length (colouredCells finalGrid)) + 1
    /\ nodesExplored stats' <= GRID_SIZE * GRID_SIZE.
Proof.
  intros Hwf Halg.
  destruct (run_described host algorithm grid stats Hwf Halg)
    as [st [finalGrid [stats' (Hs & HI & Hrun & Hn & Hc & Hstart & Hcol)]]].
  exists finalGrid, stats'. split; [exact Hrun|].
  pose proof HI as [HB _ _ Hgoal].
  pose proof (closed_count finalGrid (closedSet st) (pathFound st)
                (b_closed_nodup _ _ _ _ _ HB)
                (fun v Hv => proj1 (b_closed _ _ _ _ _ HB v Hv))
                Hstart Hgoal Hcol) as Hlen.
  pose proof (closed_bounded grid algorithm st HI) as Hbound.
  unfold CountOk in Hc. rewrite Hn, Hc.
  destruct (pathFound st); unfold GRID_SIZE in *; lia.
Qed.

(** *** The path drawn and its length *)

(** X15: when the grid has a path to the goal, the run draws a path of the
    grid from the start to the goal that visits no cell twice: the cells left
    in state [path] are exactly the cells of that path other than the start
    and the goal, their number is the path length of the statistics less one,
    and no cell is left in state [exploring]. *)
Theorem path_drawn (host : Host) (algorithm : AlgorithmType) (grid : Grid)
    (stats : AlgorithmStats) :
  wellFormed grid -> algorithm = dijkstra \/ algorithm = astar ->
  (exists p, isPathTo grid goalRef p = true) ->
  exists finalGrid stats' cells,
    runAlgorithm host algorithm grid stats = Some (finalGrid, stats')
    /\ isPathTo grid goalRef cells = true
    /\ NoDup cells
    /\ pathLength stats' = edges cells
    /\ (forall v, inGrid v ->
          (Node.state (nodeAt finalGrid v) = path
           <-> In v cells /\ v <> startRef /\ v <> goalRef))
    /\ (forall v, inGrid v -> Node.state (nodeAt finalGrid v) <> exploring)
    /\ Z.of_nat (List.length (pathCells finalGrid)) = pathLength stats' - 1.
Proof.
  intros Hwf Halg Hex.
  destruct (search_described algorithm grid Hwf) as [st (Hs & HI & Hend & Hc & Hst)].
  assert (Hf : pathFound st = true).
  { destruct (pathFound st) eqn:Hf; [reflexivity|].
    destruct Hend as [H|H]; [discriminate|]. destruct Hex as [p Hp].
    exfalso. exact (not_found_no_walk grid algorithm st HI Hf H _
                      (isPathTo_reach grid goalRef p Hp)). }
  pose proof HI as [HB _ _ _].
  destruct (found_states algorithm grid st Hwf HI Hf Hst)
    as [finalGrid [cells (Hrec & Hpath & _ & Hnd & Hsin & Hgin & Hcells & Hfinal)]].
  rewrite (runAlgorithm_unfold host algorithm grid stats st
             (wellFormed_nonempty grid Hwf) Halg Hs), Hf, Hrec.
  exists finalGrid. eexists. exists cells. split; [reflexivity|].
  split; [exact Hpath|]. split; [exact Hnd|]. split; [reflexivity|].
  assert (Hiff : forall v, inGrid v ->
            (Node.state (nodeAt finalGrid v) = path
             <-> In v cells /\ v <> startRef /\ v <> goalRef)).
  { intros v Hv. rewrite (Hfinal v Hv).
    pose proof (endpoint_spec grid v Hwf Hv) as Hep.
    pose proof (expectedState_plain grid (closedSet st) v) as [_ Hnp].
    destruct (includes cells v) eqn:Hi; cbn [andb].
    - apply includes_In in Hi.
      destruct (isEndpoint (nodeAt grid v)); cbn [negb].
      + split; [contradiction|]. intros (_ & H1 & H2).
        destruct (proj1 Hep eq_refl); contradiction.
      + split; [|reflexivity]. intros _. split; [exact Hi|].
        split; intros H; [assert (false = true) by (apply Hep; now left)
                         |assert (false = true) by (apply Hep; now right)];
          discriminate.
    - apply includes_not_In in Hi. split; [contradiction|]. intros [H _].
      contradiction. }
  split; [exact Hiff|]. split.
  - intros v Hv. rewrite (Hfinal v Hv).
    pose proof (expectedState_plain grid (closedSet st) v) as [Hne _].
    destruct (includes cells v && negb (isEndpoint (nodeAt grid v)));
      [discriminate | exact Hne].
  - cbn [pathLength]. unfold edges, pathCells.
    assert (Hne : startRef <> goalRef) by discriminate.
    rewrite (split_count
               (fun v => NodeState_eqb (Node.state (nodeAt finalGrid v)) path)
               cells [startRef; goalRef] Hnd).
    + change (List.length [startRef; goalRef]) with 2%nat. lia.
    + repeat constructor; simpl; intuition congruence.
    + intros x [<-|[<-|[]]]; assumption.
    + intros v Hv. now apply (b_closed _ _ _ _ _ HB), Hcells.
    + intros v Hv. rewrite NodeState_eqb_eq, (Hiff v Hv). simpl.
      intuition congruence.
Qed.

(** Every step changes the parity of [x + y], and takes the Manhattan distance
    to the goal down by one at most. *)
Lemma reach_parity (g : Grid) (v : ref) (k : Z) :
  reach g v k -> Z.even (k + fst v + snd v) = true /\ hfun startRef <= k + hfun v.
Proof.
  induction 1 as [|u v k Hreach [IHe IHh] Hadj Hpass].
  - split; [reflexivity | lia].
  - pose proof (hfun_adjacent u v Hadj) as Hh.
    split; [|lia].
    rewrite Z.even_spec in *. destruct IHe as [m Hm].
    unfold adjacent in Hadj.
    destruct (Z.eq_dec (fst v + snd v) (fst u + snd u + 1)) as [E|E].
    + exists (m + 1). lia.
    + exists m. lia.
Qed.

(** X11: when the grid has a path to the goal, the path length of a run in
    Dijkstra or A* mode is even, at least 34 and below 400, and the
    [optimalPath] flag is set exactly when the length is 34, the Manhattan
    distance from the start to the goal. *)
Theorem optimal_flag (host : Host) (algorithm : AlgorithmType) (grid : Grid)
    (stats : AlgorithmStats) :
  wellFormed grid -> algorithm = dijkstra \/ algorithm = astar ->
  (exists p, isPathTo grid goalRef p = true) ->
  exists finalGrid stats',
    runAlgorithm host algorithm grid stats = Some (finalGrid, stats')
    /\ 2 * (GRID_SIZE - 3) <= pathLength stats' < GRID_SIZE * GRID_SIZE
    /\ Z.even (pathLength stats') = true
    /\ (optimalPath stats' = true <-> pathLength stats' = 2 * (GRID_SIZE - 3)).
Proof.
  intros Hwf Halg Hex.
  destruct (search_finds algorithm grid Hwf Hex) as [st (Hs & HI & Hf)].
  destruct (found_reconstruction algorithm grid st HI Hf)
    as [finalGrid [cells (Hrec & _ & Hpath & Hmin & _ & _)]].
  destruct (found_distance grid algorithm st HI Hf) as [d (_ & Hreach & _ & Hlt)].
  rewrite (runAlgorithm_unfold host algorithm grid stats st
             (wellFormed_nonempty grid Hwf) Halg Hs), Hf, Hrec.
  do 2 eexists. split; [reflexivity|]. cbn [pathLength optimalPath].
  destruct (reach_parity grid goalRef _ (isPathTo_reach grid goalRef cells Hpath))
    as [Heven Hlow].
  destruct (reach_isPathTo grid goalRef d Hreach) as [p [Hp Hlen]].
  pose proof (Hmin p Hp) as Hle.
  change (hfun startRef) with 34 in Hlow. rewrite hfun_goal in Hlow.
  change (fst goalRef) with 18 in Heven. change (snd goalRef) with 18 in Heven.
  assert (Heven' : Z.even (edges cells) = true).
  { rewrite Z.even_spec in *. destruct Heven as [m Hm]. exists (m - 18). lia. }
  unfold GRID_SIZE in *.
  split; [lia|]. split; [exact Heven'|].
  rewrite Z.leb_le. split; [|lia].
  intros H35. rewrite Z.even_spec in Heven'. destruct Heven' as [m Hm]. lia.
Qed.

(** *** The heuristic *)

Lemma calculateHeuristic_hfun (grid : Grid) (v : ref) :
  wellFormed grid -> inGrid v ->
  calculateHeuristic (nodeAt grid v) (nodeAt grid goalRef) = hfun v.
Proof.
  intros Hwf Hv. assert (Hg : inGrid goalRef) by grid_lia.
  unfold calculateHeuristic, hfun.
  now rewrite (wf_x _ Hwf v Hv), (wf_y _ Hwf v Hv), (wf_x _ Hwf _ Hg), (wf_y _ Hwf _ Hg).
Qed.

Lemma last_default (l : list ref) :
  forall a d d', last (a :: l) d = last (a :: l) d'.
Proof.
  induction l as [|b l IH]; intros a d d'; [reflexivity|].
  change (last (b :: l) d = last (b :: l) d'). apply IH.
Qed.

Lemma walk_hfun (g : Grid) (p : list ref) :
  forall u, walk g u p = true -> hfun u <= hfun (last p u) + Z.of_nat (List.length p).
Proof.
  induction p as [|v p IH]; intros u Hwalk.
  - simpl. lia.
  - cbn [walk] in Hwalk. apply andb_true_iff in Hwalk. destruct Hwalk as [Hstep Hwalk].
    apply andb_true_iff in Hstep. destruct Hstep as [Hadj _].
    apply adjacentb_spec in Hadj.
    pose proof (hfun_adjacent u v Hadj). pose proof (IH v Hwalk).
    assert (Hlast : last (v :: p) u = last p v)
      by (destruct p; [reflexivity | apply (last_default p r u v)]).
    rewrite Hlast. cbn [List.length]. lia.
Qed.

(** X10: on a well-formed grid the heuristic that [calculateHeuristic] gives
    a cell against the goal node exceeds that of an adjacent cell by one at
    most, never exceeds the number of steps of a walk from the cell to the
    goal, and is 0 on the goal cell only. *)
Theorem heuristic_bounds (grid : Grid) (u v : ref) (p : list ref) :
  wellFormed grid -> inGrid u -> inGrid v ->
  (adjacent u v ->
   calculateHeuristic (nodeAt grid u) (nodeAt grid goalRef)
   <= calculateHeuristic (nodeAt grid v) (nodeAt grid goalRef) + 1)
  /\ (walk grid u p = true -> last p u = goalRef ->
      calculateHeuristic (nodeAt grid u) (nodeAt grid goalRef)
      <= Z.of_nat (List.length p))
  /\ (calculateHeuristic (nodeAt grid u) (nodeAt grid goalRef) = 0 <-> u = goalRef).
Proof.
  intros Hwf Hu Hv.
  rewrite (calculateHeuristic_hfun grid u Hwf Hu), (calculateHeuristic_hfun grid v Hwf Hv).
  split; [apply hfun_adjacent|]. split.
  - intros Hwalk Hlast. pose proof (walk_hfun grid p u Hwalk) as H.
    rewrite Hlast, hfun_goal in H. lia.
  - split.
    + intros H0. destruct (ref_eq_dec u goalRef) as [E|E]; [exact E|].
      pose proof (hfun_positive u E). lia.
    + intros ->. apply hfun_goal.
Qed.

(** *** The neighbours of a node *)

Lemma getNeighbors_shape (node : Node.t) (g : Grid) :
  NoDup (getNeighbors node g) /\ (List.length (getNeighbors node g) <= 4)%nat.
Proof.
  unfold getNeighbors, directions. cbn [flat_map fst snd app].
  repeat match goal with
         | |- context [if ?b then _ else _] => destruct b
         end;
    cbn [app List.length]; (split; [|lia]);
    repeat (constructor;
            [cbn [In]; intros H;
             repeat (destruct H as [H|H]; [injection H; lia|]); exact H|]);
    constructor.
Qed.

(** X9: on a well-formed grid the neighbours of a node are exactly the cells
    of the grid next to it, in its row or its column, that are no walls; the
    list has no duplicates, four entries at most, and never the node
    itself. *)
Theorem getNeighbors_cells (g : Grid) (u : ref) :
  wellFormed g -> inGrid u ->
  (forall v, In v (getNeighbors (nodeAt g u) g) <-> adjacent u v /\ passable g v)
  /\ NoDup (getNeighbors (nodeAt g u) g)
  /\ (List.length (getNeighbors (nodeAt g u) g) <= 4)%nat
  /\ ~ In u (getNeighbors (nodeAt g u) g).
Proof.
  intros Hwf Hu.
  pose proof (getNeighbors_spec g u) as Hspec.
  specialize (fun v => Hspec v (wf_x _ Hwf u Hu) (wf_y _ Hwf u Hu)).
  split; [exact Hspec|].
  destruct (getNeighbors_shape (nodeAt g u) g) as [Hnd Hlen].
  split; [exact Hnd|]. split; [exact Hlen|].
  intros Hin. apply Hspec in Hin. destruct Hin as [Hadj _].
  unfold adjacent in Hadj. lia.
Qed.

(** *** The grid made at mount *)

Lemma initializeGrid_cells (rnd : Z -> Z -> bool) (v : ref) :
  inGrid v ->
  (Node.state (nodeAt (initializeGrid rnd) v) = wall
   <-> rnd (fst v) (snd v) = true /\ v <> startRef /\ v <> goalRef)
  /\ (Node.state (nodeAt (initializeGrid rnd) v) = empty
      <-> rnd (fst v) (snd v) = false /\ v <> startRef /\ v <> goalRef)
  /\ Node.distance (nodeAt (initializeGrid rnd) v) = PosInf
  /\ Node.heuristic (nodeAt (initializeGrid rnd) v) = 0
  /\ Node.fScore (nodeAt (initializeGrid rnd) v) = PosInf
  /\ Node.parent (nodeAt (initializeGrid rnd) v) = None.
Proof.
  intros [Hx Hy]. unfold nodeAt, initializeGrid.
  rewrite (nth_coords _ [] (snd v) Hy). rewrite (nth_coords _ blank (fst v) Hx).
  destruct v as [vx vy].
  cbn [fst snd Node.state Node.distance Node.heuristic Node.fScore Node.parent] in *.
  assert (Hs : (vx =? 1) && (vy =? 1) = true <-> (vx, vy) = startRef).
  { rewrite andb_true_iff, !Z.eqb_eq. unfold startRef.
    split; [intros [-> ->]; reflexivity|]. intros H; injection H; auto. }
  assert (Hg : (vx =? GRID_SIZE - 2) && (vy =? GRID_SIZE - 2) = true
               <-> (vx, vy) = goalRef).
  { rewrite andb_true_iff, !Z.eqb_eq. unfold goalRef.
    split; [intros [-> ->]; reflexivity|]. intros H; injection H; auto. }
  destruct ((vx =? GRID_SIZE - 2) && (vy =? GRID_SIZE - 2));
    destruct ((vx =? 1) && (vy =? 1));
    destruct (rnd vx vy); cbn [andb negb];
    repeat split; try reflexivity; try discriminate;
    try (intros _; apply Hs; reflexivity); try (intros _; apply Hg; reflexivity);
    intuition (try discriminate; try congruence).
Qed.

(** X8: whatever the random draws, [initializeGrid] makes a well-formed grid;
    a cell is a wall exactly when its draw fell below the threshold and it is
    neither the start nor the goal cell, it is empty exactly when the draw did
    not and it is neither of the two, and every node starts with an infinite
    distance, heuristic 0, an infinite score and no parent. *)
Theorem initializeGrid_fresh (rnd : Z -> Z -> bool) :
  wellFormed (initializeGrid rnd)
  /\ forall v, inGrid v ->
       (Node.state (nodeAt (initializeGrid rnd) v) = wall
        <-> rnd (fst v) (snd v) = true /\ v <> startRef /\ v <> goalRef)
       /\ (Node.state (nodeAt (initializeGrid rnd) v) = empty
           <-> rnd (fst v) (snd v) = false /\ v <> startRef /\ v <> goalRef)
       /\ Node.distance (nodeAt (initializeGrid rnd) v) = PosInf
       /\ Node.heuristic (nodeAt (initializeGrid rnd) v) = 0
       /\ Node.fScore (nodeAt (initializeGrid rnd) v) = PosInf
       /\ Node.parent (nodeAt (initializeGrid rnd) v) = None.
Proof.
  split; [apply initializeGrid_wellFormed | apply initializeGrid_cells].
Qed.

(** *** Sample runs *)

Lemma enclosedSample_wellFormed : wellFormed enclosedSample.
Proof. apply initializeGrid_wellFormed. Qed.

Lemma enclosedSample_no_path : forall p, isPathTo enclosedSample goalRef p = false.
Proof.
  intros p. destruct (isPathTo enclosedSample goalRef p) eqn:Hp; [|reflexivity].
  exfalso.
  destruct (search_ends dijkstra enclosedSample enclosedSample_wellFormed)
    as [st (Hs & HI & Hend)].
  assert (Hf : option_map pathFound (search dijkstra enclosedSample) = Some false)
    by (vm_compute; reflexivity).
  rewrite Hs in Hf. injection Hf as Hf.
  destruct Hend as [H|H]; [congruence|].
  exact (not_found_no_walk enclosedSample dijkstra st HI Hf H _
           (isPathTo_reach _ _ p Hp)).
Qed.

Lemma startRef_inGrid : inGrid startRef.
Proof. unfold inGrid, startRef, GRID_SIZE. cbn [fst snd]. lia. Qed.

Lemma getNeighbors_cells_witness :
  wellFormed sampleGrid /\ inGrid startRef
  /\ (forall v, In v (getNeighbors (nodeAt sampleGrid startRef) sampleGrid)
                <-> adjacent startRef v /\ passable sampleGrid v)
  /\ NoDup (getNeighbors (nodeAt sampleGrid startRef) sampleGrid)
  /\ (List.length (getNeighbors (nodeAt sampleGrid startRef) sampleGrid) <= 4)%nat
  /\ ~ In startRef (getNeighbors (nodeAt sampleGrid startRef) sampleGrid).
Proof.
  split; [exact sampleGrid_wellFormed|]. split; [exact startRef_inGrid|].
  exact (getNeighbors_cells sampleGrid startRef sampleGrid_wellFormed startRef_inGrid).
Defined.

Lemma heuristic_bounds_witness :
  wellFormed sampleGrid /\ inGrid startRef /\ inGrid (2, 1)
  /\ adjacent startRef (2, 1)
  /\ walk sampleGrid startRef (tl cornerPath) = true
  /\ last (tl cornerPath) startRef = goalRef
  /\ calculateHeuristic (nodeAt sampleGrid startRef) (nodeAt sampleGrid goalRef)
     <= calculateHeuristic (nodeAt sampleGrid (2, 1)) (nodeAt sampleGrid goalRef) + 1
  /\ calculateHeuristic (nodeAt sampleGrid startRef) (nodeAt sampleGrid goalRef)
     <= Z.of_nat (List.length (tl cornerPath)).
Proof.
  assert (Hin : inGrid (2, 1)) by (unfold inGrid, GRID_SIZE; cbn [fst snd]; lia).
  assert (Hadj : adjacent startRef (2, 1)) by reflexivity.
  assert (Hwalk : walk sampleGrid startRef (tl cornerPath) = true)
    by (vm_compute; reflexivity).
  assert (Hlast : last (tl cornerPath) startRef = goalRef) by reflexivity.
  destruct (heuristic_bounds sampleGrid startRef (2, 1) (tl cornerPath)
              sampleGrid_wellFormed startRef_inGrid Hin) as (H1 & H2 & _).
  split; [exact sampleGrid_wellFormed|]. split; [exact startRef_inGrid|].
  split; [exact Hin|]. split; [exact Hadj|]. split; [exact Hwalk|].
  split; [exact Hlast|]. split; [exact (H1 Hadj) | exact (H2 Hwalk Hlast)].
Defined.

Lemma optimal_flag_witness :
  wellFormed sampleGrid
  /\ (astar = dijkstra \/ astar = astar)
  /\ (exists p, isPathTo sampleGrid goalRef p = true)
  /\ exists finalGrid stats',
      runAlgorithm sampleHost astar sampleGrid zeroStats = Some (finalGrid, stats')
      /\ 2 * (GRID_SIZE - 3) <= pathLength stats' < GRID_SIZE * GRID_SIZE
      /\ Z.even (pathLength stats') = true
      /\ (optimalPath stats' = true <-> pathLength stats' = 2 * (GRID_SIZE - 3)).
Proof.
  split; [exact sampleGrid_wellFormed|]. split; [now right|].
  split; [exists cornerPath; exact cornerPath_isPathTo|].
  exact (optimal_flag sampleHost astar sampleGrid zeroStats sampleGrid_wellFormed
           (or_intror eq_refl) (ex_intro _ cornerPath cornerPath_isPathTo)).
Defined.

Lemma astar_explores_fewer_witness :
  wellFormed sampleGrid
  /\ exists gD sD gA sA,
      runAlgorithm sampleHost dijkstra sampleGrid zeroStats = Some (gD, sD)
      /\ runAlgorithm sampleHost astar sampleGrid zeroStats = Some (gA, sA)
      /\ nodesExplored sA <= nodesExplored sD.
Proof.
  split; [exact sampleGrid_wellFormed|].
  exact (astar_explores_fewer sampleHost sampleHost sampleGrid zeroStats zeroStats
           sampleGrid_wellFormed).
Defined.

Lemma no_path_run_witness :
  wellFormed enclosedSample
  /\ (dijkstra = dijkstra \/ dijkstra = astar)
  /\ (forall p, isPathTo enclosedSample goalRef p = false)
  /\ exists finalGrid stats',
      runAlgorithm sampleHost dijkstra enclosedSample zeroStats
      = Some (finalGrid, stats')
      /\ pathLength stats' = pathLength zeroStats
      /\ optimalPath stats' = optimalPath zeroStats
      /\ (forall v, inGrid v ->
            (Node.state (nodeAt finalGrid v) = explored
             <-> v <> startRef /\ exists p, isPathTo enclosedSample v p = true))
      /\ (forall v, inGrid v ->
            Node.state (nodeAt finalGrid v) <> exploring
            /\ Node.state (nodeAt finalGrid v) <> path)
      /\ (forall v, inGrid v -> (forall p, isPathTo enclosedSample v p = false) ->
            Node.state (nodeAt finalGrid v)
            = Node.state (resetNode (nodeAt enclosedSample v))).
Proof.
  split; [exact enclosedSample_wellFormed|]. split; [now left|].
  split; [exact enclosedSample_no_path|].
  exact (no_path_run sampleHost dijkstra enclosedSample zeroStats
           enclosedSample_wellFormed (or_introl eq_refl) enclosedSample_no_path).
Defined.

Lemma explored_drawn_witness :
  wellFormed sampleGrid
  /\ (dijkstra = dijkstra \/ dijkstra = astar)
  /\ exists finalGrid stats',
      runAlgorithm sampleHost dijkstra sampleGrid zeroStats = Some (finalGrid, stats')
      /\ nodesExplored stats' = Z.of_nat (List.length (colouredCells finalGrid)) + 1
      /\ nodesExplored stats' <= GRID_SIZE * GRID_SIZE.
Proof.
  split; [exact sampleGrid_wellFormed|]. split; [now left|].
  exact (explored_drawn sampleHost dijkstra sampleGrid zeroStats
           sampleGrid_wellFormed (or_introl eq_refl)).
Defined.

Lemma path_drawn_witness :
  wellFormed sampleGrid
  /\ (astar = dijkstra \/ astar = astar)
  /\ (exists p, isPathTo sampleGrid goalRef p = true)
  /\ exists finalGrid stats' cells,
      runAlgorithm sampleHost astar sampleGrid zeroStats = Some (finalGrid, stats')
      /\ isPathTo sampleGrid goalRef cells = true
      /\ NoDup cells
      /\ pathLength stats' = edges cells
      /\ (forall v, inGrid v ->
            (Node.state (nodeAt finalGrid v) = path
             <-> In v cells /\ v <> startRef /\ v <> goalRef))
      /\ (forall v, inGrid v -> Node.state (nodeAt finalGrid v) <> exploring)
      /\ Z.of_nat (List.length (pathCells finalGrid)) = pathLength stats' - 1.
Proof.
  split; [exact sampleGrid_wellFormed|]. split; [now right|].
  split; [exists cornerPath; exact cornerPath_isPathTo|].
  exact (path_drawn sampleHost astar sampleGrid zeroStats sampleGrid_wellFormed
           (or_intror eq_refl) (ex_intro _ cornerPath cornerPath_isPathTo)).
Defined.


End Search.

(* ===================================================================== *)
(** * Further properties of the command interpreter *)
(* ===================================================================== *)

Section ParsingMore.
Import JsString Regex CodeExecutor.

Lemma startsWith_spec (s p : jsstring) :
  startsWith s p = true <-> exists t, s = p ++ t.
Proof.
  revert s. induction p as [|c p IH]; intros s.
  - destruct s; simpl; split; eauto.
  - destruct s as [|x s]; simpl.
    + split; [discriminate | intros [t Ht]; discriminate Ht].
    + rewrite andb_true_iff, N.eqb_eq, IH. split.
      * intros [-> [t ->]]. now exists t.
      * intros [t Ht]. injection Ht as -> ->. split; [reflexivity | now exists t].
Qed.

Lemma endsWith_spec (s suffix : jsstring) :
  endsWith s suffix = true <-> exists p, s = p ++ suffix.
Proof.
  unfold endsWith. rewrite startsWith_spec. split.
  - intros [t Ht]. exists (rev t).
    rewrite <- (rev_involutive s), Ht, rev_app_distr, rev_involutive. reflexivity.
  - intros [p ->]. exists (rev p). apply rev_app_distr.
Qed.

Lemma match_here_word_same (cs : jsstring) :
  match_here (map Chr cs ++ eoi4) cs = Some [].
Proof.
  induction cs as [|c cs IH]; simpl; [reflexivity|].
  now rewrite N.eqb_refl.
Qed.

Lemma match_here_word_other (cs : jsstring) :
  forall s, s <> cs -> match_here (map Chr cs ++ eoi4) s = None.
Proof.
  induction cs as [|c cs IH]; intros s Hne.
  - destruct s; [congruence | reflexivity].
  - destruct s as [|x s]; [reflexivity|]. simpl.
    destruct (N.eqb_spec x c) as [->|Hxc]; [|reflexivity].
    apply IH. congruence.
Qed.

Lemma regex_match_word (cs s : jsstring) :
  cs <> [] ->
  regex_match (map Chr cs ++ eoi4) s = if endsWith s cs then Some [] else None.
Proof.
  intros Hcs. induction s as [|x s IH].
  - cbn [regex_match]. rewrite match_here_word_other by congruence.
    destruct (endsWith [] cs) eqn:E; [|reflexivity].
    apply endsWith_spec in E. destruct E as [p Hp].
    symmetry in Hp. apply app_eq_nil in Hp. tauto.
  - cbn [regex_match].
    destruct (list_eq_dec N.eq_dec (x :: s) cs) as [Heq|Hne].
    + rewrite Heq, match_here_word_same.
      replace (endsWith cs cs) with true; [reflexivity|].
      symmetry. apply endsWith_spec. now exists [].
    + rewrite match_here_word_other by exact Hne. rewrite IH.
      replace (endsWith (x :: s) cs) with (endsWith s cs); [reflexivity|].
      destruct (endsWith s cs) eqn:E; symmetry.
      * apply endsWith_spec in E. destruct E as [p ->].
        apply endsWith_spec. now exists (x :: p).
      * destruct (endsWith (x :: s) cs) eqn:E'; [|reflexivity].
        apply endsWith_spec in E'. destruct E' as [[|y p] Hp]; [now subst|].
        injection Hp as -> ->.
        assert (endsWith (p ++ cs) cs = true) by (apply endsWith_spec; now exists p).
        congruence.
Qed.

Lemma left_right_exclusive (s : jsstring) :
  endsWith s (units "left") = true -> endsWith s (units "right") = false.
Proof.
  intros Hl. destruct (endsWith s (units "right")) eqn:Hr; [|reflexivity].
  apply endsWith_spec in Hl, Hr. destruct Hl as [p Hp], Hr as [q Hq].
  assert (H : rev s = rev (units "left") ++ rev p) by (rewrite Hp; apply rev_app_distr).
  assert (H' : rev s = rev (units "right") ++ rev q) by (rewrite Hq; apply rev_app_distr).
  rewrite H in H'. discriminate H'.
Qed.

Lemma parseLine_turnOfLine (commands : list string) (line : jsstring) :
  parseLine commands line
  = match turnOfLine line with
    | Some command => commands ++ [command]
    | None => commands
    end.
Proof.
  unfold parseLine, turnOfLine.
  destruct (truthy (trim line) && negb (startsWith (trim line) (units "#")));
    [|reflexivity].
  rewrite forward_re_never_matches.
  change left_re with (map Chr (units "left") ++ eoi4).
  change right_re with (map Chr (units "right") ++ eoi4).
  rewrite !regex_match_word by discriminate.
  destruct (endsWith (trim line) (units "left")); [reflexivity|].
  destruct (endsWith (trim line) (units "right")); reflexivity.
Qed.

Lemma parseLine_app (commands : list string) (line : jsstring) :
  parseLine commands line = commands ++ parseLine [] line.
Proof.
  rewrite !parseLine_turnOfLine. destruct (turnOfLine line); simpl;
    [reflexivity | now rewrite app_nil_r].
Qed.

Lemma fold_parseLine_app (lines : list jsstring) :
  forall commands,
    fold_left parseLine lines commands = commands ++ fold_left parseLine lines [].
Proof.
  induction lines as [|l lines IH]; intros commands; simpl.
  - now rewrite app_nil_r.
  - rewrite IH, (IH (parseLine [] l)), (parseLine_app commands l).
    now rewrite app_assoc.
Qed.

Lemma split_nonempty (sep : N) (s : jsstring) : split sep s <> [].
Proof.
  destruct s as [|c s]; simpl; [discriminate|].
  destruct (N.eqb c sep); [discriminate|].
  destruct (split sep s); discriminate.
Qed.

Lemma split_app (sep : N) (a b : jsstring) :
  split sep (a ++ sep :: b) = split sep a ++ split sep b.
Proof.
  induction a as [|c a IH]; simpl.
  - now rewrite N.eqb_refl.
  - destruct (N.eqb c sep); [now rewrite IH|].
    rewrite IH. pose proof (split_nonempty sep a) as Hne.
    destruct (split sep a) as [|l ls]; [congruence | reflexivity].
Qed.

Lemma split_single (sep : N) (s : jsstring) :
  ~ In sep s -> split sep s = [s].
Proof.
  induction s as [|c s IH]; intros Hnot; simpl; [reflexivity|].
  destruct (N.eqb_spec c sep) as [->|Hne]; [exfalso; apply Hnot; now left|].
  rewrite IH; [reflexivity|]. intros H; apply Hnot; now right.
Qed.

(** X1: one line of a script adds one command at most, and it adds one exactly
    when the trimmed line is not empty, does not start with [#] and ends with
    the word [left] or the word [right]; the command added is that word,
    whatever stands before it on the line. *)
Theorem parseLine_reads_line_endings (commands : list string) (line : jsstring) :
  parseLine commands line
  = match turnOfLine line with
    | Some command => commands ++ [command]
    | None => commands
    end.
Proof. exact (parseLine_turnOfLine commands line). Qed.

(** X2: the commands of two scripts joined by a line break are the commands of
    the first script followed by the commands of the second. *)
Theorem parseCode_joins_scripts (a b : jsstring) :
  parseCode (a ++ 10%N :: b) = parseCode a ++ parseCode b.
Proof.
  unfold parseCode. rewrite split_app, fold_left_app.
  now rewrite fold_parseLine_app.
Qed.

Lemma parseCode_turns (code : jsstring) : Forall isTurn (parseCode code).
Proof.
  unfold parseCode.
  assert (H : forall lines commands,
             Forall isTurn commands -> Forall isTurn (fold_left parseLine lines commands)).
  { induction lines as [|l lines IH]; intros commands Hc; simpl; [exact Hc|].
    apply IH. rewrite parseLine_turnOfLine. unfold turnOfLine.
    destruct (truthy (trim l) && negb (startsWith (trim l) (units "#"))); [|exact Hc].
    destruct (endsWith (trim l) (units "left")).
    - apply Forall_app. split; [exact Hc|]. constructor; [now left | constructor].
    - destruct (endsWith (trim l) (units "right")); [|exact Hc].
      apply Forall_app. split; [exact Hc|]. constructor; [now right | constructor]. }
  apply H. constructor.
Qed.

End ParsingMore.

Section ExecutionMore.
Import JsString CodeExecutor.

Lemma executeCommand_turn (command : string) (gs : GameState) :
  isTurn command ->
  exists d,
    executeCommand command gs
    = (mkCommandResult true None,
       setAgent gs (mkAgent (row (agent gs)) (col (agent gs)) d (totalSteps (agent gs)))).
Proof. intros [-> | ->]; eexists; reflexivity. Qed.

Lemma executeLoop_turns (commands : list string) :
  forall gs,
    Forall isTurn commands ->
    fst (executeLoop commands gs)
    = mkExecutionResult (success (scriptOutcome commands gs)) (totalSteps (agent gs))
        (output gs ++ result_output (scriptOutcome commands gs))
    /\ row (agent (snd (executeLoop commands gs))) = row (agent gs)
    /\ col (agent (snd (executeLoop commands gs))) = col (agent gs)
    /\ totalSteps (agent (snd (executeLoop commands gs))) = totalSteps (agent gs)
    /\ maze (snd (executeLoop commands gs)) = maze gs.
Proof.
  induction commands as [|c commands IH]; intros gs Hturns.
  - simpl. destruct (isAtGoal gs); simpl; rewrite ?app_nil_r; auto.
  - inversion Hturns as [|? ? Hc Hrest]; subst.
    destruct (executeCommand_turn c gs Hc) as [d Hcmd].
    cbn [executeLoop scriptOutcome]. unfold iteration.
    destruct (Z.leb_spec maxSteps (totalSteps (agent gs))) as [Hmax|Hmax];
      [simpl; auto|].
    rewrite Hcmd. cbn [cmd_success negb].
    set (gs1 := setAgent gs _).
    assert (Hgoal1 : isAtGoal gs1 = isAtGoal gs) by reflexivity.
    rewrite Hgoal1.
    destruct (isAtGoal gs) eqn:Hgoal; [simpl; auto|].
    destruct (IH gs1 Hrest) as (Hres & Hrow & Hcol & Hsteps & Hmaze).
    rewrite Hres, Hrow, Hcol, Hsteps, Hmaze.
    split; [|simpl; auto].
    change (totalSteps (agent gs1)) with (totalSteps (agent gs)).
    change (output gs1) with (output gs).
    destruct commands as [|c' commands]; unfold scriptOutcome.
    + rewrite Hgoal1. reflexivity.
    + change (totalSteps (agent gs1)) with (totalSteps (agent gs)).
      destruct (Z.leb_spec maxSteps (totalSteps (agent gs))); [lia|].
      rewrite Hgoal1. reflexivity.
Qed.

(** X3: whatever the script, [executeCode] leaves the agent on the cell it
    started from, with the step count and the maze it started with, and its
    result is read off the start state alone: goal-not-reached (or success, if
    the agent starts on the goal) for a script without commands, and for a
    script with commands step-limit-exceeded, goal-reached or goal-not-reached
    by the step count and the place of the agent at the start. *)
Theorem executeCode_never_moves (code : jsstring) (gs : GameState) :
  fst (executeCode code gs) = scriptOutcome (parseCode code) gs
  /\ row (agent (snd (executeCode code gs))) = row (agent gs)
  /\ col (agent (snd (executeCode code gs))) = col (agent gs)
  /\ totalSteps (agent (snd (executeCode code gs))) = totalSteps (agent gs)
  /\ maze (snd (executeCode code gs)) = maze gs.
Proof.
  unfold executeCode.
  destruct (executeLoop_turns (parseCode code)
              (mkGameState (maze gs) (agent gs) (goalPos gs) [] false)
              (parseCode_turns code)) as (Hres & Hrest).
  split; [|exact Hrest].
  rewrite Hres. cbn [output app].
  destruct (scriptOutcome (parseCode code) gs) as [ok n out] eqn:E.
  assert (E' : scriptOutcome (parseCode code)
                 (mkGameState (maze gs) (agent gs) (goalPos gs) [] false)
               = scriptOutcome (parseCode code) gs) by reflexivity.
  rewrite E', E. cbn [success result_output agent].
  f_equal. unfold scriptOutcome in E.
  destruct (parseCode code); [destruct (isAtGoal gs)|];
    try (injection E as _ <- _; reflexivity).
  destruct (maxSteps <=? totalSteps (agent gs));
    [|destruct (isAtGoal gs)]; injection E as _ <- _; reflexivity.
Qed.

Lemma executeCommand_steps_other (command : string) (gs : GameState) :
  command <> "forward"%string ->
  totalSteps (agent (snd (executeCommand command gs))) = totalSteps (agent gs).
Proof.
  intros Hne. unfold executeCommand.
  destruct (String.eqb_spec command "forward"); [contradiction|].
  destruct (String.eqb command "left"); [reflexivity|].
  destruct (String.eqb command "right"); reflexivity.
Qed.

Lemma iteration_Returns_agent (command : string) (gs : GameState)
    (r : ExecutionResult) (gs' : GameState) :
  iteration command gs = Returns (r, gs') ->
  agent gs' = agent gs \/ agent gs' = agent (snd (executeCommand command gs)).
Proof.
  unfold iteration.
  destruct (maxSteps <=? totalSteps (agent gs)).
  { intros H; injection H as _ <-. now left. }
  destruct (executeCommand command gs) as [result gs1]. simpl.
  destruct (cmd_success result); simpl.
  - destruct (isAtGoal gs1); [|discriminate].
    intros H; injection H as _ <-. now right.
  - intros H; injection H as _ <-. now right.
Qed.

Lemma iteration_result (command : string) (gs : GameState) (r : ExecutionResult)
    (gs' : GameState) :
  iteration command gs = Returns (r, gs') ->
  result_output r = output gs'
  /\ steps r = totalSteps (agent gs')
  /\ (success r = true -> isAtGoal gs' = true)
  /\ (exists l, output gs' = output gs ++ [l])
  /\ totalSteps (agent gs) <= totalSteps (agent gs') <= totalSteps (agent gs) + 1
  /\ (totalSteps (agent gs) <= maxSteps -> totalSteps (agent gs') <= maxSteps).
Proof.
  unfold iteration.
  destruct (Z.leb_spec maxSteps (totalSteps (agent gs))) as [Hmax|Hmax].
  { intros H; injection H as <- <-. simpl.
    repeat split; try discriminate; try lia; eauto. }
  assert (Hstep : totalSteps (agent gs) <= totalSteps (agent (snd (executeCommand command gs)))
                  <= totalSteps (agent gs) + 1).
  { unfold executeCommand.
    repeat match goal with |- context [if ?b then _ else _] => destruct b end;
      simpl; lia. }
  assert (Hout : output (snd (executeCommand command gs)) = output gs).
  { unfold executeCommand.
    repeat match goal with |- context [if ?b then _ else _] => destruct b end;
      reflexivity. }
  destruct (executeCommand command gs) as [result gs1]; simpl in Hstep, Hout.
  destruct (cmd_success result); simpl.
  - destruct (isAtGoal gs1) eqn:Hgoal; [|discriminate].
    intros H; injection H as <- <-. simpl. rewrite Hout.
    repeat split; try lia; eauto.
  - intros H; injection H as <- <-. simpl. rewrite Hout.
    repeat split; try discriminate; try lia; eauto.
Qed.

Lemma executeLoop_shape (commands : list string) :
  forall gs,
    result_output (fst (executeLoop commands gs)) = output (snd (executeLoop commands gs))
    /\ steps (fst (executeLoop commands gs))
       = totalSteps (agent (snd (executeLoop commands gs)))
    /\ (success (fst (executeLoop commands gs)) = true ->
        isAtGoal (snd (executeLoop commands gs)) = true)
    /\ (output (snd (executeLoop commands gs)) = output gs
        \/ exists l, output (snd (executeLoop commands gs)) = output gs ++ [l])
    /\ totalSteps (agent gs) <= steps (fst (executeLoop commands gs))
       <= totalSteps (agent gs) + Z.of_nat (count_occ string_dec commands "forward"%string)
    /\ (totalSteps (agent gs) <= maxSteps ->
        steps (fst (executeLoop commands gs)) <= maxSteps).
Proof.
  induction commands as [|c commands IH]; intros gs.
  - simpl. destruct (isAtGoal gs) eqn:Hgoal; simpl;
      repeat split; try discriminate; try lia; eauto.
  - cbn [executeLoop].
    destruct (iteration c gs) as [[r gs']|gs1] eqn:Hit.
    + destruct (iteration_result c gs r gs' Hit) as (H1 & H2 & H3 & H4 & H5 & H6).
      cbn [fst snd]. repeat split; auto; try lia.
      rewrite H2.
      assert (Hc : c <> "forward"%string -> totalSteps (agent gs') = totalSteps (agent gs)).
      { intros Hne.
        destruct (iteration_Returns_agent c gs r gs' Hit) as [-> | ->];
          [reflexivity | now apply executeCommand_steps_other]. }
      cbn [count_occ]. destruct (string_dec c "forward") as [Heq|Hne]; cbn iota.
      * lia.
      * rewrite (Hc Hne). lia.
    + destruct (IH gs1) as (H1 & H2 & H3 & H4 & H5 & H6).
      pose proof (iteration_Continues c gs gs1 Hit) as (Hlt & Hgs1 & _ & _).
      assert (Hout : output gs1 = output gs).
      { subst gs1. unfold executeCommand.
        repeat match goal with |- context [if ?b then _ else _] => destruct b end;
          reflexivity. }
      assert (Hstep : totalSteps (agent gs) <= totalSteps (agent gs1)
                      <= totalSteps (agent gs)
                         + (if string_dec c "forward" then 1 else 0)).
      { subst gs1. unfold executeCommand.
        destruct (string_dec c "forward") as [Heq|Hne]; cbn iota.
        - repeat match goal with |- context [if ?b then _ else _] => destruct b end;
            simpl; lia.
        - destruct (String.eqb_spec c "forward"); [contradiction|].
          repeat match goal with |- context [if ?b then _ else _] => destruct b end;
            simpl; lia. }
      rewrite Hout in H4.
      repeat split; auto.
      * lia.
      * cbn [count_occ]. destruct (string_dec c "forward"); cbn iota in *; lia.
      * intros Hle. apply H6. unfold maxSteps in *.
        destruct (string_dec c "forward"); lia.
Qed.

(** X4: the step count that the command loop reports is at least the count it
    started with, at most that count plus the number of [forward] commands,
    and at most [maxSteps] unless the loop started above it. *)
Theorem executeLoop_step_ceiling (commands : list string) (gs : GameState) :
  totalSteps (agent gs) <= steps (fst (executeLoop commands gs))
  /\ steps (fst (executeLoop commands gs))
     <= totalSteps (agent gs) + Z.of_nat (count_occ string_dec commands "forward"%string)
  /\ steps (fst (executeLoop commands gs)) <= Z.max maxSteps (totalSteps (agent gs)).
Proof.
  destruct (executeLoop_shape commands gs) as (_ & _ & _ & _ & [Hlo Hhi] & Hmax).
  split; [exact Hlo|]. split; [exact Hhi|].
  destruct (Z_le_gt_dec (totalSteps (agent gs)) maxSteps) as [Hle|Hgt].
  - specialize (Hmax Hle). lia.
  - (* already over the limit: no command is executed *)
    destruct commands as [|c commands].
    + simpl. destruct (isAtGoal gs); simpl; lia.
    + cbn [executeLoop]. rewrite iteration_limit by lia. simpl. lia.
Qed.

(** X5: the result of the command loop agrees with the game state it leaves:
    the output returned is the output of the state, the steps returned are the
    steps of the agent, a success is returned only with the agent on the goal,
    and the loop adds one line to the output at most. *)
Theorem executeLoop_result_shape (commands : list string) (gs : GameState) :
  result_output (fst (executeLoop commands gs)) = output (snd (executeLoop commands gs))
  /\ steps (fst (executeLoop commands gs))
     = totalSteps (agent (snd (executeLoop commands gs)))
  /\ (success (fst (executeLoop commands gs)) = true ->
      isAtGoal (snd (executeLoop commands gs)) = true)
  /\ (output (snd (executeLoop commands gs)) = output gs
      \/ exists l, output (snd (executeLoop commands gs)) = output gs ++ [l]).
Proof.
  destruct (executeLoop_shape commands gs) as (H1 & H2 & H3 & H4 & _).
  auto.
Qed.

(** X19: the two turns undo each other, four turns the same way lead back to
    the game state they started from, and two turns to the left leave the
    state that two turns to the right leave. *)
Theorem turns_round_trip (gs : GameState) :
  snd (executeCommand "right" (snd (executeCommand "left" gs))) = gs
  /\ snd (executeCommand "left" (snd (executeCommand "right" gs))) = gs
  /\ repeatCommand 4 "left" gs = gs
  /\ repeatCommand 4 "right" gs = gs
  /\ repeatCommand 2 "left" gs = repeatCommand 2 "right" gs.
Proof.
  destruct gs as [m [r c d t] g o ic]. destruct d; repeat split; reflexivity.
Qed.

End ExecutionMore.

Section Levels.
Import CodeExecutor.

Lemma createLevelMaze_cases (levelId : Z) :
  createLevelMaze levelId = createLevelMaze 1
  \/ createLevelMaze levelId = createLevelMaze 2
  \/ createLevelMaze levelId = createLevelMaze 3.
Proof.
  unfold createLevelMaze.
  destruct (levelId =? 1); [now left|].
  destruct (levelId =? 2); [right; now left | right; now right].
Qed.

Lemma levels_levelShaped (levelId : Z) :
  levelShaped (level_maze (createLevelMaze levelId)) = true.
Proof.
  destruct (createLevelMaze_cases levelId) as [-> | [-> | ->]];
    vm_compute; reflexivity.
Qed.

Lemma levelShaped_rectangular (m : list (list TileType)) :
  levelShaped m = true -> rectangular m.
Proof.
  unfold levelShaped. rewrite !andb_true_iff. intros [[[Hlen Hrows] _] _].
  rewrite forallb_forall in Hrows.
  intros cells Hc. pose proof (Hrows cells Hc) as H1. apply Nat.eqb_eq in H1.
  destruct m as [|cells0 m]; [destruct Hc|].
  pose proof (Hrows cells0 (or_introl eq_refl)) as H0. apply Nat.eqb_eq in H0.
  simpl. congruence.
Qed.

Lemma levelShaped_inside (m : list (list TileType)) (r c : Z) :
  levelShaped m = true ->
  (tileAt m r c <> None <-> 0 <= r <= 14 /\ 0 <= c <= 14).
Proof.
  unfold levelShaped. rewrite !andb_true_iff. intros [[[Hlen Hrows] _] _].
  apply Nat.eqb_eq in Hlen. rewrite forallb_forall in Hrows.
  unfold tileAt.
  destruct (Z.ltb_spec r 0) as [Hr|Hr]; simpl; [split; [congruence | lia]|].
  destruct (Z.ltb_spec c 0) as [Hc|Hc]; simpl; [split; [congruence | lia]|].
  destruct (nth_error m (Z.to_nat r)) as [cells|] eqn:Hrow.
  - assert (Hlt : (Z.to_nat r < List.length m)%nat)
      by (apply nth_error_Some; congruence).
    pose proof (Hrows cells (nth_error_In _ _ Hrow)) as Hcells.
    apply Nat.eqb_eq in Hcells.
    rewrite nth_error_Some, Hcells. unfold level_size in *. lia.
  - apply nth_error_None in Hrow. unfold level_size in *.
    split; [congruence | lia].
Qed.

Lemma levelShaped_border (m : list (list TileType)) (r c : Z) :
  levelShaped m = true ->
  0 <= r <= 14 -> 0 <= c <= 14 ->
  r = 0 \/ r = 14 \/ c = 0 \/ c = 14 ->
  tileAt m r c = Some WALL.
Proof.
  unfold levelShaped. rewrite !andb_true_iff. intros [[_ Hborder] _] Hr Hc Hon.
  rewrite forallb_forall in Hborder.
  assert (Hin : forall i, 0 <= i <= 14 -> In i (map Z.of_nat (seq 0 level_size))).
  { intros i Hi. apply in_map_iff. exists (Z.to_nat i). split; [lia|].
    apply in_seq. unfold level_size. lia. }
  destruct Hon as [-> | [-> | [-> | ->]]].
  - pose proof (Hborder c (Hin c Hc)) as H.
    destruct (tileAt m 0 c) as [[]|]; try discriminate H; reflexivity.
  - pose proof (Hborder c (Hin c Hc)) as H.
    destruct (tileAt m 0 c) as [[]|]; try discriminate H.
    destruct (tileAt m 14 c) as [[]|]; try discriminate H; reflexivity.
  - pose proof (Hborder r (Hin r Hr)) as H.
    destruct (tileAt m 0 r) as [[]|]; try discriminate H.
    destruct (tileAt m 14 r) as [[]|]; try discriminate H.
    destruct (tileAt m r 0) as [[]|]; try discriminate H; reflexivity.
  - pose proof (Hborder r (Hin r Hr)) as H.
    destruct (tileAt m 0 r) as [[]|]; try discriminate H.
    destruct (tileAt m 14 r) as [[]|]; try discriminate H.
    destruct (tileAt m r 0) as [[]|]; try discriminate H.
    destruct (tileAt m r 14) as [[]|]; try discriminate H; reflexivity.
Qed.

Lemma levelShaped_cells (m : list (list TileType)) :
  levelShaped m = true -> tileAt m 1 1 = Some EMPTY /\ tileAt m 13 13 = Some GOAL.
Proof.
  unfold levelShaped. rewrite !andb_true_iff. intros [_ H].
  destruct (tileAt m 1 1) as [[]|]; try discriminate H.
  destruct (tileAt m 13 13) as [[]|]; try discriminate H. auto.
Qed.

Lemma level_resetState (levelId : Z) :
  resetState (createLevelMaze levelId)
  = mkGameState (level_maze (createLevelMaze levelId)) (mkAgent 1 1 EAST 0)
      (mkPosition 13 13) [] false.
Proof.
  destruct (createLevelMaze_cases levelId) as [-> | [-> | ->]]; reflexivity.
Qed.

(** X6: for every level id the maze of [createLevelMaze] is a square of 15 by
    15 cells whose border cells are all walls, the start position is (1, 1) on
    an empty cell and the goal position is (13, 13) on the goal cell. *)
Theorem createLevelMaze_layout (levelId : Z) :
  let m := level_maze (createLevelMaze levelId) in
  rectangular m
  /\ (forall r c, tileAt m r c <> None <-> 0 <= r <= 14 /\ 0 <= c <= 14)
  /\ (forall r c, 0 <= r <= 14 -> 0 <= c <= 14 ->
                  r = 0 \/ r = 14 \/ c = 0 \/ c = 14 -> tileAt m r c = Some WALL)
  /\ startPos (createLevelMaze levelId) = mkPosition 1 1
  /\ level_goalPos (createLevelMaze levelId) = mkPosition 13 13
  /\ tileAt m 1 1 = Some EMPTY
  /\ tileAt m 13 13 = Some GOAL.
Proof.
  pose proof (levels_levelShaped levelId) as Hs. cbv zeta.
  split; [now apply levelShaped_rectangular|].
  split; [intros r c; now apply levelShaped_inside|].
  split; [intros r c; now apply levelShaped_border|].
  split; [destruct (createLevelMaze_cases levelId) as [-> | [-> | ->]]; reflexivity|].
  split; [destruct (createLevelMaze_cases levelId) as [-> | [-> | ->]]; reflexivity|].
  now apply levelShaped_cells.
Qed.

Lemma levelShaped_insideBorder (gs : GameState) :
  levelShaped (maze gs) = true -> agentOk gs -> insideBorder gs.
Proof.
  intros Hs [t [Ht Hnw]].
  assert (Hin : 0 <= row (agent gs) <= 14 /\ 0 <= col (agent gs) <= 14)
    by (apply (levelShaped_inside _ _ _ Hs); congruence).
  unfold insideBorder.
  destruct (Z.eq_dec (row (agent gs)) 0) as [E|E];
    [rewrite (levelShaped_border _ _ _ Hs) in Ht by tauto; congruence|].
  destruct (Z.eq_dec (row (agent gs)) 14) as [E1|E1];
    [rewrite (levelShaped_border _ _ _ Hs) in Ht by tauto; congruence|].
  destruct (Z.eq_dec (col (agent gs)) 0) as [E2|E2];
    [rewrite (levelShaped_border _ _ _ Hs) in Ht by tauto; congruence|].
  destruct (Z.eq_dec (col (agent gs)) 14) as [E3|E3];
    [rewrite (levelShaped_border _ _ _ Hs) in Ht by tauto; congruence|].
  lia.
Qed.

Lemma level_no_boundary_error (command : string) (gs : GameState) :
  levelShaped (maze gs) = true -> agentOk gs ->
  error (fst (executeCommand command gs)) <> Some "Hit boundary!"%string.
Proof.
  intros Hs Hok.
  destruct (String.eqb command "forward") eqn:Hfwd.
  - apply String.eqb_eq in Hfwd; subst command.
    rewrite (executeCommand_forward gs (levelShaped_rectangular _ Hs)).
    pose proof (levelShaped_insideBorder gs Hs Hok) as [Hr Hc].
    assert (Hin : tileAt (maze gs) (fst (forwardTarget (agent gs)))
                    (snd (forwardTarget (agent gs))) <> None).
    { apply (levelShaped_inside _ _ _ Hs). unfold forwardTarget.
      destruct (direction (agent gs)); simpl; lia. }
    destruct (forwardTarget (agent gs)) as [r c]. cbn [fst snd] in Hin.
    destruct (tileAt (maze gs) r c) as [[]|]; simpl; congruence.
  - unfold executeCommand. rewrite Hfwd.
    destruct (String.eqb command "left"); [discriminate|].
    destruct (String.eqb command "right"); discriminate.
Qed.

Lemma level_loop (commands : list string) :
  forall gs,
    levelShaped (maze gs) = true -> agentOk gs ->
    ~ In "❌ Hit boundary!"%string (output gs) ->
    ~ In "❌ Hit boundary!"%string (result_output (fst (executeLoop commands gs)))
    /\ Forall insideBorder (visited commands gs).
Proof.
  induction commands as [|c commands IH]; intros gs Hs Hok Hout.
  - split; [|constructor]. simpl. destruct (isAtGoal gs); simpl; [exact Hout|].
    rewrite in_app_iff. intros [H|[H|[]]]; [contradiction | discriminate H].
  - pose proof (level_no_boundary_error c gs Hs Hok) as Herr.
    pose proof (executeCommand_maze c gs) as Hmaze.
    pose proof (executeCommand_agentOk c gs (levelShaped_rectangular _ Hs) Hok) as Hok1.
    assert (Hout1 : output (snd (executeCommand c gs)) = output gs).
    { unfold executeCommand.
      repeat match goal with |- context [if ?b then _ else _] => destruct b end;
        reflexivity. }
    assert (Hin1 : insideBorder (snd (executeCommand c gs))).
    { apply levelShaped_insideBorder; [now rewrite Hmaze | exact Hok1]. }
    cbn [executeLoop visited]. unfold iteration.
    destruct (maxSteps <=? totalSteps (agent gs)).
    { split; [|constructor]. simpl. rewrite in_app_iff.
      intros [H|[H|[]]]; [contradiction | discriminate H]. }
    destruct (executeCommand c gs) as [result gs1]. cbn [fst snd] in *.
    destruct (cmd_success result); cbn [negb].
    + destruct (isAtGoal gs1).
      * split; [|constructor; [exact Hin1 | constructor]]. simpl. rewrite Hout1, in_app_iff.
        intros [H|[H|[]]]; [contradiction | discriminate H].
      * destruct (IH gs1) as [H1 H2]; try assumption; try congruence.
        split; [exact H1 | constructor; assumption].
    + split; [|constructor; [exact Hin1 | constructor]]. simpl. rewrite Hout1, in_app_iff.
      intros [H|[H|[]]]; [contradiction|].
      destruct (error result) as [e|]; [|discriminate H].
      apply Herr. f_equal.
      simpl in H. injection H as H. exact H.
Qed.

(** X7: on the maze of every level, run from the start state, no command list
    makes the loop report a hit of the boundary, and after every executed
    command the agent is inside the border of walls. *)
Theorem levels_never_hit_boundary (levelId : Z) (commands : list string) :
  ~ In "❌ Hit boundary!"%string
      (result_output (fst (executeLoop commands (resetState (createLevelMaze levelId)))))
  /\ Forall insideBorder (visited commands (resetState (createLevelMaze levelId))).
Proof.
  rewrite level_resetState.
  pose proof (levels_levelShaped levelId) as Hs.
  apply level_loop; [exact Hs| |intros []].
  exists EMPTY. split; [|discriminate]. now apply levelShaped_cells.
Qed.


Lemma level_script_result (levelId : Z) (code : JsString.jsstring) :
  fst (executeCode code (resetState (createLevelMaze levelId)))
  = mkExecutionResult false 0 ["❌ Code completed but goal not reached"%string]
  /\ row (agent (snd (executeCode code (resetState (createLevelMaze levelId))))) = 1
  /\ col (agent (snd (executeCode code (resetState (createLevelMaze levelId))))) = 1
  /\ totalSteps (agent (snd (executeCode code (resetState (createLevelMaze levelId)))))
     = 0.
Proof.
  rewrite level_resetState. unfold executeCode. cbn [maze agent goalPos].
  destruct (executeLoop_turns (parseCode code)
              (mkGameState (level_maze (createLevelMaze levelId)) (mkAgent 1 1 EAST 0)
                 (mkPosition 13 13) [] false)
              (parseCode_turns code)) as (Hres & Hrow & Hcol & Hsteps & _).
  split; [|split; [exact Hrow | split; [exact Hcol | exact Hsteps]]].
  rewrite Hres. destruct (parseCode code); reflexivity.
Qed.

(** X20: on every level and for every script, the executor started by the
    game screen returns failure with 0 steps and the single line that the goal
    was not reached, and the [executeCode] handler of the screen ends with the
    agent on the start cell and with the statistics 0 steps, efficiency
    [Failed]. *)
Theorem every_script_fails (withinFifth : Z -> Z -> bool) (levelId : Z)
    (code : JsString.jsstring) (prev : GameInterface.Stats) :
  fst (executeCode code (resetState (createLevelMaze levelId)))
  = mkExecutionResult false 0 ["❌ Code completed but goal not reached"%string]
  /\ snd (GameInterface.executeCode withinFifth (createLevelMaze levelId) code prev)
     = GameInterface.mkStats 0 (GameInterface.stats_optimal prev) "Failed"
  /\ row (agent (fst (GameInterface.executeCode withinFifth (createLevelMaze levelId)
                        code prev))) = 1
  /\ col (agent (fst (GameInterface.executeCode withinFifth (createLevelMaze levelId)
                        code prev))) = 1.
Proof.
  destruct (level_script_result levelId code) as (Hres & Hrow & Hcol & _).
  unfold GameInterface.executeCode.
  destruct (executeCode code (resetState (createLevelMaze levelId))) as [result gs].
  cbn [fst snd] in *. subst result. cbn [success steps].
  repeat split; assumption.
Qed.

End Levels.

(* ===================================================================== *)
(** * Properties of the page and of the code review *)
(* ===================================================================== *)

Section Page.
Import MazeGame.

Lemma page_invariant (calls : list Call) :
  forall s,
    (gameState s = playing -> selectedLevel s <> None) ->
    (gameState s = menu -> selectedLevel s = None) ->
    (gameState (fold_left handle calls s) = playing ->
     selectedLevel (fold_left handle calls s) <> None)
    /\ (gameState (fold_left handle calls s) = menu ->
        selectedLevel (fold_left handle calls s) = None)
    /\ selectedLevel (fold_left handle calls s)
       = lastSelected calls (selectedLevel s).
Proof.
  induction calls as [|c calls IH]; intros s Hp Hm; cbn [fold_left lastSelected].
  - auto.
  - destruct c as [|levelId| |]; cbn [handle].
    + apply (IH (handlePlay s)); discriminate.
    + apply (IH (handleLevelSelect levelId s)); discriminate.
    + apply (IH (handleBackToMenu s)); [discriminate | reflexivity].
    + apply (IH (handleBackToLevels s)); discriminate.
Qed.

Lemma page_never_blank (calls : list Call) :
  exists view, render (fold_left handle calls initial) = Some view.
Proof.
  destruct (page_invariant calls initial) as (Hp & _ & _);
    [discriminate | reflexivity |].
  unfold render. destruct (gameState (fold_left handle calls initial)); eauto.
  destruct (selectedLevel (fold_left handle calls initial)); eauto.
  now destruct Hp.
Qed.

(** X17: after any calls of the four handlers of the page, from its initial
    state, one of the three components is shown; on the menu the selected
    level is null, and when the game is shown its level is the one of the last
    level selection that no return to the menu follows. *)
Theorem page_shows (calls : list Call) :
  (exists view, render (fold_left handle calls initial) = Some view)
  /\ (gameState (fold_left handle calls initial) = menu ->
      selectedLevel (fold_left handle calls initial) = None)
  /\ (forall levelId,
        render (fold_left handle calls initial) = Some (GameInterface levelId) ->
        lastSelected calls None = Some levelId).
Proof.
  split; [apply page_never_blank|].
  destruct (page_invariant calls initial) as (_ & Hm & Hl);
    [discriminate | reflexivity |].
  split; [exact Hm|].
  intros levelId. unfold render. cbn [initial selectedLevel] in Hl.
  destruct (gameState (fold_left handle calls initial)); try discriminate.
  rewrite Hl. destruct (lastSelected calls None); [|discriminate].
  intros H. injection H as ->. reflexivity.
Qed.

End Page.

Section Review.
Import JsString CodeExecutor AICodeReview.

Lemma fold_parseLine_length (lines : list jsstring) :
  forall commands,
    (List.length (fold_left parseLine lines commands)
     <= List.length commands
        + List.length
            (filter (fun line => truthy (trim line)
                                 && negb (startsWith (trim line) (units "#")))
               lines))%nat.
Proof.
  induction lines as [|l lines IH]; intros commands; cbn [fold_left filter].
  - simpl. lia.
  - specialize (IH (parseLine commands l)).
    rewrite parseLine_turnOfLine in *. unfold turnOfLine in *.
    destruct (truthy (trim l) && negb (startsWith (trim l) (units "#")));
      [|exact IH].
    cbn [List.length].
    destruct (endsWith (trim l) (units "left"));
      [rewrite length_app in IH; simpl in IH; lia|].
    destruct (endsWith (trim l) (units "right"));
      [rewrite length_app in IH; simpl in IH; lia | lia].
Qed.

(** X18: the commands [parseCode] reads from a script are at most as many as
    the lines the code review counts in it, the lines that are not blank and
    no comments; a script in which the review counts no line has no
    commands. *)
Theorem commands_per_line (code : jsstring) :
  (List.length (parseCode code) <= lineCount code)%nat
  /\ (lineCount code = 0%nat -> parseCode code = []).
Proof.
  pose proof (fold_parseLine_length (split 10%N code) []) as H.
  cbn [List.length] in H. split; [exact H|].
  intros H0. unfold lineCount in H0. rewrite H0 in H.
  unfold parseCode. destruct (fold_left parseLine (split 10%N code) []);
    [reflexivity | simpl in H; lia].
Qed.

End Review.
